(** * Verification of the fallback-chain product-resolution engine

    Shallow embedding of [backend/enhanced_amazon_agent.py]
    (class [EnhancedAmazonProductAgent]) and theorems about it; further
    on, of [backend/simple_amazon_scraper.py] and of the rate limiter of
    [backend_api.py].

    - A Python [str] is a sequence of Unicode code points: [list N].
    - The parts of the Unicode character database that the code reaches
      through [str.upper], [str.lower], [str.strip], [\s], [\d] and
      [float] on non-ASCII code points are a parameter ([unicode]); the
      ASCII part of each is written out.  Theorems hold for every such
      database.
    - Python's [re] is embedded as a backtracking matcher over a regular
      expression syntax tree, with one capturing group. *)

From Stdlib Require Import String Ascii.
From Stdlib Require Import List NArith ZArith Bool Lia.
Import ListNotations.

(** ** Strings *)

Definition cp := N.
Definition str := list cp.

Module Utf8.
(** Decoder used only to write string literals of the source, which is a
    UTF-8 file, as code point lists. *)
Definition cont (b : N) : N := N.land b 63.

Fixpoint decode (bs : list N) : str :=
  match bs with
  | [] => []
  | b :: r =>
      if (b <? 128)%N then b :: decode r
      else if (b <? 224)%N then
        match r with
        | b1 :: r1 => ((N.land b 31) * 64 + cont b1)%N :: decode r1
        | _ => []
        end
      else if (b <? 240)%N then
        match r with
        | b1 :: b2 :: r2 =>
            ((N.land b 15) * 4096 + cont b1 * 64 + cont b2)%N :: decode r2
        | _ => []
        end
      else
        match r with
        | b1 :: b2 :: b3 :: r3 =>
            ((N.land b 7) * 262144 + cont b1 * 4096 + cont b2 * 64 + cont b3)%N
              :: decode r3
        | _ => []
        end
  end.
End Utf8.

(** [u] turns a string literal of this file into the Python string of
    the same text. *)
Definition u (s : string) : str :=
  Utf8.decode (map N_of_ascii (list_ascii_of_string s)).

Definition str_eqb (a b : str) : bool :=
  if list_eq_dec N.eq_dec a b then true else false.

(** [s.startswith(p)] *)
Fixpoint startswith (p s : str) : bool :=
  match p, s with
  | [], _ => true
  | _ :: _, [] => false
  | a :: p', b :: s' => (a =? b)%N && startswith p' s'
  end.

(** [p in s] for strings: substring test. *)
Fixpoint contains (p s : str) : bool :=
  startswith p s ||
  match s with
  | [] => false
  | _ :: s' => contains p s'
  end.

(** [s.replace(old, new)] for non-empty [old]: occurrences are replaced
    left to right without overlap; [skip] counts the characters of an
    occurrence still to be dropped. *)
Fixpoint replace_go (old new : str) (skip : nat) (s : str) : str :=
  match s with
  | [] => []
  | c :: t =>
      match skip with
      | S k => replace_go old new k t
      | O =>
          if startswith old s
          then new ++ replace_go old new (length old - 1) t
          else c :: replace_go old new O t
      end
  end.

Definition py_replace (old new s : str) : str := replace_go old new 0 s.

(** [s[a:b]] with [0 <= a]. *)
Definition slice (a b : nat) (s : str) : str := firstn (b - a) (skipn a s).

(** ** The Unicode character database

    What Python answers for code points from 128 on.  [uc_lower] sees the
    text before and after the character because [str.lower] maps capital
    sigma by its context. *)
Record unicode := {
  uc_isspace : cp -> bool;
  uc_decimal : cp -> option N;
  uc_upper : cp -> str;
  uc_lower : str -> cp -> str -> str
}.

(** A database in which no code point from 128 on is white space, a digit
    or cased.  It agrees with Python on the currency signs and on every
    other code point without such properties, and is the one the
    examples below are evaluated in. *)
Definition caseless : unicode := {|
  uc_isspace := fun _ => false;
  uc_decimal := fun _ => None;
  uc_upper := fun c => [c];
  uc_lower := fun _ c _ => [c]
|}.

Definition is_ascii (c : cp) : bool := (c <? 128)%N.
Definition ascii_upper_letter (c : cp) : bool := (65 <=? c)%N && (c <=? 90)%N.
Definition ascii_lower_letter (c : cp) : bool := (97 <=? c)%N && (c <=? 122)%N.
Definition ascii_digit (c : cp) : bool := (48 <=? c)%N && (c <=? 57)%N.
Definition ascii_alnum (c : cp) : bool :=
  ascii_upper_letter c || ascii_lower_letter c || ascii_digit c.
Definition ascii_AZ09 (c : cp) : bool := ascii_upper_letter c || ascii_digit c.

Section Unicode.
Variable U : unicode.

(** [c.isspace()], which is also what [\s] tests. *)
Definition py_isspace (c : cp) : bool :=
  if is_ascii c
  then ((9 <=? c)%N && (c <=? 13)%N) || ((28 <=? c)%N && (c <=? 32)%N)
  else uc_isspace U c.

(** Decimal digit value of [c]; [c.isdecimal()] and [\d] test that there
    is one, [float] uses it. *)
Definition py_decimal (c : cp) : option N :=
  if is_ascii c
  then (if ascii_digit c then Some (c - 48)%N else None)
  else uc_decimal U c.

Definition py_isdigit (c : cp) : bool :=
  match py_decimal c with Some _ => true | None => false end.

(** Upper case of one character.  The four non-ASCII letters that
    [[A-Z]] accepts under [re.IGNORECASE] are written out:
    U+0130 and U+212A are upper case already, U+0131 maps to I and
    U+017F to S. *)
Definition upper_cp (c : cp) : str :=
  if ascii_lower_letter c then [(c - 32)%N]
  else if is_ascii c then [c]
  else if (c =? 304)%N then [304%N]
  else if (c =? 305)%N then [73%N]
  else if (c =? 383)%N then [83%N]
  else if (c =? 8490)%N then [8490%N]
  else uc_upper U c.

(** [s.upper()] *)
Definition py_upper (s : str) : str := flat_map upper_cp s.

Definition lower_cp (before : str) (c : cp) (after : str) : str :=
  if ascii_upper_letter c then [(c + 32)%N]
  else if is_ascii c then [c]
  else uc_lower U before c after.

Fixpoint lower_go (before s : str) : str :=
  match s with
  | [] => []
  | c :: t => lower_cp before c t ++ lower_go (before ++ [c]) t
  end.

(** [s.lower()] *)
Definition py_lower (s : str) : str := lower_go [] s.

(** [s.lstrip()], [s.rstrip()], [s.strip()] *)
Fixpoint lstrip (s : str) : str :=
  match s with
  | [] => []
  | c :: t => if py_isspace c then lstrip t else s
  end.

Fixpoint rstrip (s : str) : str :=
  match s with
  | [] => []
  | c :: t =>
      match rstrip t with
      | [] => if py_isspace c then [] else [c]
      | t' => c :: t'
      end
  end.

Definition py_strip (s : str) : str := rstrip (lstrip s).
End Unicode.

(** ** Regular expressions *)

Inductive regex : Type :=
| Eps : regex
| Chr : (cp -> bool) -> regex
| Cat : regex -> regex -> regex
| Alt : regex -> regex -> regex
| Star : regex -> regex
| Group : regex -> regex
| Bol : regex
| Eol : regex.

(** [r+], [r?], [r{n}], [r{m,n}] and literal text, all greedy. *)
Definition Plus (r : regex) : regex := Cat r (Star r).
Definition Opt (r : regex) : regex := Alt r Eps.

Fixpoint rep_exact (n : nat) (r : regex) : regex :=
  match n with
  | O => Eps
  | S n' => Cat r (rep_exact n' r)
  end.

Fixpoint rep_upto (n : nat) (r : regex) : regex :=
  match n with
  | O => Eps
  | S n' => Alt (Cat r (rep_upto n' r)) Eps
  end.

Definition Rep (m n : nat) (r : regex) : regex :=
  Cat (rep_exact m r) (rep_upto (n - m) r).

Definition is_cp (a : cp) : cp -> bool := fun c => (c =? a)%N.
Definition not_cp (a : cp) : cp -> bool := fun c => negb (c =? a)%N.

(** Case folding of [re.IGNORECASE] on Unicode patterns, as far as ASCII
    letters are concerned: besides the two ASCII cases, U+0130 and U+0131
    count as [i], U+017F as [s] and U+212A as [k]. *)
Definition fold_case (c : cp) : cp :=
  if ascii_upper_letter c then (c + 32)%N
  else if (c =? 304)%N || (c =? 305)%N then 105%N
  else if (c =? 383)%N then 115%N
  else if (c =? 8490)%N then 107%N
  else c.

(** A literal character of a pattern compiled with [re.IGNORECASE]. *)
Definition is_cp_i (a : cp) : cp -> bool :=
  fun c => (fold_case c =? fold_case a)%N.

(** [[A-Z0-9]] compiled with [re.IGNORECASE]. *)
Definition AZ09_i (c : cp) : bool :=
  ascii_lower_letter (fold_case c) || ascii_digit c.

Fixpoint Lit (s : str) : regex :=
  match s with
  | [] => Eps
  | c :: t => Cat (Chr (is_cp c)) (Lit t)
  end.

Fixpoint Lit_i (s : str) : regex :=
  match s with
  | [] => Eps
  | c :: t => Cat (Chr (is_cp_i c)) (Lit_i t)
  end.

Module Re.
(** The matcher: [run r i s g k] matches [r] at position [i], where [s]
    is the text from [i] on and [g] what group 1 holds, and hands
    position, rest and group to [k]; alternatives are tried in Python's
    order (left branch first, longest repetition first) until [k]
    accepts. *)
Section Run.
Variable A : Type.

Definition cont : Type := nat -> str -> str -> option A.

Fixpoint star_loop (body : nat -> str -> str -> cont -> option A)
    (fuel : nat) (i : nat) (s g : str) (k : cont) : option A :=
  match fuel with
  | O => k i s g
  | S f =>
      match body i s g
              (fun i' s' g' =>
                 if (length s' <? length s)%nat
                 then star_loop body f i' s' g' k
                 else None) with
      | Some a => Some a
      | None => k i s g
      end
  end.

Fixpoint run (r : regex) (i : nat) (s g : str) (k : cont) : option A :=
  match r with
  | Eps => k i s g
  | Chr p =>
      match s with
      | c :: s' => if p c then k (S i) s' g else None
      | [] => None
      end
  | Cat r1 r2 => run r1 i s g (fun i' s' g' => run r2 i' s' g' k)
  | Alt r1 r2 =>
      match run r1 i s g k with
      | Some a => Some a
      | None => run r2 i s g k
      end
  | Star r1 => star_loop (run r1) (length s) i s g k
  | Group r1 =>
      run r1 i s g
        (fun i' s' _ => k i' s' (firstn (length s - length s') s))
  | Bol => match i with O => k i s g | S _ => None end
  | Eol =>
      match s with
      | [] => k i s g
      | [c] => if (c =? 10)%N then k i s g else None
      | _ => None
      end
  end.
End Run.

Arguments star_loop {A} body fuel i s g k.
Arguments run {A} r i s g k.

(** A match object: [start()], [end()], [group(1)] and the text after
    the match. *)
Record found := { m_start : nat; m_end : nat; m_group : str; m_rest : str }.

Definition at_pos (r : regex) (i : nat) (s : str) : option found :=
  run r i s []
    (fun i' s' g => Some {| m_start := i; m_end := i'; m_group := g; m_rest := s' |}).

(** [re.match(r, s)] *)
Definition rmatch (r : regex) (s : str) : option found := at_pos r 0 s.

Fixpoint search_from (r : regex) (i : nat) (s : str) : option found :=
  match at_pos r i s with
  | Some f => Some f
  | None =>
      match s with
      | [] => None
      | _ :: t => search_from r (S i) t
      end
  end.

(** [re.search(r, s)] *)
Definition search (r : regex) (s : str) : option found := search_from r 0 s.

(** [re.findall(r, s)] for a pattern with one group: group 1 of the
    successive non-overlapping matches. *)
Fixpoint findall_from (r : regex) (fuel i : nat) (s : str) : list str :=
  match fuel with
  | O => []
  | S fl =>
      let next :=
        match s with
        | [] => []
        | _ :: t => findall_from r fl (S i) t
        end in
      match at_pos r i s with
      | Some f =>
          m_group f ::
            (if (length (m_rest f) <? length s)%nat
             then findall_from r fl (m_end f) (m_rest f)
             else next)
      | None => next
      end
  end.

Definition findall (r : regex) (s : str) : list str :=
  findall_from r (S (length s)) 0 s.

(** [re.sub(r, repl, s)] for a replacement text without group
    references. *)
Fixpoint sub_from (r : regex) (repl : str) (fuel i : nat) (s : str) : str :=
  match fuel with
  | O => s
  | S fl =>
      match at_pos r i s with
      | Some f =>
          if (length (m_rest f) <? length s)%nat
          then repl ++ sub_from r repl fl (m_end f) (m_rest f)
          else
            match s with
            | [] => repl
            | c :: t => repl ++ c :: sub_from r repl fl (S i) t
            end
      | None =>
          match s with
          | [] => []
          | c :: t => c :: sub_from r repl fl (S i) t
          end
      end
  end.

Definition sub (r : regex) (repl s : str) : str :=
  sub_from r repl (S (length s)) 0 s.
End Re.

(** One ASCII character as a code point. *)
Definition ch (a : ascii) : cp := N_of_ascii a.

(** The double quote character. *)
Definition dquote : cp := 34%N.

(** [r1 r2 ... rn] *)
Fixpoint Seq (rs : list regex) : regex :=
  match rs with
  | [] => Eps
  | [r] => r
  | r :: rest => Cat r (Seq rest)
  end.

(** ** Floating point numbers

    [float(s)] is the binary64 number nearest to the decimal [s], ties to
    even.  A non-negative binary64 number is [m * 2^e], or infinity. *)
Module PyFloat.
Inductive t : Type :=
  | Fin : Z -> Z -> t
  | Inf : t.

(** Numerator and denominator of [(n / d) / 2^e]. *)
Definition scale (n d e : Z) : Z * Z :=
  if (0 <=? e)%Z then (n, d * 2 ^ e)%Z else (n * 2 ^ (- e), d)%Z.

Definition round_binary64 (n d : Z) : t :=
  if (n =? 0)%Z then Fin 0 0
  else
    let e0 := (Z.log2 n - Z.log2 d)%Z in
    let e := (let (a, b) := scale n d e0 in
              if (b <=? a)%Z then e0 else e0 - 1)%Z in
    let q := Z.max (e - 52) (-1074) in
    let (a, b) := scale n d q in
    let m0 := (a / b)%Z in
    let r := (a mod b)%Z in
    let m := (if 2 * r <? b then m0
              else if b <? 2 * r then m0 + 1
              else if Z.even m0 then m0 else m0 + 1)%Z in
    if (1024 <=? e)%Z || ((e =? 1023)%Z && (m =? 2 ^ 53)%Z)
    then Inf
    else Fin m q.

(** [x < y] *)
Definition ltb (x y : t) : bool :=
  match x, y with
  | Inf, _ => false
  | Fin _ _, Inf => true
  | Fin m1 e1, Fin m2 e2 =>
      let e := Z.min e1 e2 in
      (m1 * 2 ^ (e1 - e) <? m2 * 2 ^ (e2 - e))%Z
  end.

(** [x <= y]; there is no NaN among these numbers. *)
Definition leb (x y : t) : bool := negb (ltb y x).

Definition of_Z (n : Z) : t := round_binary64 n 1.
End PyFloat.

Section Agent.
Variable U : unicode.

Definition ws : regex := Chr (py_isspace U).
Definition digit : regex := Chr (py_isdigit U).

(** Value of a run of decimal digits, most significant first; [None]
    when a character is not a decimal digit. *)
Fixpoint digits_value (acc : Z) (s : str) : option Z :=
  match s with
  | [] => Some acc
  | c :: t =>
      match py_decimal U c with
      | Some v => digits_value (10 * acc + Z.of_N v) t
      | None => None
      end
  end.

Fixpoint split_dot (s : str) : str * option str :=
  match s with
  | [] => ([], None)
  | c :: t =>
      if (c =? ch ".")%N then ([], Some t)
      else let (a, b) := split_dot t in (c :: a, b)
  end.

(** [float(s)] for a text [s] of decimal digits and points, which is all
    the code ever converts: digits with at most one point and at least
    one digit; anything else of that alphabet raises [ValueError]
    ([None]). *)
Definition py_float (s : str) : option PyFloat.t :=
  let (ip, rest) := split_dot s in
  let fp := match rest with Some f => f | None => [] end in
  match ip ++ fp with
  | [] => None
  | ds =>
      match digits_value 0 ds with
      | Some n => Some (PyFloat.round_binary64 n (10 ^ Z.of_nat (length fp)))
      | None => None
      end
  end.

(** *** [extract_asin] *)

(** [^[A-Z0-9]{10}$] *)
Definition asin_exact : regex :=
  Seq [Bol; rep_exact 10 (Chr ascii_AZ09); Eol].

(** [([A-Z0-9]{10})] under [re.IGNORECASE] *)
Definition asin_group : regex := Group (rep_exact 10 (Chr AZ09_i)).

Definition asin_patterns : list regex :=
  [ Seq [Lit_i (u "/dp/"); asin_group];
    Seq [Lit_i (u "/gp/product/"); asin_group];
    Seq [Lit_i (u "/ASIN/"); asin_group];
    Seq [Lit_i (u "/product/"); asin_group];
    Seq [Lit_i (u "/d/"); asin_group];
    Seq [Lit_i (u "asin="); asin_group];
    Seq [Lit_i (u "/"); asin_group;
         Alt (Alt (Chr (is_cp_i (ch "/"))) (Chr (is_cp_i (ch "?")))) Eol] ].

Fixpoint first_asin_match (patterns : list regex) (input_data : str)
    : option str :=
  match patterns with
  | [] => None
  | pattern :: rest =>
      match Re.search pattern input_data with
      | Some m => Some (py_upper U (Re.m_group m))
      | None => first_asin_match rest input_data
      end
  end.

Definition extract_asin (input_data : str) : option str :=
  let input_data := py_strip U input_data in
  match Re.rmatch asin_exact (py_upper U input_data) with
  | Some _ => Some (py_upper U input_data)
  | None => first_asin_match asin_patterns input_data
  end.

(** *** [get_amazon_domain] *)

Definition get_amazon_domain (input_data : str) : str :=
  if contains (u "amazon.in") input_data then u "amazon.in"
  else if contains (u "amazon.co.uk") input_data then u "amazon.co.uk"
  else if contains (u "amazon.ca") input_data then u "amazon.ca"
  else if contains (u "amazon.de") input_data then u "amazon.de"
  else if contains (u "amazon.fr") input_data then u "amazon.fr"
  else if contains (u "amazon.it") input_data then u "amazon.it"
  else if contains (u "amazon.es") input_data then u "amazon.es"
  else if contains (u "amazon.com.au") input_data then u "amazon.com.au"
  else if contains (u "amazon.com.br") input_data then u "amazon.com.br"
  else if contains (u "amazon.co.jp") input_data then u "amazon.co.jp"
  else u "amazon.com".

(** *** [_clean_description] *)

Definition prefixes_to_remove : list str :=
  [ u "About this item"; u "About this Item"; u "ABOUT THIS ITEM";
    u "Product Description"; u "Description";
    u "Features:"; u "Features :"; u "FEATURES:"; u "FEATURES :" ].

Definition remove_prefix (description prefix : str) : str :=
  if startswith prefix description
  then py_strip U (skipn (length prefix) description)
  else description.

(** [\s+] *)
Definition spaces_re : regex := Plus ws.

(** [<[^>]+>] *)
Definition tag_re : regex :=
  Seq [Chr (is_cp (ch "<")); Plus (Chr (not_cp (ch ">"))); Chr (is_cp (ch ">"))].

Definition decode_entities (description : str) : str :=
  let description := py_replace (u "&amp;") (u "&") description in
  let description := py_replace (u "&quot;") [dquote] description in
  let description := py_replace (u "&#39;") (u "'") description in
  let description := py_replace (u "&lt;") (u "<") description in
  let description := py_replace (u "&gt;") (u ">") description in
  py_replace (u "&nbsp;") (u " ") description.

Definition clean_description (description : str) : str :=
  match description with
  | [] => []
  | _ =>
      let description := fold_left remove_prefix prefixes_to_remove description in
      let description := Re.sub spaces_re (u " ") description in
      let description := py_strip U description in
      let description := decode_entities description in
      let description := Re.sub tag_re [] description in
      let description := Re.sub spaces_re (u " ") description in
      py_strip U description
  end.

(** *** [_is_valid_price], [_is_valid_fallback_price] *)

(** [[^\d.,]] *)
Definition not_price_char (c : cp) : bool :=
  negb (py_isdigit U c || (c =? ch ".")%N || (c =? ch ",")%N).


Definition clean_price_of (price_value : str) : str :=
  Re.sub (Chr not_price_char) [] price_value.

(** [float(clean_price.replace(',', ''))] *)
Definition numeric_price_of (clean_price : str) : option PyFloat.t :=
  py_float (py_replace [ch ","] [] clean_price).

Definition is_valid_price (price_value : str) : bool :=
  match price_value with
  | [] => false
  | _ =>
      let clean_price := clean_price_of price_value in
      if (length clean_price <? 2)%nat then false
      else if startswith (u "0") clean_price && (length clean_price =? 1)%nat
      then false
      else
        match numeric_price_of clean_price with
        | Some numeric_price =>
            if PyFloat.ltb numeric_price (PyFloat.of_Z 1)
               || PyFloat.ltb (PyFloat.of_Z 1000000) numeric_price
            then false else true
        | None => false
        end
  end.

(** The literal [0.01] of the source. *)
Definition float_0_01 : PyFloat.t := PyFloat.round_binary64 1 100.

Definition is_valid_fallback_price (price_value : str) : bool :=
  match price_value with
  | [] => false
  | _ =>
      let clean_price := clean_price_of price_value in
      if (length clean_price <? 2)%nat then false
      else
        match numeric_price_of clean_price with
        | Some numeric_price =>
            if PyFloat.ltb numeric_price float_0_01
               || PyFloat.ltb (PyFloat.of_Z 10000000) numeric_price
            then false else true
        | None => false
        end
  end.

(** *** [_has_real_product_data] *)

Definition product_indicators : list str :=
  [ u "productTitle"; u "feature-bullets"; u "productDescription";
    u "a-price"; u "a-offscreen"; u "data-old-hires";
    u "data-a-dynamic-image" ].

Definition error_indicators : list str :=
  [ u "Sorry, we just need to make sure you're not a robot";
    u "Enter the characters you see below";
    u "Type the characters you see in this image";
    u "To discuss automated access to Amazon data please contact";
    u "Robot Check"; u "captcha"; u "blocked" ].

Definition has_error_indicator (html : str) : bool :=
  existsb (fun error_indicator =>
             contains (py_lower U error_indicator) (py_lower U html))
          error_indicators.

Definition product_count (html : str) : nat :=
  length (filter (fun indicator => contains indicator html) product_indicators).

Definition has_real_product_data (html : str) : bool :=
  if has_error_indicator html then false
  else (2 <=? product_count html)%nat.
End Agent.

(** ** Price extraction *)

Record price_data := mk_price {
  original : str;
  discounted : str;
  currency : str
}.

(** The record whose three fields are the empty string. *)
Definition empty_price : price_data := mk_price [] [] [].

(** The symbol followed by the price value in both price fields. *)
Definition priced (symbol price_value currency_code : str) : price_data :=
  mk_price (symbol ++ price_value) (symbol ++ price_value) currency_code.

(** The chain of [if expected_currency == ...] assignments shared by the
    generic pass and the fallback extraction; an expected currency that
    is none of the six leaves the record as it was created. *)
Definition by_expected (expected_currency price_value : str) : price_data :=
  if str_eqb expected_currency (u "INR") then priced (u "₹") price_value (u "INR")
  else if str_eqb expected_currency (u "USD") then priced (u "$") price_value (u "USD")
  else if str_eqb expected_currency (u "GBP") then priced (u "£") price_value (u "GBP")
  else if str_eqb expected_currency (u "EUR") then priced (u "€") price_value (u "EUR")
  else if str_eqb expected_currency (u "CAD") then priced (u "C$") price_value (u "CAD")
  else if str_eqb expected_currency (u "AUD") then priced (u "A$") price_value (u "AUD")
  else empty_price.

(** Currency detection from the text around a generic match. *)
Definition by_context (context price_value : str) : price_data :=
  if contains (u "₹") context || contains (u "INR") context
  then priced (u "₹") price_value (u "INR")
  else if contains (u "$") context || contains (u "USD") context
  then priced (u "$") price_value (u "USD")
  else if contains (u "£") context || contains (u "GBP") context
  then priced (u "£") price_value (u "GBP")
  else if contains (u "€") context || contains (u "EUR") context
  then priced (u "€") price_value (u "EUR")
  else priced (u "$") price_value (u "USD").

(** The expected currency derived from the domain of the original URL. *)
Definition expected_currency_of (original_url : str) : str :=
  if contains (u "amazon.in") original_url then u "INR"
  else if contains (u "amazon.com") original_url then u "USD"
  else if contains (u "amazon.co.uk") original_url then u "GBP"
  else if contains (u "amazon.de") original_url then u "EUR"
  else if contains (u "amazon.ca") original_url then u "CAD"
  else if contains (u "amazon.com.au") original_url then u "AUD"
  else [].

Definition pattern : Type := regex * str * str.

Definition pat_regex (p : pattern) : regex := fst (fst p).
Definition pat_symbol (p : pattern) : str := snd (fst p).
Definition pat_code (p : pattern) : str := snd p.

Section Prices.
Variable U : unicode.

(** All price patterns are used with [re.IGNORECASE]. *)
Definition comma : regex := Chr (is_cp_i (ch ",")).
Definition point : regex := Chr (is_cp_i (ch ".")).
Definition quote : regex := Chr (is_cp_i dquote).
Definition not_quote : regex := Chr (not_cp dquote).
Definition not_gt : regex := Chr (not_cp (ch ">")).

(** A group of digits with comma-separated digit runs: [\d+] followed
    by any number of [,\d+]. *)
Definition grouped_number : regex :=
  Group (Seq [Plus (digit U); Star (Seq [comma; Plus (digit U)])]).

(** [(\d+(?:\.\d{2})?)] *)
Definition decimal_number : regex :=
  Group (Seq [Plus (digit U); Opt (Seq [point; rep_exact 2 (digit U)])]).

Definition inr_patterns : list pattern :=
  [ (Seq [Lit_i (u "₹"); grouped_number], u "₹", u "INR");
    (Seq [Lit_i (u "Rs"); Opt point; Star (ws U); grouped_number], u "₹", u "INR");
    (Seq [Lit_i (u "INR"); Star (ws U); grouped_number], u "₹", u "INR") ].

Definition gbp_patterns : list pattern :=
  [ (Seq [Lit_i (u "£"); decimal_number], u "£", u "GBP");
    (Seq [Lit_i (u "GBP"); Star (ws U); decimal_number], u "£", u "GBP") ].

Definition usd_patterns : list pattern :=
  [ (Seq [Lit_i (u "$"); decimal_number], u "$", u "USD");
    (Seq [Lit_i (u "USD"); Star (ws U); decimal_number], u "$", u "USD") ].

Definition eur_patterns : list pattern :=
  [ (Seq [Lit_i (u "€"); decimal_number], u "€", u "EUR");
    (Seq [Lit_i (u "EUR"); Star (ws U); decimal_number], u "€", u "EUR") ].

Definition cad_patterns : list pattern :=
  [ (Seq [Lit_i (u "C$"); Star (ws U); decimal_number], u "C$", u "CAD");
    (Seq [Lit_i (u "CAD"); Star (ws U); decimal_number], u "C$", u "CAD") ].

Definition aud_patterns : list pattern :=
  [ (Seq [Lit_i (u "A$"); Star (ws U); decimal_number], u "A$", u "AUD");
    (Seq [Lit_i (u "AUD"); Star (ws U); decimal_number], u "A$", u "AUD") ].

(** An opening [span] tag whose [class] attribute, in double quotes,
    contains [name]. *)
Definition span_with_class (name : str) : regex :=
  Seq [Lit_i (u "<span"); Star not_gt; Lit_i (u "class="); quote;
       Star not_quote; Lit_i name; Star not_quote; quote;
       Star not_gt; Chr (is_cp_i (ch ">"))].

Definition generic_patterns : list pattern :=
  [ (Seq [span_with_class (u "a-price-whole"); grouped_number; Lit_i (u "</span>")],
     [], []);
    (Seq [span_with_class (u "a-offscreen");
          Group (Plus (Chr (not_cp (ch "<")))); Lit_i (u "</span>")],
     [], []) ].

(** The table of [_extract_price_with_currency]: rupee patterns first
    for an expected currency of INR, last among the currencies
    otherwise; the two generic patterns end both tables. *)
Definition price_patterns (expected_currency : str) : list pattern :=
  if str_eqb expected_currency (u "INR")
  then inr_patterns ++ gbp_patterns ++ usd_patterns ++ eur_patterns
         ++ cad_patterns ++ aud_patterns ++ generic_patterns
  else gbp_patterns ++ usd_patterns ++ eur_patterns ++ cad_patterns
         ++ aud_patterns ++ inr_patterns ++ generic_patterns.

(** [price_patterns[:-2]] and [price_patterns[-2:]] *)
Definition all_but_last2 {A : Type} (l : list A) : list A :=
  firstn (length l - 2) l.
Definition last2 {A : Type} (l : list A) : list A :=
  skipn (length l - 2) l.

(** First pass: the first pattern whose leftmost match carries a valid
    price returns at once. *)
Fixpoint specific_pass (patterns : list pattern) (html : str)
    : option price_data :=
  match patterns with
  | [] => None
  | p :: rest =>
      match Re.search (pat_regex p) html with
      | Some m =>
          let price_value := Re.m_group m in
          if is_valid_price U price_value
          then Some (priced (pat_symbol p) price_value (pat_code p))
          else specific_pass rest html
      | None => specific_pass rest html
      end
  end.

(** Second pass: the first generic pattern with a valid match decides,
    by the expected currency or else by the text within 100 characters
    of the match. *)
Fixpoint generic_pass (patterns : list pattern) (html expected_currency : str)
    : price_data :=
  match patterns with
  | [] => empty_price
  | p :: rest =>
      match Re.search (pat_regex p) html with
      | Some m =>
          let price_value := Re.m_group m in
          if is_valid_price U price_value
          then
            match expected_currency with
            | _ :: _ => by_expected expected_currency price_value
            | [] =>
                let context_start := (Re.m_start m - 100)%nat in
                let context_end := Nat.min (length html) (Re.m_end m + 100) in
                by_context (slice context_start context_end html) price_value
            end
          else generic_pass rest html expected_currency
      | None => generic_pass rest html expected_currency
      end
  end.

(** *** [_extract_fallback_price] *)

(** [(\d{2,4}(?:,\d{3})*(?:\.\d{2})?)] *)
Definition bare_number : regex :=
  Group (Seq [Rep 2 4 (digit U);
              Star (Seq [comma; rep_exact 3 (digit U)]);
              Opt (Seq [point; rep_exact 2 (digit U)])]).

Definition fallback_specific : list pattern :=
  gbp_patterns ++ usd_patterns ++ eur_patterns ++ cad_patterns
    ++ aud_patterns ++ inr_patterns.

Definition fallback_patterns : list pattern :=
  fallback_specific ++ [ (bare_number, [], []) ].

(** The inner loop over the matches of one pattern; [None] when the
    loop ends without returning. *)
Fixpoint fallback_matches (symbol currency_code expected_currency : str)
    (matches : list str) : option price_data :=
  match matches with
  | [] => None
  | price_value :: rest =>
      if is_valid_fallback_price U price_value
      then
        match currency_code, expected_currency with
        | _ :: _, _ => Some (priced symbol price_value currency_code)
        | [], _ :: _ => Some (by_expected expected_currency price_value)
        | [], [] => fallback_matches symbol currency_code expected_currency rest
        end
      else fallback_matches symbol currency_code expected_currency rest
  end.

Fixpoint fallback_loop (patterns : list pattern) (html expected_currency : str)
    : price_data :=
  match patterns with
  | [] => empty_price
  | p :: rest =>
      match fallback_matches (pat_symbol p) (pat_code p) expected_currency
              (Re.findall (pat_regex p) html) with
      | Some price => price
      | None => fallback_loop rest html expected_currency
      end
  end.

Definition extract_fallback_price (html expected_currency : str) : price_data :=
  fallback_loop fallback_patterns html expected_currency.

(** *** [_extract_price_with_currency]

    The record returned by the fallback extraction is a dictionary with
    three keys, so [if fallback_price] holds and it is what is
    returned. *)
Definition extract_price_with_currency (html original_url : str) : price_data :=
  let expected_currency := expected_currency_of original_url in
  if negb (has_real_product_data U html)
  then extract_fallback_price html expected_currency
  else
    let price_patterns := price_patterns expected_currency in
    match specific_pass (all_but_last2 price_patterns) html with
    | Some price => price
    | None => generic_pass (last2 price_patterns) html expected_currency
    end.
End Prices.

(** ** Image URLs of [_parse_amazon_html_enhanced] *)

(** [s.endswith(p)] *)
Definition endswith (p s : str) : bool := startswith (rev p) (rev s).

(** [x in l] for a list of strings. *)
Definition in_list (x : str) (l : list str) : bool := existsb (str_eqb x) l.

(** [list(dict.fromkeys(l))]: the first occurrence of each element, in
    order. *)
Fixpoint fromkeys (seen l : list str) : list str :=
  match l with
  | [] => []
  | x :: t => if in_list x seen then fromkeys seen t else x :: fromkeys (x :: seen) t
  end.

Definition unique (l : list str) : list str := fromkeys [] l.

(** The extension alternatives [jpg|jpeg|png|webp] of the image
    patterns, compiled with or without [re.IGNORECASE]. *)
Definition image_ext (lit : str -> regex) : regex :=
  Alt (Alt (Alt (lit (u "jpg")) (lit (u "jpeg"))) (lit (u "png"))) (lit (u "webp")).

(** The body of an image URL: text without double quote that has
    [amazon] and later a point and an image extension. *)
Definition amazon_image (lit : str -> regex) : regex :=
  Group (Seq [Star not_quote; lit (u "amazon"); Star not_quote;
              lit (u "."); image_ext lit; Star not_quote]).

(** The three patterns of [img_patterns], used with [re.IGNORECASE]. *)
Definition img_patterns : list regex :=
  [ Seq [Lit_i (u "data-old-hires="); quote; Group (Plus not_quote); quote];
    Seq [Lit_i (u "data-a-dynamic-image="); quote; Group (Plus not_quote); quote];
    Seq [Lit_i (u "src="); quote; amazon_image Lit_i; quote] ].

(** The pattern applied, case-sensitively, to a JSON-like attribute
    value: a quoted image URL. *)
Definition json_url_re : regex :=
  Seq [Chr (is_cp dquote); amazon_image Lit; Chr (is_cp dquote)].

Definition clean_url (m : str) : str :=
  py_replace (u "&#39;") (u "'") (py_replace (u "&quot;") [dquote] m).

(** The loop over the matches of one pattern: a non-empty match not yet
    in [image_urls] is appended, with its entities decoded. *)
Fixpoint collect_matches (image_urls matches : list str) : list str :=
  match matches with
  | [] => image_urls
  | m :: rest =>
      match m with
      | _ :: _ =>
          if in_list m image_urls
          then collect_matches image_urls rest
          else collect_matches (image_urls ++ [clean_url m]) rest
      | [] => collect_matches image_urls rest
      end
  end.

(** The body of the loop over the patterns. *)
Definition collect_step (html : str) (image_urls : list str) (pattern : regex)
    : list str :=
  collect_matches image_urls (Re.findall pattern html).

Definition raw_image_urls (html : str) : list str :=
  fold_left (collect_step html) img_patterns [].

(** One step of the cleaning loop: what a URL contributes to
    [cleaned_image_urls]. *)
Definition unwrap_url (url : str) : list str :=
  if startswith (u "{") url && endswith (u "}") url
  then Re.findall json_url_re url
  else [url].

Definition cleaned_image_urls (image_urls : list str) : list str :=
  flat_map unwrap_url (firstn 10 image_urls).

(** The [image_urls] field of the record that
    [_parse_amazon_html_enhanced] returns. *)
Definition enhanced_image_urls (html : str) : list str :=
  unique (cleaned_image_urls (raw_image_urls html)).

(** ** The fallback orchestrator: [get_product_info] *)

(** What a strategy returns: the product record without the two fields
    that the orchestrator adds. *)
Record product_data := {
  product_name : str;
  price : price_data;
  description : str;
  variants : list str;
  image_urls : list str
}.

Record product_record := {
  data : product_data;
  source_method : str;
  asin : str
}.

Inductive response : Type :=
| Product : product_record -> response
| InvalidInput : str -> list str -> response
    (* input_received, supported_formats; the error text is fixed *)
| AllFailed : str -> list str -> response.
    (* asin, tried_methods; error and suggestion texts are fixed *)

(** The outcome of awaiting one strategy: an exception, or the returned
    value ([None] or a record). *)
Inductive outcome : Type :=
| Raised : outcome
| Returned : option product_data -> outcome.

Section Orchestrator.
Variable U : unicode.

(** The outside world that the four fetch methods act on, and the
    methods themselves: they perform network requests, so each maps an
    identifier and a world to an outcome and a new world. *)
Variable World : Type.
Definition strategy : Type := str -> World -> outcome * World.

Variable fetch_with_rainforest_api : strategy.
Variable fetch_with_scraperapi : strategy.
Variable fetch_with_rapidapi : strategy.
Variable fetch_with_direct_amazon : str -> strategy.
  (* the first argument is [original_url] *)

Definition methods (input_data : str) : list (str * strategy) :=
  [ (u "rainforest_api", fetch_with_rainforest_api);
    (u "scraperapi", fetch_with_scraperapi);
    (u "rapidapi", fetch_with_rapidapi);
    (u "direct_amazon", fetch_with_direct_amazon input_data) ].

(** [result and result.get('product_name')] *)
Definition usable (o : outcome) : option product_data :=
  match o with
  | Returned (Some result) =>
      match product_name result with
      | [] => None
      | _ :: _ => Some result
      end
  | _ => None
  end.

(** The loop over the methods.  Besides the result it yields the world
    after the last request and the names of the methods that were
    called, in call order. *)
Fixpoint try_methods (ms : list (str * strategy)) (asin : str) (w : World)
    (called : list str) : option product_record * World * list str :=
  match ms with
  | [] => (None, w, called)
  | (method_name, method_func) :: rest =>
      let (o, w') := method_func asin w in
      match usable o with
      | Some result =>
          (Some {| data := result; source_method := method_name; asin := asin |},
           w', called ++ [method_name])
      | None => try_methods rest asin w' (called ++ [method_name])
      end
  end.

Definition supported_formats : list str :=
  [ u "https://www.amazon.com/dp/ASIN";
    u "https://www.amazon.com/gp/product/ASIN";
    u "ASIN (10-character product code)" ].

Definition get_product_info (input_data : str) (w : World)
    : response * World * list str :=
  match extract_asin U input_data with
  | Some ((_ :: _) as asin) =>
      let ms := methods input_data in
      match try_methods ms asin w [] with
      | (Some result, w', called) => (Product result, w', called)
      | (None, w', called) => (AllFailed asin (map fst ms), w', called)
      end
  | _ => (InvalidInput input_data supported_formats, w, [])
  end.
End Orchestrator.

(** ** Vocabulary of the statements *)

(** The symbol that goes with a currency code. *)
Definition symbol_of (code : str) : option str :=
  if str_eqb code (u "INR") then Some (u "₹")
  else if str_eqb code (u "USD") then Some (u "$")
  else if str_eqb code (u "GBP") then Some (u "£")
  else if str_eqb code (u "EUR") then Some (u "€")
  else if str_eqb code (u "CAD") then Some (u "C$")
  else if str_eqb code (u "AUD") then Some (u "A$")
  else None.

(** The invariant of a price record: both prices are the same text; with
    a currency they are its symbol followed by a non-empty value; without
    one all fields are empty. *)
Definition price_invariant (r : price_data) : Prop :=
  original r = discounted r /\
  (currency r <> [] ->
   exists symbol value,
     symbol_of (currency r) = Some symbol /\ value <> [] /\
     original r = symbol ++ value /\ discounted r = symbol ++ value) /\
  (currency r = [] -> r = empty_price).

(** The valid price that one pattern of the structured table finds: the
    group of its leftmost match, when it passes validation. *)
Definition search_valid (U : unicode) (p : pattern) (html : str) : option str :=
  match Re.search (pat_regex p) html with
  | Some m => if is_valid_price U (Re.m_group m) then Some (Re.m_group m) else None
  | None => None
  end.

(** The valid price that one pattern of the fallback table finds: of all
    its matches, in the order of the text, the first that passes the
    fallback validation. *)
Definition findall_valid (U : unicode) (p : pattern) (html : str) : option str :=
  find (is_valid_fallback_price U) (Re.findall (pat_regex p) html).

(** A pattern whose symbol is the one of its currency. *)
Definition consistent (p : pattern) : Prop :=
  symbol_of (pat_code p) = Some (pat_symbol p).

(** [s] starts with the literal text [m] up to the case folding of
    [re.IGNORECASE]. *)
Fixpoint startswith_i (m s : str) : bool :=
  match m, s with
  | [], _ => true
  | _ :: _, [] => false
  | a :: m', c :: s' => is_cp_i a c && startswith_i m' s'
  end.

(** The first [n] characters of [s] exist and are all in the class [p]. *)
Definition all_of (p : cp -> bool) (n : nat) (s : str) : bool :=
  forallb p (firstn n s) && (n <=? length s)%nat.

(** A pattern without capturing group. *)
Fixpoint groupless (r : regex) : bool :=
  match r with
  | Group _ => false
  | Cat r1 r2 | Alt r1 r2 => groupless r1 && groupless r2
  | Star r1 => groupless r1
  | _ => true
  end.

(** The names of the four strategies, in priority order. *)
Definition method_names : list str :=
  [ u "rainforest_api"; u "scraperapi"; u "rapidapi"; u "direct_amazon" ].

(** What the strategies of a list answer when each one is called on the
    world that the one before it left: name, outcome and world after. *)
Fixpoint run_all {World : Type} (ms : list (str * strategy World))
    (asin : str) (w : World) : list (str * outcome * World) :=
  match ms with
  | [] => []
  | (method_name, method_func) :: rest =>
      let (o, w') := method_func asin w in
      (method_name, o, w') :: run_all rest asin w'
  end.

Definition name_of {World : Type} (x : str * outcome * World) : str := fst (fst x).
Definition outcome_of {World : Type} (x : str * outcome * World) : outcome :=
  snd (fst x).

(** ** Sample data for the examples *)

Definition sample_product : product_data := {|
  product_name := u "Echo Dot";
  price := empty_price;
  description := [];
  variants := [];
  image_urls := []
|}.

Definition unnamed_product : product_data := {|
  product_name := [];
  price := empty_price;
  description := [];
  variants := [];
  image_urls := []
|}.

(** Sample strategies over a world that counts the requests made. *)
Definition raising : strategy nat := fun _ w => (Raised, S w).
Definition returning (r : option product_data) : strategy nat :=
  fun _ w => (Returned r, S w).


Definition numbered_url (n : str) : str :=
  u "https://m.media-amazon.com/images/I/" ++ n ++ u ".jpg".


(** A page with one [data-a-dynamic-image] attribute whose JSON-like
    value names twelve images. *)
Definition twelve_in_json : str :=
  u "<img data-a-dynamic-image=" ++ dquote :: u "{" ++
  flat_map (fun n => u "&quot;" ++ numbered_url n ++ u "&quot;:[1,1],")
    [u "01"; u "02"; u "03"; u "04"; u "05"; u "06"; u "07"; u "08"; u "09";
     u "10"; u "11"; u "12"]
  ++ u "}" ++ dquote :: u ">".

(** Replacing every run of white space by one space, as a function of
    the text; [in_run] tells that the character before was white
    space. *)
Fixpoint squeeze (U : unicode) (in_run : bool) (s : str) : str :=
  match s with
  | [] => []
  | c :: t =>
      if py_isspace U c
      then (if in_run then squeeze U true t else ch " " :: squeeze U true t)
      else c :: squeeze U false t
  end.

(** Every white space character is a space and no white space follows
    it. *)
Fixpoint loose (U : unicode) (t : str) : bool :=
  match t with
  | [] => true
  | c :: t' =>
      if py_isspace U c
      then (c =? ch " ")%N
           && match t' with [] => true | d :: _ => negb (py_isspace U d) end
           && loose U t'
      else loose U t'
  end.

(** The same, and the text does not end in white space. *)
Fixpoint tidy_tail (U : unicode) (t : str) : bool :=
  match t with
  | [] => true
  | c :: t' =>
      if py_isspace U c
      then (c =? ch " ")%N
           && match t' with [] => false | d :: _ => negb (py_isspace U d) end
           && tidy_tail U t'
      else tidy_tail U t'
  end.

(** White space normalised: single spaces between words, none at the
    ends. *)
Definition tidy (U : unicode) (t : str) : bool :=
  match t with
  | [] => true
  | c :: t' => negb (py_isspace U c) && tidy_tail U t'
  end.

(** The body of [_clean_description] after the test for an empty
    description. *)
Definition clean_steps (U : unicode) (description : str) : str :=
  let description := fold_left (remove_prefix U) prefixes_to_remove description in
  let description := Re.sub (spaces_re U) (u " ") description in
  let description := py_strip U description in
  let description := decode_entities description in
  let description := Re.sub tag_re [] description in
  let description := Re.sub (spaces_re U) (u " ") description in
  py_strip U description.

(** Upper case of an ASCII character. *)
Definition to_upper_ascii (c : cp) : cp :=
  if ascii_lower_letter c then (c - 32)%N else c.

(** Somewhere in [s] there are ten consecutive characters of the
    identifier class. *)
Fixpoint has_id_run (s : str) : bool :=
  all_of AZ09_i 10 s ||
  match s with
  | [] => false
  | _ :: t => has_id_run t
  end.

(** U+212A KELVIN SIGN, a capital letter whose lower case is [k]. *)
Definition kelvin_sign : cp := 8490%N.

(** ** The rate limiter of [backend_api.py]

    [rate_limiters] maps an API key to the deque of the times of its
    accepted requests; a key never seen has the empty deque.  Times are
    what [time.time()] returns: any type with the comparison [ltb] that
    the code uses; [window_start now] is [now - RATE_LIMIT_WINDOW]. *)
Section RateLimiter.
Variable T : Type.
Variable ltb : T -> T -> bool.
Variable window_start : T -> T.
Variable RATE_LIMIT : Z.

Definition limiters : Type := str -> list T.

Definition no_requests : limiters := fun _ => [].

Definition set_deque (st : limiters) (key : str) (dq : list T) : limiters :=
  fun k => if str_eqb k key then dq else st k.

(** [while dq and dq[0] < window_start: dq.popleft()] *)
Fixpoint prune (ws : T) (dq : list T) : list T :=
  match dq with
  | [] => []
  | t :: rest => if ltb t ws then prune ws rest else dq
  end.

(** One call at clock reading [now]: [false] stands for the 429
    exception, which is raised after the pruning. *)
Definition rate_limiter (x_api_key : str) (now : T) (st : limiters)
    : bool * limiters :=
  let dq := prune (window_start now) (st x_api_key) in
  if (RATE_LIMIT <=? Z.of_nat (length dq))%Z
  then (false, set_deque st x_api_key dq)
  else (true, set_deque st x_api_key (dq ++ [now])).

(** A sequence of calls, each with its key and clock reading; the log
    adds the verdict of each call. *)
Fixpoint serve (calls : list (str * T)) (st : limiters)
    : list (str * T * bool) * limiters :=
  match calls with
  | [] => ([], st)
  | (key, now) :: rest =>
      let (ok, st') := rate_limiter key now st in
      let (log, st'') := serve rest st' in
      ((key, now, ok) :: log, st'')
  end.

(** The accepted requests of [key] in a log that fall into the window
    of a request at [now]. *)
Definition in_window (key : str) (now : T) (entry : str * T * bool) : bool :=
  let '(k, t, ok) := entry in
  str_eqb k key && ok && negb (ltb t (window_start now)).

(** The times of the accepted requests of [key] in a log. *)
Fixpoint accepted_times (key : str) (log : list (str * T * bool)) : list T :=
  match log with
  | [] => []
  | (k, t, ok) :: rest =>
      if str_eqb k key && ok then t :: accepted_times key rest
      else accepted_times key rest
  end.
(** What the deques hold after the requests of a log: for every key the
    times of its accepted requests, except some that lay before the
    window of a request of the log. *)
Definition tracks (st : limiters) (past : list (str * T * bool)) : Prop :=
  forall k, exists dropped,
    accepted_times k past = dropped ++ st k /\
    forall d, In d dropped ->
      exists e, In e past /\ ltb d (window_start (snd (fst e))) = true.
End RateLimiter.

(** ** [_make_request_with_retry]

    One attempt is a request to the outside world that answers with a
    status and a body or raises; [MAX_RETRIES] and [RETRY_DELAY] come
    from the configuration.  The trace records the requests made and
    the sleeps between them. *)
Inductive retry_event : Type :=
| Requested : retry_event
| Slept : Z -> retry_event.

Section Retry.
Variable World : Type.
Variable request : World -> option (Z * str) * World.
Variable MAX_RETRIES : Z.
Variable RETRY_DELAY : Z.

(** The loop from iteration [attempt] on, with [remaining] iterations
    of [range(MAX_RETRIES)] left. *)
Fixpoint retry_loop (remaining : nat) (attempt : Z) (w : World)
    (trace : list retry_event) : option (Z * str) * World * list retry_event :=
  match remaining with
  | O => (None, w, trace)
  | S n =>
      let (r, w') := request w in
      match r with
      | Some response => (Some response, w', trace ++ [Requested])
      | None =>
          if (attempt <? MAX_RETRIES - 1)%Z
          then retry_loop n (attempt + 1) w'
                 (trace ++ [Requested; Slept (RETRY_DELAY * (attempt + 1))])
          else (None, w', trace ++ [Requested])
      end
  end.

Definition make_request_with_retry (w : World)
    : option (Z * str) * World * list retry_event :=
  retry_loop (Z.to_nat MAX_RETRIES) 0 w [].

(** What [n] requests in a row would answer, whether or not the loop
    makes them. *)
Fixpoint attempts (n : nat) (w : World) : list (option (Z * str)) :=
  match n with
  | O => []
  | S m => let (r, w') := request w in r :: attempts m w'
  end.
End Retry.

(** The first answer that is not an exception. *)
Fixpoint first_response (answers : list (option (Z * str))) : option (Z * str) :=
  match answers with
  | [] => None
  | Some r :: _ => Some r
  | None :: rest => first_response rest
  end.

(** The number of answers up to and including the first that is not an
    exception. *)
Fixpoint needed (answers : list (option (Z * str))) : nat :=
  match answers with
  | [] => O
  | Some _ :: _ => 1
  | None :: rest => S (needed rest)
  end.

Definition requests_made (trace : list retry_event) : nat :=
  length (filter (fun e => match e with Requested => true | _ => false end) trace).

Definition sleeps (trace : list retry_event) : list Z :=
  flat_map (fun e => match e with Slept d => [d] | _ => [] end) trace.

Definition total_sleep (trace : list retry_event) : Z :=
  fold_right Z.add 0%Z (sleeps trace).

(** ** [scrape_products_batch] of [simple_amazon_scraper.py] *)

(** A result dictionary of the simple scraper: its keys and values are
    strings. *)
Definition dict : Type := list (str * str).

(** [d.get(key, default)] *)
Fixpoint dict_get (d : dict) (key default : str) : str :=
  match d with
  | [] => default
  | (k, v) :: rest => if str_eqb k key then v else dict_get rest key default
  end.

(** What awaiting one task of [asyncio.gather(..., return_exceptions=True)]
    yields: the dictionary returned, or an exception with its text. *)
Inductive task_result : Type :=
| TaskReturned : dict -> task_result
| TaskRaised : str -> task_result.

(** The slices [urls[i:i + batch_size]] for [i] in
    [range(0, len(urls), batch_size)], for a positive batch size. *)
Fixpoint chunks (fuel batch_size : nat) (urls : list str) : list (list str) :=
  match fuel with
  | O => []
  | S f =>
      match urls with
      | [] => []
      | _ => firstn batch_size urls :: chunks f batch_size (skipn batch_size urls)
      end
  end.

(** The batches: [None] is the [ValueError] of [range] for a step of
    zero; a negative step gives an empty range. *)
Definition batches (batch_size : Z) (urls : list str) : option (list (list str)) :=
  if (batch_size =? 0)%Z then None
  else if (batch_size <? 0)%Z then Some []
  else Some (chunks (length urls) (Z.to_nat batch_size) urls).

(** The handling of one gathered result. *)
Definition batch_entry (url : str) (r : task_result) : dict :=
  match r with
  | TaskRaised text =>
      [ (u "url", url); (u "error", text); (u "status", u "error") ]
  | TaskReturned d => d
  end.

Section Batch.
(** [task i url] is what the task for the [i]-th URL of the whole list
    ends with. *)
Variable task : nat -> str -> task_result.

Fixpoint batch_results (first : nat) (batch : list str) : list dict :=
  match batch with
  | [] => []
  | url :: rest => batch_entry url (task first url) :: batch_results (S first) rest
  end.

Fixpoint all_batches (first : nat) (bs : list (list str)) : list dict :=
  match bs with
  | [] => []
  | batch :: rest =>
      batch_results first batch ++ all_batches (first + length batch) rest
  end.

Definition scrape_products_batch (urls : list str) (batch_size : Z)
    : option (list dict) :=
  match batches batch_size urls with
  | None => None
  | Some bs => Some (all_batches 0 bs)
  end.
End Batch.

(** ** The page that [fetch_with_direct_amazon] requests

    [original_url] is [None] when the argument is left out; an empty
    string counts as left out. *)
Definition direct_url (asin : str) (original_url : option str) : str :=
  match original_url with
  | Some ((_ :: _) as url) =>
      u "https://www." ++ get_amazon_domain url ++ u "/dp/" ++ asin
  | _ => u "https://www.amazon.com/dp/" ++ asin
  end.

(** The markers of the first six URL patterns of [extract_asin]. *)
Definition url_markers : list str :=
  [ u "/dp/"; u "/gp/product/"; u "/ASIN/"; u "/product/"; u "/d/"; u "asin=" ].

(** The marketplaces that [get_amazon_domain] knows. *)
Definition amazon_domains : list str :=
  [ u "amazon.in"; u "amazon.co.uk"; u "amazon.ca"; u "amazon.de";
    u "amazon.fr"; u "amazon.it"; u "amazon.es"; u "amazon.com.au";
    u "amazon.com.br"; u "amazon.co.jp"; u "amazon.com" ].

(** ** Name and description of [_parse_amazon_html_enhanced] *)

(** [r*?] with at most [n] repetitions: what follows is tried before
    another repetition.  With [n] the length of the text this is the
    lazy star. *)
Fixpoint lazy_star (n : nat) (r : regex) : regex :=
  match n with
  | O => Eps
  | S m => Alt Eps (Cat r (lazy_star m r))
  end.

(** [.] under [re.DOTALL] *)
Definition any_char : regex := Chr (fun _ => true).

(** An opening tag with an [id] attribute in double quotes: the tag
    name, anything but the closing bracket, the attribute, and again
    anything up to the closing bracket. *)
Definition tag_with_id (name value : str) : regex :=
  Seq [Lit_i (u "<" ++ name); Star not_gt;
       Lit_i (u "id=" ++ [dquote] ++ value ++ [dquote]);
       Star not_gt; Chr (is_cp_i (ch ">"))].

(** An opening [div] tag whose [class] attribute contains [name]. *)
Definition div_with_class (name : str) : regex :=
  Seq [Lit_i (u "<div"); Star not_gt; Lit_i (u "class="); quote;
       Star not_quote; Lit_i name; Star not_quote; quote;
       Star not_gt; Chr (is_cp_i (ch ">"))].

Section Enhanced.
Variable U : unicode.

(** The patterns are compiled with [re.DOTALL] and [re.IGNORECASE];
    [n] is the length of the text they are applied to. *)
Definition title_patterns (n : nat) : list regex :=
  [ Seq [tag_with_id (u "span") (u "productTitle");
         Group (lazy_star n any_char); Lit_i (u "</span>")];
    Seq [tag_with_id (u "h1") (u "title");
         Group (lazy_star n any_char); Lit_i (u "</h1>")];
    Seq [Lit_i (u "<title"); Star not_gt; Chr (is_cp_i (ch ">"));
         Group (lazy_star n any_char); Lit_i (u "</title>")] ].

Fixpoint title_loop (patterns : list regex) (html : str) : str :=
  match patterns with
  | [] => []
  | pattern :: rest =>
      match Re.search pattern html with
      | Some m =>
          let product_name := py_strip U (Re.sub tag_re [] (Re.m_group m)) in
          py_replace (u "&amp;") (u "&") (py_replace (u "&#39;") (u "'") product_name)
      | None => title_loop rest html
      end
  end.

Definition enhanced_product_name (html : str) : str :=
  title_loop (title_patterns (length html)) html.

Definition desc_patterns (n : nat) : list regex :=
  [ Seq [tag_with_id (u "div") (u "feature-bullets");
         Group (lazy_star n any_char); Lit_i (u "</div>")];
    Seq [tag_with_id (u "div") (u "productDescription");
         Group (lazy_star n any_char); Lit_i (u "</div>")];
    Seq [div_with_class (u "a-expander-content");
         Group (lazy_star n any_char); Lit_i (u "</div>")];
    Seq [div_with_class (u "a-section"); lazy_star n any_char;
         Lit_i (u "About this item"); lazy_star n any_char;
         Group (lazy_star n any_char); Lit_i (u "</div>")];
    Seq [span_with_class (u "a-list-item");
         Group (lazy_star n any_char); Lit_i (u "</span>")];
    Seq [div_with_class (u "a-spacing-base");
         Group (lazy_star n any_char); Lit_i (u "</div>")] ].

(** The description that a match gives. *)
Definition description_of (m : Re.found) : str :=
  clean_description U (py_strip U (Re.sub tag_re [] (Re.m_group m))).

(** The loop over the patterns; [description] is the variable of that
    name, which keeps the text of the last match when the loop is not
    left early. *)
Fixpoint description_loop (patterns : list regex) (html description : str) : str :=
  match patterns with
  | [] => description
  | pattern :: rest =>
      match Re.search pattern html with
      | Some m =>
          let description := description_of m in
          if (20 <? length description)%nat then description
          else description_loop rest html description
      | None => description_loop rest html description
      end
  end.

Definition enhanced_description (html : str) : str :=
  description_loop (desc_patterns (length html)) html [].

End Enhanced.

(** The closing tags of the three title patterns, in their order. *)
Definition title_closing_tags : list str :=
  [ u "</span>"; u "</h1>"; u "</title>" ].

(** The text [s] has [group] in it, followed by the closing tag [c] in
    any letter case, and [c] starts nowhere earlier from the start of
    [group] on. *)
Definition cut_at_first (c s group : str) : Prop :=
  exists before after,
    s = before ++ group ++ after /\
    startswith_i c after = true /\
    forall j, (j < length group)%nat ->
              startswith_i c (skipn j (group ++ after)) = false.

(** No complete tag: after every opening bracket the text ends, or a
    closing bracket follows at once, or no closing bracket follows at
    all. *)
Fixpoint tagless (s : str) : bool :=
  match s with
  | [] => true
  | c :: t =>
      (negb (c =? ch "<")%N
       || match t with
          | [] => true
          | d :: _ =>
              (d =? ch ">")%N || negb (existsb (fun x => (x =? ch ">")%N) t)
          end)
      && tagless t
  end.

(** ** [simple_amazon_scraper.py] *)

Module Simple.

(** The currency signs as the file spells them: the UTF-8 bytes of the
    rupee, pound and euro signs read as Windows-1252 text, that is
    U+00E2 U+201A U+00B9, U+00C2 U+00A3 and U+00E2 U+201A U+00AC. *)
Definition rupee : str := [226; 8218; 185]%N.
Definition pound : str := [194; 163]%N.
Definition euro : str := [226; 8218; 172]%N.

(** [self.currency_symbols] *)
Definition currency_symbols : list (str * str) :=
  [ (u "INR", rupee); (u "USD", u "$"); (u "GBP", pound);
    (u "EUR", euro); (u "CAD", u "C$"); (u "AUD", u "A$") ].

Definition get_domain_currency (url : str) : str :=
  if contains (u "amazon.in") url then u "INR"
  else if contains (u "amazon.com") url then u "USD"
  else if contains (u "amazon.co.uk") url then u "GBP"
  else if contains (u "amazon.de") url then u "EUR"
  else if contains (u "amazon.ca") url then u "CAD"
  else if contains (u "amazon.com.au") url then u "AUD"
  else u "USD".

(** *** [extract_asin]: the patterns are used as they are written,
    without [re.IGNORECASE]. *)
Definition asin_group : regex := Group (rep_exact 10 (Chr ascii_AZ09)).

Definition asin_markers : list str :=
  [ u "/dp/"; u "/gp/product/"; u "/product/" ].

Definition asin_patterns : list regex :=
  map (fun marker => Cat (Lit marker) asin_group) asin_markers.

Fixpoint first_group (patterns : list regex) (url : str) : option str :=
  match patterns with
  | [] => None
  | pattern :: rest =>
      match Re.search pattern url with
      | Some m => Some (Re.m_group m)
      | None => first_group rest url
      end
  end.

Definition extract_asin (url : str) : option str :=
  first_group asin_patterns url.

(** *** Prices *)

(** A literal of a pattern compiled with [re.IGNORECASE], for the
    characters of this file's patterns: beyond what [fold_case] knows,
    U+00C2 and U+00E2 are the two cases of one letter. *)
Definition fold_case_l (c : cp) : cp :=
  if (c =? 194)%N then 226%N else fold_case c.

Definition is_cp_l (a : cp) : cp -> bool :=
  fun c => (fold_case_l c =? fold_case_l a)%N.

Fixpoint Lit_l (s : str) : regex :=
  match s with
  | [] => Eps
  | c :: t => Cat (Chr (is_cp_l c)) (Lit_l t)
  end.

Record price_result := mk_result { price : str; currency : str }.

Definition no_result : price_result := mk_result [] [].

Section Prices.
Variable U : unicode.

Definition price_patterns : list (str * list regex) :=
  [ (u "INR",
     [ Seq [Lit_l rupee; grouped_number U];
       Seq [Lit_l (u "Rs"); Opt point; Star (ws U); grouped_number U];
       Seq [Lit_l (u "INR"); Star (ws U); grouped_number U] ]);
    (u "USD",
     [ Seq [Lit_l (u "$"); decimal_number U];
       Seq [Lit_l (u "USD"); Star (ws U); decimal_number U] ]);
    (u "GBP",
     [ Seq [Lit_l pound; decimal_number U];
       Seq [Lit_l (u "GBP"); Star (ws U); decimal_number U] ]);
    (u "EUR",
     [ Seq [Lit_l euro; decimal_number U];
       Seq [Lit_l (u "EUR"); Star (ws U); decimal_number U] ]);
    (u "CAD",
     [ Seq [Lit_l (u "C$"); Star (ws U); decimal_number U];
       Seq [Lit_l (u "CAD"); Star (ws U); decimal_number U] ]);
    (u "AUD",
     [ Seq [Lit_l (u "A$"); Star (ws U); decimal_number U];
       Seq [Lit_l (u "AUD"); Star (ws U); decimal_number U] ]) ].

(** [self.price_patterns[code]], [None] for a key that is not there. *)
Fixpoint patterns_of (table : list (str * list regex)) (code : str)
    : option (list regex) :=
  match table with
  | [] => None
  | (k, ps) :: rest => if str_eqb k code then Some ps else patterns_of rest code
  end.

Definition is_valid_price (price_str : str) : bool :=
  match price_str with
  | [] => false
  | _ =>
      match numeric_price_of U price_str with
      | Some price =>
          PyFloat.leb float_0_01 price && PyFloat.leb price (PyFloat.of_Z 1000000)
      | None => false
      end
  end.

Definition one_or_more_not_lt : regex := Group (Plus (Chr (not_cp (ch "<")))).

Definition product_price_patterns : list regex :=
  [ Seq [span_with_class (u "a-price-whole"); grouped_number U; Lit_i (u "</span>")];
    Seq [span_with_class (u "a-offscreen"); one_or_more_not_lt; Lit_i (u "</span>")];
    Seq [span_with_class (u "a-price"); one_or_more_not_lt; Lit_i (u "</span>")] ].

(** The chain of [if ... in match or expected_currency == ...]; [None]
    when no branch is taken and the loop goes on. *)
Definition by_match (m expected_currency clean_match : str) : option price_result :=
  if contains rupee m || str_eqb expected_currency (u "INR")
  then Some (mk_result (rupee ++ clean_match) (u "INR"))
  else if contains (u "$") m || str_eqb expected_currency (u "USD")
  then Some (mk_result (u "$" ++ clean_match) (u "USD"))
  else if contains pound m || str_eqb expected_currency (u "GBP")
  then Some (mk_result (pound ++ clean_match) (u "GBP"))
  else if contains euro m || str_eqb expected_currency (u "EUR")
  then Some (mk_result (euro ++ clean_match) (u "EUR"))
  else if contains (u "C$") m || str_eqb expected_currency (u "CAD")
  then Some (mk_result (u "C$" ++ clean_match) (u "CAD"))
  else if contains (u "A$") m || str_eqb expected_currency (u "AUD")
  then Some (mk_result (u "A$" ++ clean_match) (u "AUD"))
  else None.

Fixpoint product_matches (matches : list str) (expected_currency : str)
    : option price_result :=
  match matches with
  | [] => None
  | m :: rest =>
      let clean_match := clean_price_of U m in
      if is_valid_price clean_match
      then
        match by_match m expected_currency clean_match with
        | Some result => Some result
        | None => product_matches rest expected_currency
        end
      else product_matches rest expected_currency
  end.

Fixpoint product_pass (patterns : list regex) (html expected_currency : str)
    : option price_result :=
  match patterns with
  | [] => None
  | pattern :: rest =>
      match product_matches (Re.findall pattern html) expected_currency with
      | Some result => Some result
      | None => product_pass rest html expected_currency
      end
  end.

Definition exclude_patterns : list regex :=
  [ Seq [Lit_l (u "Under " ++ rupee); Plus (digit U)];
    Seq [Lit_l (u "Over " ++ rupee); Plus (digit U)];
    Seq [Lit_l (u "Under $"); Plus (digit U)];
    Seq [Lit_l (u "Over $"); Plus (digit U)];
    Seq [Lit_l (u "Under " ++ pound); Plus (digit U)];
    Seq [Lit_l (u "Over " ++ pound); Plus (digit U)];
    Lit_l (u "search-alias=");
    Lit_l (u "filter=");
    Lit_l (u "price-range=") ].

Definition cleaned_html (html : str) : str :=
  fold_left (fun cleaned exclude_pattern => Re.sub exclude_pattern [] cleaned)
            exclude_patterns html.

Fixpoint currency_matches (code : str) (matches : list str) : option price_result :=
  match matches with
  | [] => None
  | m :: rest =>
      if is_valid_price m
      then Some (mk_result (dict_get currency_symbols code [] ++ m) code)
      else currency_matches code rest
  end.

Fixpoint currency_pass (code : str) (patterns : list regex) (html : str)
    : option price_result :=
  match patterns with
  | [] => None
  | pattern :: rest =>
      match currency_matches code (Re.findall pattern html) with
      | Some result => Some result
      | None => currency_pass code rest html
      end
  end.

Fixpoint all_currencies (table : list (str * list regex)) (html : str)
    : option price_result :=
  match table with
  | [] => None
  | (code, patterns) :: rest =>
      match currency_pass code patterns html with
      | Some result => Some result
      | None => all_currencies rest html
      end
  end.

Definition extract_price_from_html (html expected_currency : str) : price_result :=
  match product_pass product_price_patterns html expected_currency with
  | Some result => result
  | None =>
      let cleaned := cleaned_html html in
      let expected :=
        match patterns_of price_patterns expected_currency with
        | Some patterns => currency_pass expected_currency patterns cleaned
        | None => None
        end in
      match expected with
      | Some result => result
      | None =>
          match all_currencies price_patterns cleaned with
          | Some result => result
          | None => no_result
          end
      end
  end.

(** *** [extract_product_name] *)

(** The three title patterns for a text of length [n]; they are compiled
    with [re.DOTALL] and [re.IGNORECASE]. *)
Definition title_patterns (n : nat) : list regex :=
  [ Seq [tag_with_id (u "span") (u "productTitle");
         Group (lazy_star n any_char); Lit_i (u "</span>")];
    Seq [tag_with_id (u "h1") (u "title");
         Group (lazy_star n any_char); Lit_i (u "</h1>")];
    Seq [Lit_i (u "<title"); Star not_gt; Chr (is_cp_i (ch ">"));
         Group (lazy_star n any_char); Lit_i (u "</title>")] ].

Definition clean_name (group : str) : str :=
  let name := py_strip U (Re.sub tag_re [] group) in
  py_replace (u "&amp;") (u "&") (py_replace (u "&#39;") (u "'") name).

Fixpoint first_name (patterns : list regex) (html : str) : option str :=
  match patterns with
  | [] => None
  | pattern :: rest =>
      match Re.search pattern html with
      | Some m => Some (firstn 200 (clean_name (Re.m_group m)))
      | None => first_name rest html
      end
  end.

Definition extract_product_name (html : str) : str :=
  match first_name (title_patterns (length html)) html with
  | Some name => name
  | None => u "Product name not found"
  end.
End Prices.

(** *** [extract_description_from_html] after the selection

    [selected] has, for each selector in the order of the list, the
    texts of the elements that it selects, each as
    [get_text(strip=True)] gives it. *)
Section Description.
Variable U : unicode.

(** The loop over the elements of one selector. *)
Fixpoint take_parts (texts description_parts : list str) : list str :=
  match texts with
  | [] => description_parts
  | text :: rest =>
      if (10 <? length text)%nat
      then
        let description_parts := description_parts ++ [text] in
        if (5 <=? length description_parts)%nat then description_parts
        else take_parts rest description_parts
      else take_parts rest description_parts
  end.

(** The loop over the selectors: the first one that gives a part ends
    it. *)
Fixpoint select_parts (selected : list (list str)) : list str :=
  match selected with
  | [] => []
  | texts :: rest =>
      match take_parts texts [] with
      | [] => select_parts rest
      | description_parts => description_parts
      end
  end.

Fixpoint clean_parts (description_parts cleaned_parts : list str) : list str :=
  match description_parts with
  | [] => cleaned_parts
  | part :: rest =>
      let cleaned := py_strip U (Re.sub (spaces_re U) (u " ") part) in
      if (10 <? length cleaned)%nat && negb (in_list cleaned cleaned_parts)
      then clean_parts rest (cleaned_parts ++ [cleaned])
      else clean_parts rest cleaned_parts
  end.

(** [sep.join(parts)] *)
Fixpoint join (sep : str) (parts : list str) : str :=
  match parts with
  | [] => []
  | [part] => part
  | part :: rest => part ++ sep ++ join sep rest
  end.

Definition combine (description_parts : list str) : str :=
  match clean_parts description_parts [] with
  | [] => u "Description not available"
  | cleaned_parts =>
      let final_desc := join (u " | ") (firstn 3 cleaned_parts) in
      if (500 <? length final_desc)%nat
      then firstn 497 final_desc ++ u "..."
      else final_desc
  end.

Definition extract_description_from_html (selected : list (list str)) : str :=
  combine (select_parts selected).
End Description.

(** *** The summary of [save_to_excel] *)

(** [result.get('status') == 'success']; a result without status is not
    a success. *)
Definition is_success (result : dict) : bool :=
  str_eqb (dict_get result (u "status") []) (u "success").

(** [currencies[currency] = currencies.get(currency, 0) + 1] *)
Fixpoint count_currency (currencies : list (str * nat)) (currency : str)
    : list (str * nat) :=
  match currencies with
  | [] => [(currency, 1%nat)]
  | (k, count) :: rest =>
      if str_eqb k currency then (k, S count) :: rest
      else (k, count) :: count_currency rest currency
  end.

Fixpoint currency_distribution (results : list dict) (currencies : list (str * nat))
    : list (str * nat) :=
  match results with
  | [] => currencies
  | result :: rest =>
      if is_success result
      then currency_distribution rest
             (count_currency currencies (dict_get result (u "currency") (u "Unknown")))
      else currency_distribution rest currencies
  end.

Record summary := {
  total : nat;
  successful : nat;
  failed : nat;
  currencies : list (str * nat)
}.

(** What is printed after the file is written; [None] is the
    [ZeroDivisionError] of the success rate. *)
Definition save_to_excel (results : list dict) : option summary :=
  let successful := length (filter is_success results) in
  let total := length results in
  match total with
  | O => None
  | S _ =>
      Some {| total := total; successful := successful;
              failed := total - successful;
              currencies := currency_distribution results [] |}
  end.

(** A result with a price: a code of the table, its sign and a number
    that [_is_valid_price] accepts. *)
Definition priced_result (U : unicode) (r : price_result) : Prop :=
  exists code symbol value,
    In (code, symbol) currency_symbols /\
    r = mk_result (symbol ++ value) code /\
    is_valid_price U value = true.
End Simple.

(** * Properties *)

(** ** Strings and the matcher *)

Lemma startswith_app (p s : str) : startswith p (p ++ s) = true.
Proof.
  induction p as [|a p IH]; simpl; [reflexivity|].
  now rewrite N.eqb_refl, IH.
Qed.

Lemma startswith_split (p s : str) :
  startswith p s = true -> exists t, s = p ++ t.
Proof.
  revert s; induction p as [|a p IH]; intros s H.
  - now exists s.
  - destruct s as [|b s]; simpl in H; [discriminate|].
    apply andb_true_iff in H as [Hab Hp].
    apply N.eqb_eq in Hab; subst b.
    destruct (IH _ Hp) as [t ->]. now exists t.
Qed.

Lemma startswith_prefix (p q s : str) :
  startswith (p ++ q) s = true -> startswith p s = true.
Proof.
  revert s; induction p as [|a p IH]; intros s H; [reflexivity|].
  destruct s as [|b s]; simpl in *; [discriminate|].
  apply andb_true_iff in H as [Hab Hp].
  now rewrite Hab, (IH _ Hp).
Qed.

Lemma contains_prefix (p q s : str) :
  contains (p ++ q) s = true -> contains p s = true.
Proof.
  induction s as [|c s IH]; simpl; intros H.
  - apply orb_true_iff in H as [H|H]; [|discriminate].
    now rewrite (startswith_prefix p q [] H).
  - apply orb_true_iff in H as [H|H].
    + now rewrite (startswith_prefix p q _ H).
    + rewrite (IH H). apply orb_true_r.
Qed.

Lemma contains_unfold (p s : str) :
  contains p s =
  startswith p s || match s with [] => false | _ :: s' => contains p s' end.
Proof. destruct s; reflexivity. Qed.

Lemma contains_iff (p s : str) :
  contains p s = true <-> exists a b, s = a ++ p ++ b.
Proof.
  split.
  - induction s as [|c s IH]; simpl; intros H.
    + apply orb_true_iff in H as [H|H]; [|discriminate].
      destruct (startswith_split _ _ H) as [t ->]. now exists [], t.
    + apply orb_true_iff in H as [H|H].
      * destruct (startswith_split _ _ H) as [t ->]. now exists [], t.
      * destruct (IH H) as (a & b & ->). now exists (c :: a), b.
  - intros (a & b & ->). induction a as [|c a IH]; simpl.
    + rewrite contains_unfold, startswith_app. reflexivity.
    + rewrite IH. apply orb_true_r.
Qed.

Lemma str_eqb_eq (a b : str) : str_eqb a b = true <-> a = b.
Proof.
  unfold str_eqb. destruct (list_eq_dec N.eq_dec a b); split; congruence.
Qed.

Lemma str_eqb_refl (a : str) : str_eqb a a = true.
Proof. now apply str_eqb_eq. Qed.




(** ** The content validity classifier *)




(** The examples of the specification: one marker is not enough, two
    are, and a challenge phrase overrides them. *)
Example classifier_examples :
  has_real_product_data caseless (u "<span id=productTitle>") = false /\
  has_real_product_data caseless (u "<span id=productTitle> <div id=feature-bullets>") = true /\
  has_real_product_data caseless (u "productTitle feature-bullets Enter the CAPTCHA") = false.
Proof. repeat split; vm_compute; reflexivity. Qed.

(** ** Marketplace and expected currency *)

Lemma expected_currency_in (url : str) :
  contains (u "amazon.in") url = true -> expected_currency_of url = u "INR".
Proof. unfold expected_currency_of. now intros ->. Qed.

Lemma expected_currency_co_uk (url : str) :
  contains (u "amazon.in") url = false ->
  contains (u "amazon.com") url = false ->
  contains (u "amazon.co.uk") url = true ->
  expected_currency_of url = u "GBP".
Proof. unfold expected_currency_of. now intros -> -> ->. Qed.

Lemma get_amazon_domain_in (input_data : str) :
  contains (u "amazon.in") input_data = true ->
  get_amazon_domain input_data = u "amazon.in".
Proof. unfold get_amazon_domain. now intros ->. Qed.

Lemma get_amazon_domain_default (input_data : str) :
  (forall d, In d [u "amazon.in"; u "amazon.co.uk"; u "amazon.ca"; u "amazon.de";
                   u "amazon.fr"; u "amazon.it"; u "amazon.es"; u "amazon.com.au";
                   u "amazon.com.br"; u "amazon.co.jp"] ->
             contains d input_data = false) ->
  get_amazon_domain input_data = u "amazon.com".
Proof.
  intros H. unfold get_amazon_domain.
  repeat (rewrite H; [|simpl; tauto]). reflexivity.
Qed.

(** C3.  The expected currency is never AUD: a URL that has
    [amazon.com.au] has [amazon.com], which is tested first and gives
    USD, while [get_amazon_domain] does tell the Australian
    marketplace. *)
Theorem expected_currency_never_AUD :
  (forall url, expected_currency_of url <> u "AUD") /\
  expected_currency_of (u "https://www.amazon.com.au/dp/B08N5WRWNW") = u "USD" /\
  get_amazon_domain (u "https://www.amazon.com.au/dp/B08N5WRWNW") = u "amazon.com.au".
Proof.
  split; [|split; vm_compute; reflexivity].
  intros url. unfold expected_currency_of.
  destruct (contains (u "amazon.in") url); [vm_compute; discriminate|].
  destruct (contains (u "amazon.com") url) eqn:Hcom; [vm_compute; discriminate|].
  destruct (contains (u "amazon.co.uk") url); [vm_compute; discriminate|].
  destruct (contains (u "amazon.de") url); [vm_compute; discriminate|].
  destruct (contains (u "amazon.ca") url); [vm_compute; discriminate|].
  destruct (contains (u "amazon.com.au") url) eqn:Hau; [|vm_compute; discriminate].
  change (u "amazon.com.au") with (u "amazon.com" ++ u ".au") in Hau.
  apply contains_prefix in Hau. congruence.
Qed.

(** ** Price validation *)




(** Rounding to binary64 decides at the boundaries: twenty nines after
    the point are the number 1. *)
Example float_rounding_examples :
  py_float caseless (u "0.1") = Some (PyFloat.Fin 7205759403792794 (-56)) /\
  py_float caseless (u "0.99999999999999999999") = Some (PyFloat.Fin 9007199254740992 (-53)) /\
  is_valid_price caseless (u "0.99999999999999999999") = true /\
  is_valid_price caseless (u "5") = false /\
  is_valid_price caseless (u "2,499") = true /\
  is_valid_fallback_price caseless (u "0.01") = true /\
  is_valid_fallback_price caseless (u "1.2.3") = false.
Proof. repeat split; vm_compute; reflexivity. Qed.

(** ** Price records *)

Lemma priced_invariant (symbol value code : str) :
  symbol_of code = Some symbol -> value <> [] ->
  price_invariant (priced symbol value code).
Proof.
  intros Hs Hv. unfold price_invariant, priced; simpl.
  split; [reflexivity|]. split.
  - intros _. now exists symbol, value.
  - intros ->. discriminate.
Qed.

Lemma empty_invariant : price_invariant empty_price.
Proof.
  unfold price_invariant; simpl. split; [reflexivity|].
  split; [congruence | reflexivity].
Qed.

Lemma by_expected_invariant (expected value : str) :
  value <> [] -> price_invariant (by_expected expected value).
Proof.
  intros Hv. unfold by_expected.
  repeat (destruct (str_eqb expected _);
          [now apply priced_invariant|]).
  apply empty_invariant.
Qed.

Lemma by_context_invariant (context value : str) :
  value <> [] -> price_invariant (by_context context value).
Proof.
  intros Hv. unfold by_context.
  repeat (destruct (_ || _); [now apply priced_invariant|]).
  now apply priced_invariant.
Qed.

Lemma valid_nonempty (U : unicode) (v : str) :
  is_valid_price U v = true -> v <> [].
Proof. now destruct v. Qed.

Lemma valid_fallback_nonempty (U : unicode) (v : str) :
  is_valid_fallback_price U v = true -> v <> [].
Proof. now destruct v. Qed.

Lemma search_valid_nonempty (U : unicode) (p : pattern) (html v : str) :
  search_valid U p html = Some v -> v <> [].
Proof.
  unfold search_valid. destruct (Re.search _ _) as [m|]; [|discriminate].
  destruct (is_valid_price U _) eqn:E; [|discriminate].
  intros [= <-]. exact (valid_nonempty _ _ E).
Qed.

(** The first pass, pattern by pattern. *)
Lemma specific_pass_cons (U : unicode) (p : pattern) (rest : list pattern)
    (html : str) :
  specific_pass U (p :: rest) html =
  match search_valid U p html with
  | Some v => Some (priced (pat_symbol p) v (pat_code p))
  | None => specific_pass U rest html
  end.
Proof.
  unfold search_valid. cbn [specific_pass].
  destruct (Re.search _ _) as [m|]; [|reflexivity].
  now destruct (is_valid_price U _).
Qed.

Lemma specific_pass_first (U : unicode) (html : str) (pre : list pattern) :
  forall p post v,
  (forall q, In q pre -> search_valid U q html = None) ->
  search_valid U p html = Some v ->
  specific_pass U (pre ++ p :: post) html =
    Some (priced (pat_symbol p) v (pat_code p)).
Proof.
  induction pre as [|q pre IH]; intros p post v Hpre Hp.
  - simpl app. now rewrite specific_pass_cons, Hp.
  - simpl app. rewrite specific_pass_cons, (Hpre q) by now left.
    apply IH; [|exact Hp]. intros q' Hq'. apply Hpre. now right.
Qed.

Lemma specific_pass_none (U : unicode) (html : str) (pats : list pattern) :
  (forall q, In q pats -> search_valid U q html = None) ->
  specific_pass U pats html = None.
Proof.
  induction pats as [|q pats IH]; intros H; [reflexivity|].
  rewrite specific_pass_cons, (H q) by now left.
  apply IH. intros q' Hq'. apply H. now right.
Qed.

Lemma specific_pass_some (U : unicode) (html : str) (pats : list pattern) :
  forall r, specific_pass U pats html = Some r ->
  exists pre p post v,
    pats = pre ++ p :: post /\
    (forall q, In q pre -> search_valid U q html = None) /\
    search_valid U p html = Some v /\
    r = priced (pat_symbol p) v (pat_code p).
Proof.
  induction pats as [|q pats IH]; intros r H; [discriminate|].
  rewrite specific_pass_cons in H.
  destruct (search_valid U q html) as [v|] eqn:E.
  - injection H as <-. exists [], q, pats, v. repeat split; trivial.
    intros ? [].
  - destruct (IH _ H) as (pre & p & post & v & -> & Hpre & Hp & ->).
    exists (q :: pre), p, post, v. repeat split; trivial.
    intros q' [<-|Hq']; [exact E | now apply Hpre].
Qed.

Lemma generic_pass_invariant (U : unicode) (html expected : str)
    (pats : list pattern) :
  price_invariant (generic_pass U pats html expected).
Proof.
  induction pats as [|p pats IH]; [apply empty_invariant|].
  cbn [generic_pass]. destruct (Re.search _ _) as [m|]; [|exact IH].
  destruct (is_valid_price U _) eqn:E; [|exact IH].
  apply valid_nonempty in E.
  destruct expected; [now apply by_context_invariant
                     | now apply by_expected_invariant].
Qed.

Lemma generic_pass_none (U : unicode) (html expected : str)
    (pats : list pattern) :
  (forall q, In q pats -> search_valid U q html = None) ->
  generic_pass U pats html expected = empty_price.
Proof.
  induction pats as [|p pats IH]; intros H; [reflexivity|].
  cbn [generic_pass]. pose proof (H p (or_introl eq_refl)) as Hp.
  unfold search_valid in Hp.
  destruct (Re.search _ _) as [m|].
  - destruct (is_valid_price U _); [discriminate|].
    apply IH. intros q Hq. apply H. now right.
  - apply IH. intros q Hq. apply H. now right.
Qed.

(** The two parts of the structured table. *)
Lemma specific_part_INR (U : unicode) :
  all_but_last2 (price_patterns U (u "INR")) =
  inr_patterns U ++ gbp_patterns U ++ usd_patterns U ++ eur_patterns U
    ++ cad_patterns U ++ aud_patterns U.
Proof. reflexivity. Qed.

Lemma specific_part_other (U : unicode) (expected : str) :
  expected <> u "INR" ->
  all_but_last2 (price_patterns U expected) =
  gbp_patterns U ++ usd_patterns U ++ eur_patterns U ++ cad_patterns U
    ++ aud_patterns U ++ inr_patterns U.
Proof.
  intros H. unfold price_patterns.
  destruct (str_eqb expected (u "INR")) eqn:E; [|reflexivity].
  now apply str_eqb_eq in E.
Qed.

Lemma generic_part (U : unicode) (expected : str) :
  last2 (price_patterns U expected) = generic_patterns U.
Proof. unfold price_patterns. now destruct (str_eqb expected _). Qed.

Lemma table_parts (U : unicode) (expected : str) :
  price_patterns U expected =
  all_but_last2 (price_patterns U expected) ++ last2 (price_patterns U expected).
Proof. unfold all_but_last2, last2. symmetry. apply firstn_skipn. Qed.

Lemma specific_consistent (U : unicode) (expected : str) :
  Forall consistent (all_but_last2 (price_patterns U expected)).
Proof.
  unfold price_patterns.
  destruct (str_eqb expected _); repeat constructor.
Qed.

Lemma fallback_consistent (U : unicode) :
  Forall (fun p => pat_code p = [] \/ (pat_code p <> [] /\ consistent p))
         (fallback_patterns U).
Proof.
  unfold fallback_patterns, fallback_specific, gbp_patterns, usd_patterns,
    eur_patterns, cad_patterns, aud_patterns, inr_patterns; cbn [app].
  repeat (apply Forall_cons;
          [first [left; reflexivity
                 | right; split; [vm_compute; discriminate | reflexivity]]|]).
  apply Forall_nil.
Qed.

Lemma fallback_matches_invariant (U : unicode) (symbol code expected : str)
    (matches : list str) :
  code = [] \/ (code <> [] /\ symbol_of code = Some symbol) ->
  forall r, fallback_matches U symbol code expected matches = Some r ->
  price_invariant r.
Proof.
  intros Hc. induction matches as [|v rest IH]; intros r H; [discriminate|].
  cbn [fallback_matches] in H.
  destruct (is_valid_fallback_price U v) eqn:E; [|now apply IH].
  apply valid_fallback_nonempty in E.
  destruct code as [|c code].
  - destruct expected; [now apply IH|].
    injection H as <-. now apply by_expected_invariant.
  - injection H as <-. destruct Hc as [|[_ Hs]]; [discriminate|].
    now apply priced_invariant.
Qed.

Lemma fallback_matches_none (U : unicode) (symbol code expected : str)
    (matches : list str) :
  (forall v, In v matches -> is_valid_fallback_price U v = false) ->
  fallback_matches U symbol code expected matches = None.
Proof.
  induction matches as [|v rest IH]; intros H; [reflexivity|].
  cbn [fallback_matches]. rewrite (H v) by now left.
  apply IH. intros v' Hv'. apply H. now right.
Qed.

Lemma fallback_loop_invariant (U : unicode) (html expected : str)
    (pats : list pattern) :
  Forall (fun p => pat_code p = [] \/ (pat_code p <> [] /\ consistent p)) pats ->
  price_invariant (fallback_loop U pats html expected).
Proof.
  induction 1 as [|p pats Hp _ IH]; [apply empty_invariant|].
  cbn [fallback_loop].
  destruct (fallback_matches U _ _ _ _) as [r|] eqn:E; [|exact IH].
  exact (fallback_matches_invariant _ _ _ _ _ Hp _ E).
Qed.

Lemma fallback_loop_none (U : unicode) (html expected : str)
    (pats : list pattern) :
  (forall p v, In p pats -> In v (Re.findall (pat_regex p) html) ->
               is_valid_fallback_price U v = false) ->
  fallback_loop U pats html expected = empty_price.
Proof.
  induction pats as [|p pats IH]; intros H; [reflexivity|].
  cbn [fallback_loop]. rewrite fallback_matches_none.
  - apply IH. intros q v Hq. apply H. now right.
  - intros v. apply H. now left.
Qed.

(** C7.  Every price record of the extractor, on the structured path and
    on the fallback path, has equal original and discounted prices; with
    a currency both are its symbol followed by a non-empty value; without
    one it is the empty record, and so it is when nothing validates. *)
Theorem price_record_invariant (U : unicode) (html original_url expected : str) :
  price_invariant (extract_price_with_currency U html original_url) /\
  price_invariant (extract_fallback_price U html expected) /\
  (has_real_product_data U html = true ->
   (forall p, In p (price_patterns U (expected_currency_of original_url)) ->
              search_valid U p html = None) ->
   extract_price_with_currency U html original_url = empty_price) /\
  ((forall p v, In p (fallback_patterns U) ->
                In v (Re.findall (pat_regex p) html) ->
                is_valid_fallback_price U v = false) ->
   extract_fallback_price U html expected = empty_price /\
   (has_real_product_data U html = false ->
    extract_price_with_currency U html original_url = empty_price)).
Proof.
  assert (Hfb : forall e, price_invariant (extract_fallback_price U html e)).
  { intros e. apply fallback_loop_invariant, fallback_consistent. }
  split; [|split; [apply Hfb|split]].
  - unfold extract_price_with_currency.
    destruct (has_real_product_data U html); cbn [negb]; [|apply Hfb].
    destruct (specific_pass U _ html) as [r|] eqn:E.
    + destruct (specific_pass_some _ _ _ _ E)
        as (pre & p & post & v & Ht & _ & Hv & ->).
      apply priced_invariant; [|exact (search_valid_nonempty _ _ _ _ Hv)].
      pose proof (specific_consistent U (expected_currency_of original_url)) as Hc.
      rewrite Ht in Hc. apply Forall_app in Hc as [_ Hc].
      now inversion Hc.
    + apply generic_pass_invariant.
  - intros Hreal Hnone. unfold extract_price_with_currency.
    rewrite Hreal; cbn [negb]. rewrite (table_parts U _) in Hnone.
    rewrite specific_pass_none.
    + apply generic_pass_none. intros q Hq. apply Hnone, in_or_app. now right.
    + intros q Hq. apply Hnone, in_or_app. now left.
  - intros Hnone. split.
    + now apply fallback_loop_none.
    + intros Hreal. unfold extract_price_with_currency.
      rewrite Hreal; cbn [negb]. now apply fallback_loop_none.
Qed.

(** ** Bare numbers in the fallback extraction *)

Lemma fallback_loop_skip (U : unicode) (html expected : str)
    (pre rest : list pattern) :
  (forall p v, In p pre -> In v (Re.findall (pat_regex p) html) ->
               is_valid_fallback_price U v = false) ->
  fallback_loop U (pre ++ rest) html expected = fallback_loop U rest html expected.
Proof.
  induction pre as [|p pre IH]; intros H; [reflexivity|].
  simpl app. cbn [fallback_loop]. rewrite fallback_matches_none.
  - apply IH. intros q v Hq. apply H. now right.
  - intros v. apply H. now left.
Qed.

Lemma fallback_matches_no_hint (U : unicode) (symbol : str) (matches : list str) :
  fallback_matches U symbol [] [] matches = None.
Proof.
  induction matches as [|v rest IH]; [reflexivity|].
  cbn [fallback_matches]. now destruct (is_valid_fallback_price U v).
Qed.

Lemma fallback_matches_hint (U : unicode) (symbol expected : str)
    (matches : list str) :
  expected <> [] ->
  fallback_matches U symbol [] expected matches =
  option_map (by_expected expected) (find (is_valid_fallback_price U) matches).
Proof.
  intros He. induction matches as [|v rest IH]; [reflexivity|].
  cbn [fallback_matches find].
  destruct (is_valid_fallback_price U v); [|exact IH].
  now destruct expected.
Qed.

(** C10.  When no currency-specific pattern has a valid match, fallback
    extraction without an expected currency returns the empty record,
    whatever bare numbers the text has; with an expected currency the
    first valid bare number is priced in it. *)
Theorem bare_number_needs_hint (U : unicode) (html : str) :
  (forall p v, In p (fallback_specific U) ->
               In v (Re.findall (pat_regex p) html) ->
               is_valid_fallback_price U v = false) ->
  extract_fallback_price U html [] = empty_price /\
  (forall original_url,
     expected_currency_of original_url = [] ->
     has_real_product_data U html = false ->
     extract_price_with_currency U html original_url = empty_price) /\
  (forall expected v,
     expected <> [] ->
     find (is_valid_fallback_price U) (Re.findall (bare_number U) html) = Some v ->
     extract_fallback_price U html expected = by_expected expected v).
Proof.
  intros Hspec.
  assert (Hempty : extract_fallback_price U html [] = empty_price).
  { unfold extract_fallback_price, fallback_patterns.
    rewrite fallback_loop_skip by exact Hspec.
    cbn [fallback_loop pat_symbol pat_code fst snd].
    now rewrite fallback_matches_no_hint. }
  split; [exact Hempty|]. split.
  - intros url Hurl Hreal. unfold extract_price_with_currency.
    now rewrite Hreal, Hurl.
  - intros expected v He Hv.
    unfold extract_fallback_price, fallback_patterns.
    rewrite fallback_loop_skip by exact Hspec.
    cbn [fallback_loop pat_symbol pat_code pat_regex fst snd].
    now rewrite fallback_matches_hint, Hv by exact He.
Qed.

Lemma bare_number_needs_hint_witness :
  extract_fallback_price caseless (u "only 1234 here") [] = empty_price /\
  extract_price_with_currency caseless (u "only 1234 here") (u "B08N5WRWNW")
    = empty_price /\
  extract_fallback_price caseless (u "only 1234 here") (u "USD")
    = priced (u "$") (u "1234") (u "USD").
Proof.
  assert (H : forall p v, In p (fallback_specific caseless) ->
                In v (Re.findall (pat_regex p) (u "only 1234 here")) ->
                is_valid_fallback_price caseless v = false).
  { intros p v Hp Hv.
    repeat (destruct Hp as [<-|Hp]; [vm_compute in Hv; contradiction|]).
    contradiction. }
  destruct (bare_number_needs_hint caseless (u "only 1234 here") H)
    as (H1 & H2 & H3).
  split; [exact H1|]. split.
  - apply H2; reflexivity.
  - apply (H3 (u "USD") (u "1234")); [discriminate | reflexivity].
Defined.

(** ** The order of the currency patterns *)

Lemma specific_pass_skip (U : unicode) (html : str) (pre rest : list pattern) :
  (forall q, In q pre -> search_valid U q html = None) ->
  specific_pass U (pre ++ rest) html = specific_pass U rest html.
Proof.
  induction pre as [|q pre IH]; intros H; [reflexivity|].
  simpl app. rewrite specific_pass_cons, (H q) by now left.
  apply IH. intros q' Hq'. apply H. now right.
Qed.

Lemma specific_pass_in_prefix (U : unicode) (html : str)
    (pre rest : list pattern) :
  (exists p, In p pre /\ search_valid U p html <> None) ->
  exists q v, In q pre /\
    specific_pass U (pre ++ rest) html = Some (priced (pat_symbol q) v (pat_code q)).
Proof.
  induction pre as [|q pre IH]; intros (p & Hp & Hv); [contradiction|].
  simpl app. rewrite specific_pass_cons.
  destruct (search_valid U q html) as [v|] eqn:E.
  - exists q, v. split; [now left | reflexivity].
  - destruct Hp as [<-|Hp]; [congruence|].
    destruct IH as (q' & v' & Hq' & Hs); [now exists p|].
    exists q', v'. split; [now right | exact Hs].
Qed.

Lemma extract_structured (U : unicode) (html original_url : str) (r : price_data) :
  has_real_product_data U html = true ->
  specific_pass U (all_but_last2 (price_patterns U (expected_currency_of original_url)))
    html = Some r ->
  extract_price_with_currency U html original_url = r.
Proof.
  intros Hreal Hs. unfold extract_price_with_currency.
  now rewrite Hreal, Hs.
Qed.

(** The fallback loop, pattern by pattern. *)
Lemma fallback_matches_specific (U : unicode) (symbol code expected : str)
    (matches : list str) :
  code <> [] ->
  fallback_matches U symbol code expected matches =
  option_map (fun v => priced symbol v code)
             (find (is_valid_fallback_price U) matches).
Proof.
  intros Hc. induction matches as [|v rest IH]; [reflexivity|].
  cbn [fallback_matches find].
  destruct (is_valid_fallback_price U v); [|exact IH].
  now destruct code.
Qed.

Lemma fallback_loop_cons (U : unicode) (p : pattern) (rest : list pattern)
    (html expected : str) :
  pat_code p <> [] ->
  fallback_loop U (p :: rest) html expected =
  match findall_valid U p html with
  | Some v => priced (pat_symbol p) v (pat_code p)
  | None => fallback_loop U rest html expected
  end.
Proof.
  intros Hc. cbn [fallback_loop]. unfold findall_valid.
  rewrite fallback_matches_specific by exact Hc.
  now destruct (find _ _).
Qed.

Lemma findall_valid_none (U : unicode) (p : pattern) (html : str) :
  findall_valid U p html = None ->
  forall v, In v (Re.findall (pat_regex p) html) ->
            is_valid_fallback_price U v = false.
Proof. intros H v Hv. exact (find_none _ _ H v Hv). Qed.

Lemma fallback_loop_first (U : unicode) (html expected : str)
    (pre : list pattern) :
  forall p post v,
  pat_code p <> [] ->
  (forall q, In q pre -> findall_valid U q html = None) ->
  findall_valid U p html = Some v ->
  fallback_loop U (pre ++ p :: post) html expected =
    priced (pat_symbol p) v (pat_code p).
Proof.
  intros p post v Hc Hpre Hp.
  rewrite fallback_loop_skip.
  - now rewrite fallback_loop_cons, Hp.
  - intros q w Hq. apply findall_valid_none. now apply Hpre.
Qed.

Lemma fallback_loop_in_prefix (U : unicode) (html expected : str)
    (pre rest : list pattern) :
  (forall q, In q pre -> pat_code q <> []) ->
  (exists p, In p pre /\ findall_valid U p html <> None) ->
  exists q v, In q pre /\
    fallback_loop U (pre ++ rest) html expected =
      priced (pat_symbol q) v (pat_code q).
Proof.
  induction pre as [|q pre IH]; intros Hc (p & Hp & Hv); [contradiction|].
  simpl app. rewrite fallback_loop_cons by (apply Hc; now left).
  destruct (findall_valid U q html) as [v|] eqn:E.
  - exists q, v. split; [now left | reflexivity].
  - destruct Hp as [<-|Hp]; [congruence|].
    destruct IH as (q' & v' & Hq' & Hs);
      [intros q' Hq'; apply Hc; now right | now exists p|].
    exists q', v'. split; [now right | exact Hs].
Qed.

Lemma fallback_specific_coded (U : unicode) :
  forall p, In p (fallback_specific U) -> pat_code p <> [].
Proof.
  intros p Hp.
  repeat (destruct Hp as [<-|Hp]; [vm_compute; discriminate|]).
  contradiction.
Qed.

Lemma extract_unstructured (U : unicode) (html original_url : str) :
  has_real_product_data U html = false ->
  extract_price_with_currency U html original_url =
  fallback_loop U (fallback_specific U ++ [(bare_number U, [], [])]) html
    (expected_currency_of original_url).
Proof.
  intros Hreal. unfold extract_price_with_currency. now rewrite Hreal.
Qed.

(** C2.  The table of currency patterns of the structured extraction has
    the rupee patterns first exactly when the expected currency is INR,
    and pound patterns first and rupee patterns last otherwise; the
    table of the fallback extraction has the pound patterns first and
    the rupee patterns last whatever currency is expected.  On a page
    classified as a product page the first pattern of the structured
    table whose leftmost match is valid gives the result; so a valid
    rupee match gives INR when INR is expected, and otherwise a valid
    pound match gives GBP and, failing that, a valid dollar match gives
    USD.  On any other page the first pattern of the fallback table that
    has a valid match gives the result, with the first valid one of all
    its matches; so a valid pound match gives GBP also when INR is
    expected, failing that a valid dollar match gives USD, and a valid
    rupee match gives INR only when no pattern of another currency has a
    valid match. *)
Theorem first_valid_specific_wins (U : unicode) (html original_url : str) :
  let expected := expected_currency_of original_url in
  let table := all_but_last2 (price_patterns U expected) in
  let result := extract_price_with_currency U html original_url in
  map pat_code table =
    (if str_eqb expected (u "INR")
     then [u "INR"; u "INR"; u "INR"; u "GBP"; u "GBP"; u "USD"; u "USD";
           u "EUR"; u "EUR"; u "CAD"; u "CAD"; u "AUD"; u "AUD"]
     else [u "GBP"; u "GBP"; u "USD"; u "USD"; u "EUR"; u "EUR"; u "CAD";
           u "CAD"; u "AUD"; u "AUD"; u "INR"; u "INR"; u "INR"]) /\
  map pat_code (fallback_patterns U) =
    [u "GBP"; u "GBP"; u "USD"; u "USD"; u "EUR"; u "EUR"; u "CAD";
     u "CAD"; u "AUD"; u "AUD"; u "INR"; u "INR"; u "INR"; []] /\
  (has_real_product_data U html = true ->
   (forall pre p post v,
      table = pre ++ p :: post ->
      (forall q, In q pre -> search_valid U q html = None) ->
      search_valid U p html = Some v ->
      result = priced (pat_symbol p) v (pat_code p)) /\
   (expected = u "INR" ->
    (exists p, In p (inr_patterns U) /\ search_valid U p html <> None) ->
    currency result = u "INR") /\
   (expected <> u "INR" ->
    (exists p, In p (gbp_patterns U) /\ search_valid U p html <> None) ->
    currency result = u "GBP") /\
   (expected <> u "INR" ->
    (forall p, In p (gbp_patterns U) -> search_valid U p html = None) ->
    (exists p, In p (usd_patterns U) /\ search_valid U p html <> None) ->
    currency result = u "USD")) /\
  (has_real_product_data U html = false ->
   (forall pre p post v,
      fallback_specific U = pre ++ p :: post ->
      (forall q, In q pre -> findall_valid U q html = None) ->
      findall_valid U p html = Some v ->
      result = priced (pat_symbol p) v (pat_code p)) /\
   ((exists p, In p (gbp_patterns U) /\ findall_valid U p html <> None) ->
    currency result = u "GBP") /\
   ((forall p, In p (gbp_patterns U) -> findall_valid U p html = None) ->
    (exists p, In p (usd_patterns U) /\ findall_valid U p html <> None) ->
    currency result = u "USD") /\
   ((forall p, In p (gbp_patterns U ++ usd_patterns U ++ eur_patterns U
                       ++ cad_patterns U ++ aud_patterns U) ->
               findall_valid U p html = None) ->
    (exists p, In p (inr_patterns U) /\ findall_valid U p html <> None) ->
    currency result = u "INR")).
Proof.
  intros expected table result. subst result table expected.
  split; [|split; [reflexivity|split]].
  - unfold price_patterns.
    destruct (str_eqb (expected_currency_of original_url) (u "INR")); reflexivity.
  - intros Hreal. split; [|split; [|split]].
    + intros pre p post v Ht Hpre Hp.
      apply extract_structured; [exact Hreal|].
      rewrite Ht. now apply specific_pass_first.
    + intros He Hex.
      destruct (specific_pass_in_prefix U html (inr_patterns U)
                  (gbp_patterns U ++ usd_patterns U ++ eur_patterns U
                     ++ cad_patterns U ++ aud_patterns U) Hex)
        as (q & v & Hq & Hs).
      rewrite (extract_structured U html original_url
                 (priced (pat_symbol q) v (pat_code q)) Hreal).
      * repeat (destruct Hq as [<-|Hq]; [reflexivity|]). contradiction.
      * rewrite He, specific_part_INR. exact Hs.
    + intros He Hex.
      destruct (specific_pass_in_prefix U html (gbp_patterns U)
                  (usd_patterns U ++ eur_patterns U ++ cad_patterns U
                     ++ aud_patterns U ++ inr_patterns U) Hex)
        as (q & v & Hq & Hs).
      rewrite (extract_structured U html original_url
                 (priced (pat_symbol q) v (pat_code q)) Hreal).
      * repeat (destruct Hq as [<-|Hq]; [reflexivity|]). contradiction.
      * rewrite specific_part_other by exact He. exact Hs.
    + intros He Hgbp Hex.
      destruct (specific_pass_in_prefix U html (usd_patterns U)
                  (eur_patterns U ++ cad_patterns U
                     ++ aud_patterns U ++ inr_patterns U) Hex)
        as (q & v & Hq & Hs).
      rewrite (extract_structured U html original_url
                 (priced (pat_symbol q) v (pat_code q)) Hreal).
      * repeat (destruct Hq as [<-|Hq]; [reflexivity|]). contradiction.
      * rewrite specific_part_other by exact He.
        rewrite specific_pass_skip by exact Hgbp. exact Hs.
  - intros Hreal. rewrite (extract_unstructured U html original_url Hreal).
    assert (Hcoded : forall l,
              (forall q, In q l -> In q (fallback_specific U)) ->
              forall q, In q l -> pat_code q <> []).
    { intros l Hl q Hq. apply (fallback_specific_coded U). now apply Hl. }
    assert (Hgbp : forall q, In q (gbp_patterns U) -> In q (fallback_specific U))
      by (intros q Hq; unfold fallback_specific; rewrite !in_app_iff; tauto).
    assert (Husd : forall q, In q (usd_patterns U) -> In q (fallback_specific U))
      by (intros q Hq; unfold fallback_specific; rewrite !in_app_iff; tauto).
    assert (Hinr : forall q, In q (inr_patterns U) -> In q (fallback_specific U))
      by (intros q Hq; unfold fallback_specific; rewrite !in_app_iff; tauto).
    assert (Hnone : forall l, (forall q, In q l -> findall_valid U q html = None) ->
              forall q v, In q l -> In v (Re.findall (pat_regex q) html) ->
                          is_valid_fallback_price U v = false).
    { intros l Hl q v Hq. apply findall_valid_none. now apply Hl. }
    split; [|split; [|split]].
    + intros pre p post v Ht Hpre Hp.
      rewrite Ht, <- app_assoc. cbn [app].
      apply fallback_loop_first; [|exact Hpre|exact Hp].
      apply (fallback_specific_coded U). rewrite Ht.
      apply in_or_app. right. now left.
    + intros Hex. unfold fallback_specific. rewrite <- app_assoc.
      destruct (fallback_loop_in_prefix U html
                  (expected_currency_of original_url) (gbp_patterns U)
                  ((usd_patterns U ++ eur_patterns U ++ cad_patterns U
                     ++ aud_patterns U ++ inr_patterns U)
                     ++ [(bare_number U, [], [])])
                  (Hcoded _ Hgbp) Hex)
        as (q & v & Hq & ->).
      repeat (destruct Hq as [<-|Hq]; [reflexivity|]). contradiction.
    + intros Hno Hex. unfold fallback_specific. rewrite <- app_assoc.
      rewrite fallback_loop_skip by exact (Hnone _ Hno).
      rewrite <- app_assoc.
      destruct (fallback_loop_in_prefix U html
                  (expected_currency_of original_url) (usd_patterns U)
                  ((eur_patterns U ++ cad_patterns U
                     ++ aud_patterns U ++ inr_patterns U)
                     ++ [(bare_number U, [], [])])
                  (Hcoded _ Husd) Hex)
        as (q & v & Hq & ->).
      repeat (destruct Hq as [<-|Hq]; [reflexivity|]). contradiction.
    + intros Hother Hex.
      replace (fallback_specific U ++ [(bare_number U, [], [])])
        with ((gbp_patterns U ++ usd_patterns U ++ eur_patterns U
                 ++ cad_patterns U ++ aud_patterns U)
                ++ inr_patterns U ++ [(bare_number U, [], [])])
        by reflexivity.
      rewrite fallback_loop_skip by exact (Hnone _ Hother).
      destruct (fallback_loop_in_prefix U html
                  (expected_currency_of original_url) (inr_patterns U)
                  [(bare_number U, [], [])]
                  (Hcoded _ Hinr) Hex)
        as (q & v & Hq & ->).
      repeat (destruct Hq as [<-|Hq]; [reflexivity|]). contradiction.
Qed.

Lemma first_valid_specific_wins_witness :
  has_real_product_data caseless (u "productTitle a-price ₹2,499 and £20.00") = true /\
  currency (extract_price_with_currency caseless
              (u "productTitle a-price ₹2,499 and £20.00")
              (u "https://www.amazon.in/dp/B08N5WRWNW")) = u "INR" /\
  currency (extract_price_with_currency caseless
              (u "productTitle a-price ₹2,499 and £20.00")
              (u "https://www.amazon.co.uk/dp/B08N5WRWNW")) = u "GBP" /\
  has_real_product_data caseless (u "₹2,499 and £0.50, £20.00") = false /\
  extract_price_with_currency caseless (u "₹2,499 and £0.50, £20.00")
    (u "https://www.amazon.in/dp/B08N5WRWNW")
    = priced (u "£") (u "0.50") (u "GBP") /\
  currency (extract_price_with_currency caseless (u "₹2,499 and $20.00")
              (u "https://www.amazon.in/dp/B08N5WRWNW")) = u "USD" /\
  currency (extract_price_with_currency caseless (u "now ₹2,499 only")
              (u "https://www.amazon.co.uk/dp/B08N5WRWNW")) = u "INR".
Proof.
  assert (Hreal : has_real_product_data caseless
                    (u "productTitle a-price ₹2,499 and £20.00") = true)
    by (vm_compute; reflexivity).
  split; [exact Hreal|]. split; [|split; [|split; [|split; [|split]]]].
  - destruct (first_valid_specific_wins caseless
                (u "productTitle a-price ₹2,499 and £20.00")
                (u "https://www.amazon.in/dp/B08N5WRWNW"))
      as (_ & _ & H & _).
    destruct (H Hreal) as (_ & H1 & _).
    apply H1; [reflexivity|].
    eexists. split; [left; reflexivity | vm_compute; discriminate].
  - destruct (first_valid_specific_wins caseless
                (u "productTitle a-price ₹2,499 and £20.00")
                (u "https://www.amazon.co.uk/dp/B08N5WRWNW"))
      as (_ & _ & H & _).
    destruct (H Hreal) as (_ & _ & H1 & _).
    apply H1; [vm_compute; discriminate|].
    eexists. split; [left; reflexivity | vm_compute; discriminate].
  - vm_compute; reflexivity.
  - destruct (first_valid_specific_wins caseless
                (u "₹2,499 and £0.50, £20.00")
                (u "https://www.amazon.in/dp/B08N5WRWNW"))
      as (_ & _ & _ & H).
    destruct (H eq_refl) as (H1 & _).
    apply (H1 [] (Seq [Lit_i (u "£"); decimal_number caseless], u "£", u "GBP")
              (tl (fallback_specific caseless)) (u "0.50")).
    + reflexivity.
    + intros q [].
    + vm_compute; reflexivity.
  - destruct (first_valid_specific_wins caseless
                (u "₹2,499 and $20.00")
                (u "https://www.amazon.in/dp/B08N5WRWNW"))
      as (_ & _ & _ & H).
    destruct (H eq_refl) as (_ & _ & H1 & _).
    apply H1.
    + intros p Hp.
      repeat (destruct Hp as [<-|Hp]; [vm_compute; reflexivity|]).
      contradiction.
    + eexists. split; [left; reflexivity | vm_compute; discriminate].
  - destruct (first_valid_specific_wins caseless
                (u "now ₹2,499 only")
                (u "https://www.amazon.co.uk/dp/B08N5WRWNW"))
      as (_ & _ & _ & H).
    destruct (H eq_refl) as (_ & _ & _ & H1).
    apply H1.
    + intros p Hp.
      repeat (destruct Hp as [<-|Hp]; [vm_compute; reflexivity|]).
      contradiction.
    + eexists. split; [left; reflexivity | vm_compute; discriminate].
Defined.

(** On a page that is not classified as a product page the fallback
    table is used, which has the pound patterns first whatever currency
    is expected: a rupee price and a pound price with INR expected give
    GBP. *)
Lemma fallback_path_prefers_pound :
  expected_currency_of (u "https://www.amazon.in/dp/B08N5WRWNW") = u "INR" /\
  (exists p, In p (inr_patterns caseless) /\
     search_valid caseless p (u "₹2,499 and £20.00") = Some (u "2,499")) /\
  (exists p, In p (gbp_patterns caseless) /\
     search_valid caseless p (u "₹2,499 and £20.00") = Some (u "20.00")) /\
  extract_price_with_currency caseless (u "₹2,499 and £20.00")
    (u "https://www.amazon.in/dp/B08N5WRWNW") = priced (u "£") (u "20.00") (u "GBP").
Proof.
  split; [reflexivity|]. split; [|split].
  - eexists. split; [left; reflexivity | vm_compute; reflexivity].
  - eexists. split; [left; reflexivity | vm_compute; reflexivity].
  - vm_compute. reflexivity.
Qed.

(** ** Equations of the matcher *)

Lemma run_rep_exact_chr {A : Type} (p : cp -> bool) (n : nat) :
  forall i s g (k : Re.cont A),
  Re.run (rep_exact n (Chr p)) i s g k =
  if all_of p n s then k (n + i)%nat (skipn n s) g else None.
Proof.
  unfold all_of. induction n as [|n IH]; intros i s g k; [reflexivity|].
  cbn [rep_exact Re.run]. destruct s as [|c t]; [reflexivity|].
  cbn [firstn forallb skipn length]. destruct (p c); [|reflexivity].
  rewrite IH. cbn [andb]. change (S n <=? S (length t))%nat with (n <=? length t)%nat.
  now rewrite Nat.add_succ_r.
Qed.

Lemma run_lit_i {A : Type} (m : str) :
  forall i s g (k : Re.cont A),
  Re.run (Lit_i m) i s g k =
  if startswith_i m s then k (length m + i)%nat (skipn (length m) s) g else None.
Proof.
  induction m as [|a m IH]; intros i s g k; [reflexivity|].
  cbn [Lit_i Re.run]. destruct s as [|c t]; [reflexivity|].
  cbn [startswith_i skipn length]. destruct (is_cp_i a c); [|reflexivity].
  rewrite IH. cbn [andb]. now rewrite Nat.add_succ_r.
Qed.

Lemma all_of_spec (p : cp -> bool) (n : nat) (s : str) :
  all_of p n s = true ->
  length (firstn n s) = n /\ forallb p (firstn n s) = true /\
  (length s - length (skipn n s) = n)%nat.
Proof.
  unfold all_of. intros H. apply andb_true_iff in H as [Hall Hlen].
  apply Nat.leb_le in Hlen. rewrite length_firstn, length_skipn.
  repeat split; [lia | exact Hall | lia].
Qed.

Lemma star_loop_groupless {A : Type}
    (body : nat -> str -> str -> Re.cont A -> option A) :
  (forall i s g k a, body i s g k = Some a -> exists i' s', k i' s' g = Some a) ->
  forall fuel i s g k a,
  Re.star_loop body fuel i s g k = Some a -> exists i' s', k i' s' g = Some a.
Proof.
  intros Hbody. induction fuel as [|f IH]; intros i s g k a H.
  - now exists i, s.
  - cbn [Re.star_loop] in H.
    destruct (body i s g _) as [a'|] eqn:E.
    + injection H as ->. apply Hbody in E as (i' & s' & E).
      destruct (length s' <? length s)%nat; [|discriminate].
      now apply IH in E.
    + now exists i, s.
Qed.

(** A pattern without group leaves the group as it found it. *)
Lemma run_groupless {A : Type} (r : regex) :
  groupless r = true ->
  forall i s g (k : Re.cont A) a,
  Re.run r i s g k = Some a -> exists i' s', k i' s' g = Some a.
Proof.
  induction r as [|p|r1 IH1 r2 IH2|r1 IH1 r2 IH2|r1 IH1|r1 IH1| |];
    cbn [groupless]; intros Hg i s g k a H; cbn [Re.run] in H.
  - now exists i, s.
  - destruct s as [|c t]; [discriminate|].
    destruct (p c); [|discriminate]. now exists (S i), t.
  - apply andb_true_iff in Hg as [H1 H2].
    apply (IH1 H1) in H as (i1 & s1 & H). now apply (IH2 H2) in H.
  - apply andb_true_iff in Hg as [H1 H2].
    destruct (Re.run r1 i s g k) as [a'|] eqn:E.
    + injection H as ->. now apply (IH1 H1) in E.
    + now apply (IH2 H2) in H.
  - apply (star_loop_groupless (Re.run r1)) in H; [exact H|].
    intros. now apply (IH1 Hg) in H0.
  - discriminate.
  - destruct i; [|discriminate]. now exists 0%nat, s.
  - destruct s as [|c [|d t]]; try discriminate.
    + now exists i, [].
    + destruct (c =? 10)%N; [|discriminate]. now exists i, [c].
Qed.

Lemma search_from_found (r : regex) (s : str) :
  forall i f, Re.search_from r i s = Some f ->
  exists j t, Re.at_pos r j t = Some f.
Proof.
  induction s as [|c t IH]; intros i f H; cbn [Re.search_from] in H.
  - destruct (Re.at_pos r i []) eqn:E; [|discriminate].
    injection H as ->. now exists i, [].
  - destruct (Re.at_pos r i (c :: t)) eqn:E.
    + injection H as ->. now exists i, (c :: t).
    + now apply IH in H.
Qed.

(** ** The identifier extractor *)

(** The group of a match of [marker] followed by the identifier group
    and a tail without group: ten characters of the identifier class. *)
Lemma asin_group_found (marker : str) (tail : regex) (i : nat) (s : str)
    (f : Re.found) :
  groupless tail = true ->
  Re.at_pos (Cat (Lit_i marker) (Cat asin_group tail)) i s = Some f ->
  length (Re.m_group f) = 10%nat /\ forallb AZ09_i (Re.m_group f) = true.
Proof.
  intros Hg H. unfold Re.at_pos in H. cbn [Re.run] in H.
  rewrite run_lit_i in H. destruct (startswith_i marker s); [|discriminate].
  unfold asin_group in H. cbn [Re.run] in H. rewrite run_rep_exact_chr in H.
  destruct (all_of AZ09_i 10 (skipn (length marker) s)) eqn:E; [|discriminate].
  apply all_of_spec in E as (Hlen & Hall & Hdiff).
  remember (skipn 10 (skipn (length marker) s)) as s1 eqn:Es1.
  apply (run_groupless tail Hg) in H as (i' & s' & H).
  injection H as <-. cbn [Re.m_group]. rewrite Hdiff. now split.
Qed.

Lemma asin_group_found_last (marker : str) (i : nat) (s : str) (f : Re.found) :
  Re.at_pos (Cat (Lit_i marker) asin_group) i s = Some f ->
  length (Re.m_group f) = 10%nat /\ forallb AZ09_i (Re.m_group f) = true.
Proof.
  intros H. unfold Re.at_pos in H. cbn [Re.run] in H.
  rewrite run_lit_i in H. destruct (startswith_i marker s); [|discriminate].
  unfold asin_group in H. cbn [Re.run] in H. rewrite run_rep_exact_chr in H.
  destruct (all_of AZ09_i 10 (skipn (length marker) s)) eqn:E; [|discriminate].
  apply all_of_spec in E as (Hlen & Hall & Hdiff).
  remember (skipn 10 (skipn (length marker) s)) as s1 eqn:Es1.
  injection H as <-. cbn [Re.m_group]. rewrite Hdiff. now split.
Qed.

(** Every URL pattern captures ten characters of the identifier class. *)
Lemma asin_patterns_group (U : unicode) (input_data r : str) :
  first_asin_match U asin_patterns input_data = Some r ->
  exists g, length g = 10%nat /\ forallb AZ09_i g = true /\ r = py_upper U g.
Proof.
  unfold asin_patterns. cbn [first_asin_match Seq].
  repeat
    (match goal with
     | |- context [Re.search ?p input_data] =>
         let E := fresh "E" in
         destruct (Re.search p input_data) as [f|] eqn:E;
         [ intros [= <-]; exists (Re.m_group f);
           apply search_from_found in E as (j & t & E);
           first [apply asin_group_found_last in E
                 | apply asin_group_found in E; [|reflexivity]];
           now destruct E
         | ]
     end).
  discriminate.
Qed.

Ltac cases_N :=
  repeat match goal with
    | |- context [(?a <=? ?b)%N] => destruct (N.leb_spec a b)
    | |- context [(?a <? ?b)%N] => destruct (N.ltb_spec a b)
    | |- context [(?a =? ?b)%N] => destruct (N.eqb_spec a b)
    | H : context [(?a <=? ?b)%N] |- _ => destruct (N.leb_spec a b)
    | H : context [(?a <? ?b)%N] |- _ => destruct (N.ltb_spec a b)
    | H : context [(?a =? ?b)%N] |- _ => destruct (N.eqb_spec a b)
    end.

Lemma AZ09_i_cases (c : cp) :
  AZ09_i c = true ->
  ascii_alnum c = true \/ c = 304%N \/ c = 305%N \/ c = 383%N \/ c = 8490%N.
Proof.
  unfold AZ09_i, fold_case, ascii_alnum, ascii_lower_letter,
    ascii_upper_letter, ascii_digit.
  intros H. cases_N; simpl in *; try discriminate; auto; try lia.
Qed.

(** The upper case of a character of the identifier class is one
    character: a capital letter or digit, or one of U+0130, U+212A. *)
Lemma upper_cp_identifier (U : unicode) (c : cp) :
  AZ09_i c = true ->
  exists c', upper_cp U c = [c'] /\
             (ascii_AZ09 c' = true \/ c' = 304%N \/ c' = 8490%N).
Proof.
  intros H. apply AZ09_i_cases in H as [H|[->|[->|[->| ->]]]].
  - unfold upper_cp. destruct (ascii_lower_letter c) eqn:E.
    + exists (c - 32)%N. split; [reflexivity|]. left.
      unfold ascii_lower_letter, ascii_AZ09, ascii_upper_letter, ascii_digit in *.
      cases_N; simpl in *; try discriminate; auto; lia.
    + exists c. split.
      * unfold ascii_alnum, ascii_upper_letter, ascii_digit, is_ascii in *.
        rewrite E in H. cases_N; simpl in *; try discriminate; auto; lia.
      * left. unfold ascii_alnum, ascii_AZ09 in *. rewrite E in H.
        now rewrite orb_false_r in H.
  - exists 304%N. split; [reflexivity | auto].
  - exists 73%N. split; [reflexivity | now left].
  - exists 83%N. split; [reflexivity | now left].
  - exists 8490%N. split; [reflexivity | auto].
Qed.

Lemma py_upper_identifier (U : unicode) (g : str) :
  forallb AZ09_i g = true ->
  length (py_upper U g) = length g /\
  Forall (fun c => ascii_AZ09 c = true \/ c = 304%N \/ c = 8490%N) (py_upper U g).
Proof.
  induction g as [|c g IH]; intros H; [now split|].
  cbn [forallb] in H. apply andb_true_iff in H as [Hc Hg].
  destruct (upper_cp_identifier U c Hc) as (c' & E & Hc').
  destruct (IH Hg) as [IH1 IH2].
  unfold py_upper in *. cbn [flat_map]. rewrite E. simpl. split.
  - now rewrite IH1.
  - now constructor.
Qed.

(** An identifier that the URL patterns extract has ten characters, each
    a capital letter, a digit, U+0130 or U+212A. *)
Lemma url_identifier_shape (U : unicode) (input_data r : str) :
  first_asin_match U asin_patterns input_data = Some r ->
  length r = 10%nat /\
  Forall (fun c => ascii_AZ09 c = true \/ c = 304%N \/ c = 8490%N) r.
Proof.
  intros H. apply asin_patterns_group in H as (g & Hlen & Hall & ->).
  destruct (py_upper_identifier U g Hall) as [H1 H2].
  split; [congruence | exact H2].
Qed.

Lemma extract_asin_nonempty (U : unicode) (input_data a : str) :
  extract_asin U input_data = Some a -> a <> [].
Proof.
  unfold extract_asin.
  destruct (Re.rmatch asin_exact _) as [f|] eqn:E.
  - intros [= <-] Hnil. rewrite Hnil in E. discriminate.
  - intros H. apply url_identifier_shape in H as [Hlen _].
    intros ->. discriminate.
Qed.

(** ** The orchestrator *)

Section Chain.
Variable World : Type.
Implicit Types (ms : list (str * strategy World)) (w : World).

Lemma try_methods_first ms asin :
  forall w called pre method_name o wo post result,
  run_all ms asin w = pre ++ (method_name, o, wo) :: post ->
  (forall x, In x pre -> usable (outcome_of x) = None) ->
  usable o = Some result ->
  try_methods World ms asin w called =
    (Some {| data := result; source_method := method_name; asin := asin |},
     wo, called ++ map name_of pre ++ [method_name]).
Proof.
  induction ms as [|[n f] ms IH];
    intros w called pre method_name o wo post result Hrun Hpre Ho.
  - destruct pre; discriminate.
  - cbn [run_all try_methods] in *. destruct (f asin w) as [o1 w1].
    destruct pre as [|x pre].
    + injection Hrun as -> -> -> _. now rewrite Ho.
    + injection Hrun as <- Hrun.
      pose proof (Hpre _ (or_introl eq_refl)) as Hx.
      cbn [outcome_of fst snd] in Hx. rewrite Hx.
      rewrite (IH w1 (called ++ [n]) pre method_name o wo post result Hrun);
        [|intros y Hy; apply Hpre; now right | exact Ho].
      cbn [map name_of fst]. now rewrite <- app_assoc.
Qed.

Lemma try_methods_none ms asin :
  forall w called,
  (forall x, In x (run_all ms asin w) -> usable (outcome_of x) = None) ->
  exists w', try_methods World ms asin w called = (None, w', called ++ map fst ms).
Proof.
  induction ms as [|[n f] ms IH]; intros w called Hall.
  - exists w. cbn. now rewrite app_nil_r.
  - cbn [run_all try_methods] in *. destruct (f asin w) as [o1 w1].
    pose proof (Hall _ (or_introl eq_refl)) as Hx.
    cbn [outcome_of fst snd] in Hx. rewrite Hx.
    destruct (IH w1 (called ++ [n])) as [w' E];
      [intros y Hy; apply Hall; now right|].
    exists w'. rewrite E. cbn [map fst]. now rewrite <- app_assoc.
Qed.

(** Either some strategy is the first with a usable outcome, or none
    has one. *)
Lemma first_usable (l : list (str * outcome * World)) :
  (exists pre method_name o wo post result,
     l = pre ++ (method_name, o, wo) :: post /\
     (forall x, In x pre -> usable (outcome_of x) = None) /\
     usable o = Some result) \/
  (forall x, In x l -> usable (outcome_of x) = None).
Proof.
  induction l as [|[[n o] wo] l IH]; [right; intros ? []|].
  destruct (usable o) as [result|] eqn:E.
  - left. exists [], n, o, wo, l, result. repeat split; trivial. intros ? [].
  - destruct IH as [(pre & n' & o' & wo' & post & result & -> & Hpre & Ho)|Hall].
    + left. exists ((n, o, wo) :: pre), n', o', wo', post, result.
      repeat split; trivial. intros x [<-|Hx]; [exact E | now apply Hpre].
    + right. intros x [<-|Hx]; [exact E | now apply Hall].
Qed.

Lemma first_usable_unique (l pre pre' post post' : list (str * outcome * World))
    (x x' : str * outcome * World) (r r' : product_data) :
  l = pre ++ x :: post -> l = pre' ++ x' :: post' ->
  (forall y, In y pre -> usable (outcome_of y) = None) ->
  (forall y, In y pre' -> usable (outcome_of y) = None) ->
  usable (outcome_of x) = Some r -> usable (outcome_of x') = Some r' ->
  pre = pre' /\ x = x'.
Proof.
  intros -> E. revert pre' E.
  induction pre as [|y pre IH]; intros pre' E Hpre Hpre' Hx Hx'.
  - destruct pre' as [|y' pre']; [now injection E as <- _|].
    injection E as <- _.
    specialize (Hpre' _ (or_introl eq_refl)). congruence.
  - destruct pre' as [|y' pre'].
    + injection E as <- _.
      specialize (Hpre _ (or_introl eq_refl)). congruence.
    + injection E as <- E.
      destruct (IH pre' E) as [-> ->]; trivial.
      * intros z Hz. apply Hpre. now right.
      * intros z Hz. apply Hpre'. now right.
      * now split.
Qed.

Lemma run_all_names ms asin :
  forall w, map name_of (run_all ms asin w) = map fst ms.
Proof.
  induction ms as [|[n f] ms IH]; intros w; [reflexivity|].
  cbn [run_all]. destruct (f asin w) as [o w']. cbn [map name_of fst].
  now rewrite IH.
Qed.
End Chain.

Lemma method_names_distinct : NoDup method_names.
Proof.
  vm_compute.
  repeat (constructor; [simpl; intuition discriminate|]). constructor.
Qed.

(** C1.  For an input with an extractable identifier the four strategies
    answer in the order rainforest_api, scraperapi, rapidapi,
    direct_amazon, each on the world the one before left.  The first
    usable outcome (a record with a non-empty product name) is returned
    with the name of its strategy and the identifier, and no later
    strategy is called; the error record is returned exactly when no
    outcome is usable, and it lists the four names in that order, once
    each. *)
Theorem resolve_product_chain (U : unicode) (World : Type)
    (f1 f2 f3 : strategy World) (f4 : str -> strategy World)
    (input_data identifier : str) (w : World) :
  extract_asin U input_data = Some identifier ->
  let ms := methods World f1 f2 f3 f4 input_data in
  let outcomes := run_all ms identifier w in
  let '(resp, w', called) := get_product_info U World f1 f2 f3 f4 input_data w in
  map fst ms = method_names /\
  map name_of outcomes = method_names /\
  (forall pre method_name o wo post result,
     outcomes = pre ++ (method_name, o, wo) :: post ->
     (forall x, In x pre -> usable (outcome_of x) = None) ->
     usable o = Some result ->
     resp = Product {| data := result; source_method := method_name;
                       asin := identifier |} /\
     product_name result <> [] /\
     w' = wo /\ called = map name_of pre ++ [method_name]) /\
  ((exists a tried, resp = AllFailed a tried) <->
   (forall x, In x outcomes -> usable (outcome_of x) = None)) /\
  (forall a tried, resp = AllFailed a tried ->
     a = identifier /\ tried = method_names /\ called = method_names) /\
  (forall i fs, resp <> InvalidInput i fs) /\
  NoDup method_names.
Proof.
  intros Hid ms outcomes.
  pose proof (extract_asin_nonempty U input_data identifier Hid) as Hne.
  assert (Hnames : map fst ms = method_names) by reflexivity.
  assert (Hrun : map name_of outcomes = method_names)
    by (unfold outcomes; now rewrite run_all_names).
  unfold get_product_info. rewrite Hid.
  destruct identifier as [|c identifier']; [congruence|].
  set (identifier := c :: identifier') in *. fold ms.
  assert (Husable : forall o result, usable o = Some result ->
                      product_name result <> []).
  { intros o result. unfold usable. destruct o as [|[r|]]; try discriminate.
    destruct (product_name r) eqn:E; [discriminate|].
    intros [= <-]. now rewrite E. }
  destruct (first_usable World outcomes)
    as [(pre & n & o & wo & post & result & Hout & Hpre & Ho)|Hall].
  - rewrite (try_methods_first World ms identifier w [] pre n o wo post result
               Hout Hpre Ho).
    cbn [app].
    split; [exact Hnames|]. split; [exact Hrun|].
    split; [|split; [|split; [|split]]].
    + intros pre' n' o' wo' post' result' Hout' Hpre' Ho'.
      destruct (first_usable_unique World outcomes pre pre' post post'
                  (n, o, wo) (n', o', wo') result result'
                  Hout Hout' Hpre Hpre' Ho Ho') as [<- [= <- <- <-]].
      assert (result' = result) by congruence. subst result'.
      split; [reflexivity|]. split; [exact (Husable _ _ Ho)|]. now split.
    + split; [intros (a & tried & [=])|].
      intros Hall. rewrite Hout in Hall.
      specialize (Hall (n, o, wo) (in_elt _ _ _)). cbn in Hall. congruence.
    + intros a tried [=].
    + intros i fs [=].
    + apply method_names_distinct.
  - destruct (try_methods_none World ms identifier w [] Hall) as [w' E].
    rewrite E. cbn [app].
    split; [exact Hnames|]. split; [exact Hrun|].
    split; [|split; [|split; [|split]]].
    + intros pre n o wo post result Hout Hpre Ho.
      specialize (Hall (n, o, wo)). rewrite Hout in Hall.
      specialize (Hall (in_elt _ _ _)). cbn in Hall. congruence.
    + split; [intros _; exact Hall|].
      intros _. now exists identifier, (map fst ms).
    + intros a tried [= <- <-]. now repeat split.
    + intros i fs [=].
    + apply method_names_distinct.
Qed.

Lemma resolve_product_chain_witness :
  extract_asin caseless (u "https://www.amazon.in/dp/B08N5WRWNW")
    = Some (u "B08N5WRWNW") /\
  get_product_info caseless nat raising (returning (Some unnamed_product))
    (returning (Some sample_product)) (fun _ => returning None)
    (u "https://www.amazon.in/dp/B08N5WRWNW") 0%nat
  = (Product {| data := sample_product; source_method := u "rapidapi";
                asin := u "B08N5WRWNW" |},
     3%nat, [u "rainforest_api"; u "scraperapi"; u "rapidapi"]).
Proof.
  assert (Hid : extract_asin caseless (u "https://www.amazon.in/dp/B08N5WRWNW")
                = Some (u "B08N5WRWNW")) by (vm_compute; reflexivity).
  split; [exact Hid|].
  pose proof (resolve_product_chain caseless nat raising
                (returning (Some unnamed_product))
                (returning (Some sample_product)) (fun _ => returning None)
                (u "https://www.amazon.in/dp/B08N5WRWNW") (u "B08N5WRWNW")
                0%nat Hid) as H.
  cbv zeta in H.
  destruct (get_product_info _ _ _ _ _ _ _ _) as [[resp w'] called].
  destruct H as (_ & _ & H & _).
  destruct (H [(u "rainforest_api", Raised, 1%nat);
               (u "scraperapi", Returned (Some unnamed_product), 2%nat)]
              (u "rapidapi") (Returned (Some sample_product)) 3%nat
              [(u "direct_amazon", Returned None, 4%nat)] sample_product)
    as (-> & _ & -> & ->).
  - reflexivity.
  - intros x [<-|[<-|[]]]; reflexivity.
  - reflexivity.
  - reflexivity.
Defined.

(** When every strategy fails, all four have been called and named. *)
Example all_strategies_fail :
  get_product_info caseless nat raising (returning None)
    (returning (Some unnamed_product)) (fun _ => raising) (u " b08n5wrwnw ") 0%nat
  = (AllFailed (u "B08N5WRWNW") method_names, 4%nat, method_names).
Proof. vm_compute. reflexivity. Qed.

(** ** Image URLs *)














(** A single JSON-like value can contribute more than ten images. *)
Example json_value_gives_twelve :
  length (raw_image_urls twelve_in_json) = 1%nat /\
  length (enhanced_image_urls twelve_in_json) = 12%nat.
Proof. split; vm_compute; reflexivity. Qed.

(** ** Description cleaning *)

Lemma lstrip_length (U : unicode) (s : str) :
  (length (lstrip U s) <= length s)%nat.
Proof.
  induction s as [|c t IH]; [reflexivity|].
  cbn [lstrip]. destruct (py_isspace U c); simpl; lia.
Qed.

(** A greedy run of white space before a continuation that always
    accepts takes all the white space there is. *)
Lemma star_ws_total {A : Type} (U : unicode) (k : Re.cont A) :
  (forall i s g, k i s g <> None) ->
  forall fuel i s g, (length s <= fuel)%nat ->
  exists i', Re.star_loop (Re.run (ws U)) fuel i s g k = k i' (lstrip U s) g.
Proof.
  intros Hk. induction fuel as [|f IH]; intros i s g Hlen.
  - destruct s; [|simpl in Hlen; lia]. now exists i.
  - cbn [Re.star_loop]. unfold ws at 1. cbn [Re.run].
    destruct s as [|c t]; [now exists i|].
    cbn [lstrip]. destruct (py_isspace U c); [|now exists i].
    replace (length t <? length (c :: t))%nat with true
      by (symmetry; apply Nat.ltb_lt; simpl; lia).
    destruct (IH (S i) t g) as [i' E]; [simpl in Hlen; lia|].
    exists i'. rewrite E. destruct (k i' (lstrip U t) g) eqn:Ek; [reflexivity|].
    now apply Hk in Ek.
Qed.

Lemma at_pos_spaces (U : unicode) (i : nat) (c : cp) (t : str) :
  if py_isspace U c
  then exists f, Re.at_pos (spaces_re U) i (c :: t) = Some f /\
                 Re.m_rest f = lstrip U t
  else Re.at_pos (spaces_re U) i (c :: t) = None.
Proof.
  destruct (py_isspace U c) eqn:Ec;
    unfold Re.at_pos, spaces_re, Plus; cbn [Re.run]; unfold ws at 1;
    cbn [Re.run]; rewrite Ec; [|reflexivity].
  destruct (star_ws_total U
              (fun i' s' g =>
                 Some {| Re.m_start := i; Re.m_end := i'; Re.m_group := g;
                         Re.m_rest := s' |})
              ltac:(discriminate) (length t) (S i) t [] (le_n _)) as [i' E].
  rewrite E. eexists. split; reflexivity.
Qed.

Lemma squeeze_in_run (U : unicode) (s : str) :
  squeeze U true s = squeeze U false (lstrip U s).
Proof.
  induction s as [|c t IH]; [reflexivity|].
  cbn [squeeze lstrip]. destruct (py_isspace U c) eqn:E; [exact IH|].
  cbn [squeeze]. now rewrite E.
Qed.

(** Substituting a space for [\s+] is squeezing. *)
Lemma sub_spaces_squeeze (U : unicode) :
  forall fuel i s, (length s < fuel)%nat ->
  Re.sub_from (spaces_re U) (u " ") fuel i s = squeeze U false s.
Proof.
  induction fuel as [|fl IH]; intros i s Hlen; [lia|].
  cbn [Re.sub_from]. destruct s as [|c t]; [reflexivity|].
  pose proof (at_pos_spaces U i c t) as H. cbn [squeeze].
  destruct (py_isspace U c).
  - destruct H as (f & -> & Hrest). rewrite Hrest.
    pose proof (lstrip_length U t) as Hl.
    replace (length (lstrip U t) <? length (c :: t))%nat with true
      by (symmetry; apply Nat.ltb_lt; simpl; lia).
    rewrite IH by (simpl in Hlen; lia).
    now rewrite squeeze_in_run.
  - rewrite H. f_equal. apply IH. simpl in Hlen. lia.
Qed.

Lemma sub_spaces (U : unicode) (s : str) :
  Re.sub (spaces_re U) (u " ") s = squeeze U false s.
Proof. apply sub_spaces_squeeze. lia. Qed.

Lemma isspace_space (U : unicode) : py_isspace U (ch " ") = true.
Proof. reflexivity. Qed.

Lemma squeeze_loose (U : unicode) (s : str) :
  loose U (squeeze U false s) = true /\
  loose U (squeeze U true s) = true /\
  match squeeze U true s with
  | [] => True
  | d :: _ => py_isspace U d = false
  end.
Proof.
  induction s as [|c t (IH1 & IH2 & IH3)]; [now repeat split|].
  cbn [squeeze]. destruct (py_isspace U c) eqn:E.
  - repeat split; trivial. cbn [loose]. rewrite isspace_space, N.eqb_refl, IH2.
    destruct (squeeze U true t); [reflexivity|]. now rewrite IH3.
  - repeat split; trivial; cbn [loose]; now rewrite E.
Qed.

Lemma rstrip_head (U : unicode) (c : cp) (t : str) :
  rstrip U (c :: t) = [] \/ exists r, rstrip U (c :: t) = c :: r.
Proof.
  cbn [rstrip]. destruct (rstrip U t).
  - destruct (py_isspace U c); [now left | right; now exists []].
  - right. eauto.
Qed.

Lemma tidy_tail_cons (U : unicode) (c : cp) (t : str) :
  tidy_tail U (c :: t) =
  if py_isspace U c
  then (c =? ch " ")%N
       && match t with [] => false | d :: _ => negb (py_isspace U d) end
       && tidy_tail U t
  else tidy_tail U t.
Proof. reflexivity. Qed.

Lemma rstrip_loose (U : unicode) (z : str) :
  loose U z = true -> tidy_tail U (rstrip U z) = true.
Proof.
  induction z as [|c t IH]; intros H; [reflexivity|].
  cbn [loose] in H. cbn [rstrip].
  destruct (rstrip U t) as [|d r] eqn:Er.
  - destruct (py_isspace U c) eqn:E; [reflexivity|].
    now rewrite tidy_tail_cons, E.
  - rewrite tidy_tail_cons. destruct (py_isspace U c) eqn:E.
    + apply andb_true_iff in H as [H Hl]. apply andb_true_iff in H as [Hc Hd].
      rewrite Hc, (IH Hl).
      destruct t as [|d' t']; [discriminate|].
      destruct (rstrip_head U d' t') as [E0|[r' E0]]; rewrite E0 in Er;
        [discriminate|]. injection Er as <- _. now rewrite Hd.
    + now apply IH.
Qed.

Lemma lstrip_loose (U : unicode) (y : str) :
  loose U y = true ->
  loose U (lstrip U y) = true /\
  match lstrip U y with [] => True | d :: _ => py_isspace U d = false end.
Proof.
  induction y as [|c t IH]; intros H; [now split|].
  cbn [lstrip]. destruct (py_isspace U c) eqn:E.
  - cbn [loose] in H. rewrite E in H.
    apply andb_true_iff in H as [_ Hl]. now apply IH.
  - split; [exact H | exact E].
Qed.

(** Squeezing and stripping normalises the white space. *)
Lemma strip_squeeze_tidy (U : unicode) (x : str) :
  tidy U (py_strip U (squeeze U false x)) = true.
Proof.
  unfold py_strip. destruct (squeeze_loose U x) as (H & _ & _).
  apply lstrip_loose in H as [Hl Hh].
  pose proof (rstrip_loose U _ Hl) as Ht.
  destruct (lstrip U (squeeze U false x)) as [|d r]; [reflexivity|].
  destruct (rstrip_head U d r) as [E|[r' E]]; rewrite E in *; [reflexivity|].
  cbn [tidy]. rewrite Hh. cbn [tidy_tail] in Ht. now rewrite Hh in Ht.
Qed.

Lemma squeeze_tidy_tail (U : unicode) (t : str) :
  tidy_tail U t = true -> squeeze U false t = t.
Proof.
  induction t as [|c t IH]; intros H; [reflexivity|].
  cbn [tidy_tail] in H. cbn [squeeze]. destruct (py_isspace U c) eqn:E.
  - apply andb_true_iff in H as [H Ht]. apply andb_true_iff in H as [Hc Hd].
    apply N.eqb_eq in Hc. subst c. f_equal.
    rewrite squeeze_in_run. destruct t as [|d t']; [discriminate|].
    cbn [lstrip]. apply negb_true_iff in Hd. rewrite Hd. now apply IH.
  - f_equal. now apply IH.
Qed.

Lemma rstrip_tidy_tail (U : unicode) (t : str) :
  tidy_tail U t = true -> rstrip U t = t.
Proof.
  induction t as [|c t IH]; intros H; [reflexivity|].
  cbn [tidy_tail] in H. cbn [rstrip]. destruct (py_isspace U c) eqn:E.
  - apply andb_true_iff in H as [H Ht]. apply andb_true_iff in H as [_ Hd].
    rewrite (IH Ht). destruct t; [discriminate | reflexivity].
  - rewrite (IH H). now destruct t.
Qed.

Lemma tidy_fixed (U : unicode) (t : str) :
  tidy U t = true -> squeeze U false t = t /\ py_strip U t = t.
Proof.
  destruct t as [|c t]; [now split|]. cbn [tidy]. intros H.
  apply andb_true_iff in H as [Hc Ht]. apply negb_true_iff in Hc.
  assert (Htt : tidy_tail U (c :: t) = true) by (cbn [tidy_tail]; now rewrite Hc).
  split; [now apply squeeze_tidy_tail|].
  unfold py_strip. cbn [lstrip]. rewrite Hc. now apply rstrip_tidy_tail.
Qed.






Lemma clean_description_steps (U : unicode) (s : str) :
  clean_description U s = clean_steps U s.
Proof.
  destruct s as [|c t]; [vm_compute; reflexivity|].
  unfold clean_description, clean_steps. cbv beta iota. reflexivity.
Qed.

Lemma clean_description_tidy (U : unicode) (s : str) :
  tidy U (clean_description U s) = true.
Proof.
  rewrite clean_description_steps. unfold clean_steps.
  rewrite (sub_spaces U (Re.sub tag_re [] _)). apply strip_squeeze_tidy.
Qed.




Example clean_description_prefix_uncovered :
  clean_description caseless (u "Description About this item Large") =
    u "About this item Large" /\
  clean_description caseless (u "About this item Large") = u "Large".
Proof. split; vm_compute; reflexivity. Qed.

(** ** Identifiers: bare codes, URL shapes, absent codes *)

Lemma upper_cp_ascii (U : unicode) (c : cp) :
  is_ascii c = true -> upper_cp U c = [to_upper_ascii c].
Proof.
  unfold upper_cp, to_upper_ascii. intros ->. now destruct (ascii_lower_letter c).
Qed.

Lemma py_upper_ascii (U : unicode) (s : str) :
  forallb is_ascii s = true -> py_upper U s = map to_upper_ascii s.
Proof.
  unfold py_upper. induction s as [|c t IH]; intros H; [reflexivity|].
  cbn [forallb] in H. apply andb_true_iff in H as [Hc Ht].
  cbn [flat_map map]. now rewrite (upper_cp_ascii U c Hc), (IH Ht).
Qed.

Lemma alnum_is_ascii (c : cp) : ascii_alnum c = true -> is_ascii c = true.
Proof.
  unfold ascii_alnum, ascii_upper_letter, ascii_lower_letter, ascii_digit, is_ascii.
  intros H. cases_N; simpl in *; try discriminate; try reflexivity; lia.
Qed.

Lemma to_upper_alnum (c : cp) :
  ascii_alnum c = true -> ascii_AZ09 (to_upper_ascii c) = true.
Proof.
  unfold to_upper_ascii, ascii_alnum, ascii_AZ09, ascii_upper_letter,
    ascii_lower_letter, ascii_digit.
  intros H. cases_N; simpl in *; try discriminate; try reflexivity; lia.
Qed.

Lemma fold_case_lower (c : cp) :
  ascii_lower_letter c = true -> fold_case c = c.
Proof.
  unfold fold_case, ascii_upper_letter, ascii_lower_letter.
  intros H. cases_N; simpl in *; try discriminate; try reflexivity; lia.
Qed.

Lemma fold_case_upper (c : cp) :
  ascii_upper_letter c = true -> ascii_lower_letter (fold_case c) = true.
Proof.
  unfold fold_case. intros H. rewrite H.
  unfold ascii_upper_letter, ascii_lower_letter in *.
  cases_N; simpl in *; try discriminate; try reflexivity; lia.
Qed.

Lemma to_upper_AZ09_back (c : cp) :
  is_ascii c = true -> ascii_AZ09 (to_upper_ascii c) = true -> AZ09_i c = true.
Proof.
  unfold to_upper_ascii, AZ09_i, ascii_AZ09. intros _ H.
  destruct (ascii_lower_letter c) eqn:El.
  - now rewrite (fold_case_lower c El), El.
  - apply orb_true_iff in H as [Hu|Hd].
    + now rewrite (fold_case_upper c Hu).
    + rewrite Hd. apply orb_true_r.
Qed.

Lemma forallb_map_impl (p q : cp -> bool) (f : cp -> cp) (s : str) :
  (forall c, p c = true -> q (f c) = true) ->
  forallb p s = true -> forallb q (map f s) = true.
Proof.
  intros Hpq. induction s as [|c t IH]; [reflexivity|].
  cbn [forallb map]. intros H. apply andb_true_iff in H as [Hc Ht].
  now rewrite (Hpq c Hc), (IH Ht).
Qed.

Lemma forallb_impl (p q : cp -> bool) (s : str) :
  (forall c, p c = true -> q c = true) ->
  forallb p s = true -> forallb q s = true.
Proof.
  intros Hpq H. rewrite forallb_forall in *. auto.
Qed.

(** [re.match] of the exact pattern on ten capital letters or digits. *)
Lemma rmatch_exact_ok (x : str) :
  length x = 10%nat -> forallb ascii_AZ09 x = true ->
  exists f, Re.rmatch asin_exact x = Some f.
Proof.
  intros Hlen Hall. unfold Re.rmatch, Re.at_pos, asin_exact.
  cbn [Seq Re.run]. rewrite run_rep_exact_chr. unfold all_of.
  rewrite firstn_all2, Hall, skipn_all2 by lia.
  rewrite Hlen. cbn. eauto.
Qed.

Lemma rmatch_exact_chars (x : str) (f : Re.found) :
  Re.rmatch asin_exact x = Some f ->
  all_of ascii_AZ09 10 x = true /\
  Forall (fun c => ascii_AZ09 c = true \/ c = 10%N) x.
Proof.
  unfold Re.rmatch, Re.at_pos, asin_exact. cbn [Seq Re.run].
  rewrite run_rep_exact_chr. destruct (all_of ascii_AZ09 10 x) eqn:E; [|discriminate].
  intros H. split; [reflexivity|].
  apply all_of_spec in E as (_ & Hall & _).
  rewrite <- (firstn_skipn 10 x). apply Forall_app. split.
  - rewrite forallb_forall in Hall. apply Forall_forall. auto.
  - remember (skipn 10 x) as r eqn:Er. clear Er. cbn [Re.run] in H.
    destruct r as [|c [|d r]]; try discriminate; [constructor|].
    destruct (N.eqb_spec c 10); [|discriminate].
    constructor; [now right | constructor].
Qed.

(** A bare identifier, in any letter case and with white space around
    it, comes back in upper case. *)
(** X9 (extract_asin, enhanced_amazon_agent.py): an input that, white
    space around it stripped, is ten ASCII letters or digits is answered
    with these ten characters in upper case, which are then capital
    letters and digits. *)
Lemma extract_asin_bare (U : unicode) (input_data : str) :
  length (py_strip U input_data) = 10%nat ->
  forallb ascii_alnum (py_strip U input_data) = true ->
  extract_asin U input_data = Some (map to_upper_ascii (py_strip U input_data)) /\
  forallb ascii_AZ09 (map to_upper_ascii (py_strip U input_data)) = true.
Proof.
  intros Hlen Hall.
  assert (Hup : forallb ascii_AZ09 (map to_upper_ascii (py_strip U input_data)) = true)
    by (apply (forallb_map_impl ascii_alnum); [apply to_upper_alnum | exact Hall]).
  split; [|exact Hup].
  unfold extract_asin.
  rewrite py_upper_ascii by (apply (forallb_impl ascii_alnum);
                               [apply alnum_is_ascii | exact Hall]).
  destruct (rmatch_exact_ok (map to_upper_ascii (py_strip U input_data)))
    as [f ->]; [now rewrite length_map | exact Hup | reflexivity].
Qed.

Lemma search_from_suffix (r : regex) (s : str) :
  forall i f, Re.search_from r i s = Some f ->
  exists pre t, s = pre ++ t /\ Re.at_pos r (i + length pre) t = Some f.
Proof.
  induction s as [|c t IH]; intros i f H; cbn [Re.search_from] in H.
  - destruct (Re.at_pos r i []) eqn:E; [|discriminate].
    injection H as ->. exists [], []. now rewrite Nat.add_0_r.
  - destruct (Re.at_pos r i (c :: t)) eqn:E.
    + injection H as ->. exists [], (c :: t). now rewrite Nat.add_0_r.
    + apply IH in H as (pre & t' & -> & H). exists (c :: pre), t'.
      split; [reflexivity|]. cbn [length]. now rewrite Nat.add_succ_r.
Qed.

Lemma search_from_leftmost (r : regex) (pre t : str) (f : Re.found) :
  forall i,
  (forall j, (j < length pre)%nat ->
             Re.at_pos r (i + j) (skipn j (pre ++ t)) = None) ->
  Re.at_pos r (i + length pre) t = Some f ->
  Re.search_from r i (pre ++ t) = Some f.
Proof.
  induction pre as [|c pre IH]; intros i Hbefore Hat.
  - cbn [app length] in *. rewrite Nat.add_0_r in Hat.
    destruct t; cbn [Re.search_from]; now rewrite Hat.
  - cbn [app Re.search_from].
    pose proof (Hbefore 0%nat ltac:(simpl; lia)) as H0.
    rewrite Nat.add_0_r in H0. cbn [skipn app] in H0. rewrite H0.
    apply IH.
    + intros j Hj. specialize (Hbefore (S j) ltac:(simpl; lia)).
      now rewrite Nat.add_succ_r in Hbefore.
    + cbn [length] in Hat. now rewrite Nat.add_succ_r in Hat.
Qed.

Lemma has_id_run_suffix (pre t : str) :
  has_id_run t = true -> has_id_run (pre ++ t) = true.
Proof.
  intros H. induction pre as [|c pre IH]; [exact H|].
  cbn [app has_id_run]. rewrite IH. apply orb_true_r.
Qed.

Lemma has_id_run_skipn (n : nat) :
  forall t, has_id_run (skipn n t) = true -> has_id_run t = true.
Proof.
  induction n as [|n IH]; intros t H; [exact H|].
  destruct t as [|c t]; [exact H|].
  cbn [skipn] in H. cbn [has_id_run]. rewrite (IH _ H). apply orb_true_r.
Qed.

Lemma has_id_run_here (s : str) : all_of AZ09_i 10 s = true -> has_id_run s = true.
Proof. intros H. destruct s; cbn [has_id_run]; now rewrite H. Qed.

Lemma marker_match_run (marker : str) (tail : regex) (i : nat) (s : str)
    (f : Re.found) :
  Re.at_pos (Cat (Lit_i marker) (Cat asin_group tail)) i s = Some f \/
  Re.at_pos (Cat (Lit_i marker) asin_group) i s = Some f ->
  has_id_run s = true.
Proof.
  intros H. apply (has_id_run_skipn (length marker)), has_id_run_here.
  unfold Re.at_pos, asin_group in H. cbn [Re.run] in H.
  rewrite !run_lit_i in H. destruct (startswith_i marker s); [|now destruct H].
  cbn [Re.run] in H. rewrite !run_rep_exact_chr in H.
  destruct (all_of AZ09_i 10 (skipn (length marker) s)); [reflexivity | now destruct H].
Qed.

Lemma marker_patterns_run (U : unicode) (s : str) (patterns : list regex) :
  Forall (fun p => exists marker,
            p = Cat (Lit_i marker) asin_group \/
            exists tail, p = Cat (Lit_i marker) (Cat asin_group tail)) patterns ->
  forall r, first_asin_match U patterns s = Some r -> has_id_run s = true.
Proof.
  induction 1 as [|p ps (marker & Hp) _ IH]; intros r H; [discriminate|].
  cbn [first_asin_match] in H.
  destruct (Re.search p s) as [f|] eqn:E; [|now apply (IH r)].
  apply search_from_suffix in E as (pre & t & -> & E).
  apply has_id_run_suffix.
  destruct Hp as [->|[tail ->]].
  - apply (marker_match_run marker Eps (0 + length pre) t f). now right.
  - apply (marker_match_run marker tail (0 + length pre) t f). now left.
Qed.

Lemma url_match_run (U : unicode) (s r : str) :
  first_asin_match U asin_patterns s = Some r -> has_id_run s = true.
Proof.
  apply marker_patterns_run. unfold asin_patterns. cbn [Seq].
  repeat (apply Forall_cons;
          [eexists; first [left; reflexivity | right; eexists; reflexivity]|]).
  apply Forall_nil.
Qed.

(** X10 (extract_asin, enhanced_amazon_agent.py): an ASCII text that,
    stripped, has nowhere ten consecutive letters or digits has no
    identifier: the answer is [None], and nothing is raised. *)
Lemma extract_asin_none (U : unicode) (input_data : str) :
  forallb is_ascii (py_strip U input_data) = true ->
  has_id_run (py_strip U input_data) = false ->
  extract_asin U input_data = None.
Proof.
  intros Hascii Hrun. unfold extract_asin.
  destruct (Re.rmatch asin_exact _) as [f|] eqn:E.
  - exfalso. apply rmatch_exact_chars in E as [E _].
    rewrite py_upper_ascii in E by exact Hascii.
    assert (H : all_of AZ09_i 10 (py_strip U input_data) = true).
    { unfold all_of in *. apply andb_true_iff in E as [E1 E2].
      rewrite length_map in E2. rewrite E2, andb_true_r.
      rewrite firstn_map in E1.
      remember (firstn 10 (py_strip U input_data)) as l eqn:El.
      assert (Hl : forallb is_ascii l = true).
      { subst l. rewrite forallb_forall in *. intros c Hc. apply Hascii.
        rewrite <- (firstn_skipn 10 (py_strip U input_data)).
        apply in_or_app. now left. }
      clear El. induction l as [|c l IH]; [reflexivity|].
      cbn [map forallb] in *. apply andb_true_iff in E1 as [Ec El].
      apply andb_true_iff in Hl as [Hc Hl].
      now rewrite (to_upper_AZ09_back c Hc Ec), (IH El Hl). }
    apply has_id_run_here in H. congruence.
  - destruct (first_asin_match U asin_patterns _) as [r|] eqn:Er; [|reflexivity].
    apply url_match_run in Er. congruence.
Qed.

Lemma startswith_i_app (m s : str) : startswith_i m (m ++ s) = true.
Proof.
  induction m as [|a m IH]; [reflexivity|].
  cbn [app startswith_i]. unfold is_cp_i at 1. now rewrite N.eqb_refl, IH.
Qed.

Lemma skipn_app_exact (a b : str) : skipn (length a) (a ++ b) = b.
Proof. induction a as [|c a IH]; [reflexivity | exact IH]. Qed.

Lemma firstn_app_exact (a b : str) : firstn (length a) (a ++ b) = a.
Proof. induction a as [|c a IH]; [reflexivity | cbn; now rewrite IH]. Qed.

(** The match of a marker pattern where the marker stands, followed by
    an identifier. *)
Lemma at_pos_marker (marker id post : str) (i : nat) :
  length id = 10%nat -> forallb AZ09_i id = true ->
  exists f, Re.at_pos (Cat (Lit_i marker) asin_group) i (marker ++ id ++ post)
            = Some f /\ Re.m_group f = id.
Proof.
  intros Hlen Hall. unfold Re.at_pos, asin_group. cbn [Re.run].
  rewrite run_lit_i, startswith_i_app, skipn_app_exact.
  cbn [Re.run]. rewrite run_rep_exact_chr. unfold all_of.
  rewrite <- Hlen. rewrite !skipn_app_exact, firstn_app_exact, Hall, length_app.
  replace (length id <=? length id + length post)%nat with true
    by (symmetry; apply Nat.leb_le; lia).
  cbn [andb]. eexists. split; [reflexivity|]. cbn [Re.m_group].
  replace (length id + length post - length post)%nat with (length id) by lia.
  apply firstn_app_exact.
Qed.

Lemma first_asin_match_skip (U : unicode) (s : str) (before after : list regex) :
  (forall q, In q before -> Re.search q s = None) ->
  first_asin_match U (before ++ after) s = first_asin_match U after s.
Proof.
  induction before as [|q before IH]; intros H; [reflexivity|].
  cbn [app first_asin_match]. rewrite (H q) by now left.
  apply IH. intros q' Hq'. apply H. now right.
Qed.

Lemma py_upper_keeps (U : unicode) (c : cp) (s : str) :
  In c s -> is_ascii c = true -> ascii_lower_letter c = false ->
  In c (py_upper U s).
Proof.
  intros Hin Ha Hl. unfold py_upper. apply in_flat_map. exists c.
  split; [exact Hin|]. unfold upper_cp. rewrite Hl, Ha. now left.
Qed.

(** A URL shape: where the text, stripped, has a marker of the pattern
    list followed by ten letters or digits, no pattern before that one in
    the list matches, and the pattern does not match further left, the
    identifier after the marker is returned in upper case.  The separator
    [sep] is a character of the marker, such as the slash, that no bare
    identifier has. *)
Lemma extract_asin_marker (U : unicode) (input_data pre marker id post : str)
    (before after : list regex) (sep : cp) :
  asin_patterns = before ++ Cat (Lit_i marker) asin_group :: after ->
  py_strip U input_data = pre ++ marker ++ id ++ post ->
  In sep marker -> is_ascii sep = true -> ascii_alnum sep = false ->
  sep <> 10%N ->
  length id = 10%nat -> forallb ascii_alnum id = true ->
  (forall q, In q before -> Re.search q (py_strip U input_data) = None) ->
  (forall j, (j < length pre)%nat ->
     Re.at_pos (Cat (Lit_i marker) asin_group) j
       (skipn j (py_strip U input_data)) = None) ->
  extract_asin U input_data = Some (map to_upper_ascii id).
Proof.
  intros Hpats Hs Hsep Hascii Hnot Hnl Hlen Hall Hbefore Hleft.
  assert (Hsplit : ascii_lower_letter sep = false /\ ascii_AZ09 sep = false).
  { unfold ascii_alnum, ascii_AZ09 in *.
    destruct (ascii_upper_letter sep), (ascii_lower_letter sep),
      (ascii_digit sep); try discriminate. now split. }
  destruct Hsplit as [Hlow HAZ].
  unfold extract_asin.
  destruct (Re.rmatch asin_exact _) as [f|] eqn:E.
  - exfalso. apply rmatch_exact_chars in E as [_ E].
    rewrite Forall_forall in E.
    destruct (E sep) as [H|H]; [|congruence|congruence].
    apply py_upper_keeps; trivial. rewrite Hs.
    apply in_or_app. right. apply in_or_app. now left.
  - rewrite Hpats, first_asin_match_skip by exact Hbefore.
    cbn [first_asin_match].
    assert (Hid : forallb AZ09_i id = true).
    { apply (forallb_impl ascii_alnum); [|exact Hall].
      intros c Hc. apply to_upper_AZ09_back; [now apply alnum_is_ascii|].
      now apply to_upper_alnum. }
    destruct (at_pos_marker marker id post (0 + length pre) Hlen Hid)
      as (f & Hat & Hg).
    unfold Re.search. rewrite Hs in *.
    rewrite (search_from_leftmost _ pre _ f 0 Hleft Hat), Hg.
    f_equal. apply py_upper_ascii.
    apply (forallb_impl ascii_alnum); [apply alnum_is_ascii | exact Hall].
Qed.

(** The shapes named in the specification, and a URL without
    identifier. *)
Example extract_asin_shapes :
  extract_asin caseless (u "https://www.amazon.com/dp/B08N5WRWNW") = Some (u "B08N5WRWNW") /\
  extract_asin caseless (u "https://www.amazon.in/gp/product/b08n5wrwnw?th=1")
    = Some (u "B08N5WRWNW") /\
  extract_asin caseless (u "https://www.amazon.de/x?asin=B08N5WRWNW&y=2")
    = Some (u "B08N5WRWNW") /\
  extract_asin caseless (u "  b08n5wrwnw ") = Some (u "B08N5WRWNW") /\
  extract_asin caseless (u "https://www.amazon.com/help/contact") = None.
Proof. repeat split; vm_compute; reflexivity. Qed.

(** C6.  An identifier after a URL marker may end in the Kelvin sign:
    under [re.IGNORECASE] the class of capital letters and digits accepts
    it, and its upper case is itself, so what is returned is not ten
    capital letters or digits, as the exact pattern of the first branch
    confirms. *)
Theorem extract_asin_kelvin_sign :
  extract_asin caseless (u "https://www.amazon.com/dp/B08N5WRWN" ++ [kelvin_sign])
    = Some (u "B08N5WRWN" ++ [kelvin_sign]) /\
  forallb ascii_AZ09 (u "B08N5WRWN" ++ [kelvin_sign]) = false /\
  Re.rmatch asin_exact (u "B08N5WRWN" ++ [kelvin_sign]) = None.
Proof. repeat split; vm_compute; reflexivity. Qed.

(** The lemma at work on a product URL of the Indian marketplace. *)
Example extract_asin_marker_dp :
  extract_asin caseless (u " https://www.amazon.in/dp/b08n5wrwnw/ref=x ")
    = Some (u "B08N5WRWNW").
Proof.
  apply (extract_asin_marker caseless _ (u "https://www.amazon.in") (u "/dp/")
           (u "b08n5wrwnw") (u "/ref=x") [] (tl asin_patterns) (ch "/"));
    try (vm_compute; reflexivity).
  - now left.
  - discriminate.
  - intros q [].
  - intros j Hj.
    do 21 (destruct j as [|j]; [vm_compute; reflexivity|]).
    vm_compute in Hj. lia.
Qed.

(** * Further properties of the code *)

(** ** The rate limiter *)

Section RateLimiterFacts.
Variable T : Type.
Variable ltb : T -> T -> bool.
Variable window_start : T -> T.
Variable RATE_LIMIT : Z.

Lemma prune_split (ws : T) (dq : list T) :
  exists removed, dq = removed ++ prune T ltb ws dq /\
                  forall r, In r removed -> ltb r ws = true.
Proof.
  induction dq as [|t rest (removed & E & H)].
  - exists []. split; [reflexivity | intros ? []].
  - cbn [prune]. destruct (ltb t ws) eqn:Et.
    + exists (t :: removed). split; [cbn; now rewrite <- E|].
      intros r [<-|Hr]; [exact Et | now apply H].
    + exists []. split; [reflexivity | intros ? []].
Qed.

Lemma prune_length (ws : T) (dq : list T) :
  (length (prune T ltb ws dq) <= length dq)%nat.
Proof.
  destruct (prune_split ws dq) as (removed & E & _).
  rewrite E at 2. rewrite length_app. lia.
Qed.

Lemma set_deque_same (st : limiters T) (key : str) (dq : list T) :
  set_deque T st key dq key = dq.
Proof. unfold set_deque. now rewrite str_eqb_refl. Qed.

Lemma set_deque_other (st : limiters T) (key k : str) (dq : list T) :
  k <> key -> set_deque T st key dq k = st k.
Proof.
  intros H. unfold set_deque. destruct (str_eqb k key) eqn:E; [|reflexivity].
  now apply str_eqb_eq in E.
Qed.

Lemma rate_limiter_keeps_bound (key : str) (now : T) (st : limiters T) :
  (forall k, (Z.of_nat (length (st k)) <= Z.max 0 RATE_LIMIT)%Z) ->
  forall k, (Z.of_nat (length (snd (rate_limiter T ltb window_start RATE_LIMIT key now st) k)) <= Z.max 0 RATE_LIMIT)%Z.
Proof.
  intros Hst k. unfold rate_limiter.
  pose proof (prune_length (window_start now) (st key)) as Hp.
  specialize (Hst key) as Hkey.
  destruct (RATE_LIMIT <=? _)%Z eqn:E; cbn [snd].
  - destruct (list_eq_dec N.eq_dec k key) as [->|Hne].
    + rewrite set_deque_same. lia.
    + rewrite set_deque_other by exact Hne. apply Hst.
  - apply Z.leb_gt in E.
    destruct (list_eq_dec N.eq_dec k key) as [->|Hne].
    + rewrite set_deque_same, length_app. cbn [length]. lia.
    + rewrite set_deque_other by exact Hne. apply Hst.
Qed.

Lemma serve_keeps_bound (calls : list (str * T)) :
  forall st,
  (forall k, (Z.of_nat (length (st k)) <= Z.max 0 RATE_LIMIT)%Z) ->
  forall k, (Z.of_nat (length (snd (serve T ltb window_start RATE_LIMIT calls st) k)) <= Z.max 0 RATE_LIMIT)%Z.
Proof.
  induction calls as [|[key now] rest IH]; intros st Hst k; [apply Hst|].
  cbn [serve].
  pose proof (rate_limiter_keeps_bound key now st Hst) as H1.
  destruct (rate_limiter T ltb window_start RATE_LIMIT key now st) as [ok st'].
  specialize (IH st' H1 k). destruct (serve T ltb window_start RATE_LIMIT rest st') as [log st''].
  exact IH.
Qed.

(** The requests of one key leave the deques of the other keys alone. *)
Lemma serve_other_keys (calls : list (str * T)) (k : str) :
  (forall c, In c calls -> fst c <> k) ->
  forall st, snd (serve T ltb window_start RATE_LIMIT calls st) k = st k.
Proof.
  induction calls as [|[key now] rest IH]; intros Hk st; [reflexivity|].
  cbn [serve].
  assert (Hne : k <> key).
  { intros ->. now apply (Hk (key, now) (or_introl eq_refl)). }
  assert (Hst : snd (rate_limiter T ltb window_start RATE_LIMIT key now st) k = st k).
  { unfold rate_limiter. destruct (_ <=? _)%Z; cbn [snd];
      now apply set_deque_other. }
  destruct (rate_limiter T ltb window_start RATE_LIMIT key now st) as [ok st']. cbn [snd] in Hst.
  specialize (IH (fun c Hc => Hk c (or_intror Hc)) st').
  destruct (serve T ltb window_start RATE_LIMIT rest st') as [log st'']. cbn [snd] in *. congruence.
Qed.

Lemma accepted_times_app (key : str) (l1 l2 : list (str * T * bool)) :
  accepted_times T key (l1 ++ l2) = accepted_times T key l1 ++ accepted_times T key l2.
Proof.
  induction l1 as [|[[k t] ok] l1 IH]; [reflexivity|].
  cbn [app accepted_times]. destruct (str_eqb k key && ok); cbn; now rewrite IH.
Qed.

Lemma window_count (key : str) (now : T) (log : list (str * T * bool)) :
  length (filter (in_window T ltb window_start key now) log) =
  length (filter (fun t => negb (ltb t (window_start now)))
                 (accepted_times T key log)).
Proof.
  induction log as [|[[k t] ok] log IH]; [reflexivity|].
  cbn [filter accepted_times in_window].
  destruct (str_eqb k key && ok); cbn [andb filter].
  - destruct (negb (ltb t (window_start now))); cbn [length]; now rewrite IH.
  - exact IH.
Qed.

Lemma filter_none (f : T -> bool) (l : list T) :
  (forall x, In x l -> f x = false) -> filter f l = [].
Proof.
  induction l as [|x l IH]; intros H; [reflexivity|].
  cbn [filter]. rewrite (H x) by now left.
  apply IH. intros y Hy. apply H. now right.
Qed.

Lemma rate_limiter_tracks (key : str) (now : T) (st : limiters T)
    (past : list (str * T * bool)) :
  tracks T ltb window_start st past ->
  tracks T ltb window_start (snd (rate_limiter T ltb window_start RATE_LIMIT key now st))
         (past ++ [(key, now, fst (rate_limiter T ltb window_start RATE_LIMIT key now st))]).
Proof.
  intros Htr k. destruct (Htr k) as (dropped & Eacc & Hdrop).
  destruct (prune_split (window_start now) (st key)) as (removed & Est & Hrem).
  assert (Hpast : forall d, In d dropped ->
            exists e, In e (past ++ [(key, now, fst (rate_limiter T ltb window_start RATE_LIMIT key now st))]) /\
                      ltb d (window_start (snd (fst e))) = true).
  { intros d Hd. destruct (Hdrop d Hd) as (e & He & Hlt).
    exists e. split; [apply in_or_app; now left | exact Hlt]. }
  rewrite accepted_times_app. cbn [accepted_times].
  destruct (list_eq_dec N.eq_dec k key) as [->|Hne].
  - rewrite str_eqb_refl. cbn [andb].
    exists (dropped ++ removed). split.
    + unfold rate_limiter. rewrite Eacc. rewrite Est at 1.
      destruct (_ <=? _)%Z; cbn [fst snd]; rewrite set_deque_same;
        now rewrite ?app_nil_r, <- ?app_assoc.
    + intros d Hd. apply in_app_or in Hd as [Hd|Hd]; [now apply Hpast|].
      exists (key, now, fst (rate_limiter T ltb window_start RATE_LIMIT key now st)). split.
      * apply in_or_app. right. now left.
      * cbn [fst snd]. now apply Hrem.
  - assert (E : str_eqb key k = false).
    { destruct (str_eqb key k) eqn:E; [|reflexivity].
      apply str_eqb_eq in E. congruence. }
    rewrite E. cbn [andb]. rewrite app_nil_r.
    exists dropped. split; [|exact Hpast].
    rewrite Eacc. f_equal. unfold rate_limiter.
    destruct (_ <=? _)%Z; cbn [snd]; now rewrite set_deque_other.
Qed.

(** When the clock does not go back and window starts follow the clock,
    a request is accepted only if, counting itself, at most [RATE_LIMIT]
    accepted requests of its key fall into its window. *)
Lemma serve_window (calls : list (str * T)) :
  (forall d s now, ltb d (window_start s) = true -> ltb now s = false ->
                   ltb d (window_start now) = true) ->
  forall st past,
  tracks T ltb window_start st past ->
  (forall e c, In e past -> In c calls -> ltb (snd c) (snd (fst e)) = false) ->
  ForallOrdPairs (fun a b => ltb (snd b) (snd a) = false) calls ->
  forall pre key now post,
  fst (serve T ltb window_start RATE_LIMIT calls st) = pre ++ (key, now, true) :: post ->
  (Z.of_nat (length (filter (in_window T ltb window_start key now)
                            (past ++ pre ++ [(key, now, true)])))
   <= RATE_LIMIT)%Z.
Proof.
  intros Hmono. induction calls as [|[k0 t0] rest IH];
    intros st past Htr Hpast Hord pre key now post Hlog.
  - destruct pre; discriminate.
  - cbn [serve] in Hlog.
    pose proof (rate_limiter_tracks k0 t0 st past Htr) as Htr'.
    destruct (rate_limiter T ltb window_start RATE_LIMIT k0 t0 st) as [ok st'] eqn:El. cbn [fst snd] in Htr'.
    destruct (serve T ltb window_start RATE_LIMIT rest st') as [log st''] eqn:Er. cbn [fst] in Hlog.
    inversion Hord as [|? ? Hfirst Hrest]; subst.
    destruct pre as [|e pre].
    + injection Hlog as -> -> -> _.
      rewrite !filter_app, !length_app, window_count.
      destruct (Htr key) as (dropped & Eacc & Hdrop).
      destruct (prune_split (window_start now) (st key)) as (removed & Est & Hrem).
      rewrite Eacc, Est, !filter_app, !length_app.
      rewrite (filter_none _ dropped), (filter_none _ removed).
      * unfold rate_limiter in El.
        destruct (RATE_LIMIT <=? _)%Z eqn:E; [discriminate|].
        apply Z.leb_gt in E.
        pose proof (filter_length_le (fun t => negb (ltb t (window_start now)))
                      (prune T ltb (window_start now) (st key))) as H1.
        pose proof (filter_length_le (in_window T ltb window_start key now)
                      [(key, now, true)]) as H2.
        set (n1 := length (filter (fun t => negb (ltb t (window_start now))) _)) in *.
        set (n2 := length (filter _ [(key, now, true)])) in *.
        cbn [length filter Nat.add] in H2 |- *. lia.
      * intros r Hr. now rewrite (Hrem r Hr).
      * intros d Hd. destruct (Hdrop d Hd) as (e & He & Hlt).
        rewrite (Hmono d (snd (fst e)) now Hlt); [reflexivity|].
        apply (Hpast e (key, now) He). now left.
    + injection Hlog as <- Hlog.
      replace (past ++ ((k0, t0, ok) :: pre) ++ [(key, now, true)])
        with ((past ++ [(k0, t0, ok)]) ++ pre ++ [(key, now, true)])
        by (now rewrite <- app_assoc).
      apply (IH st' (past ++ [(k0, t0, ok)]) Htr') with (post := post).
      * intros e c He Hc. apply in_app_or in He as [He|[<-|[]]].
        -- apply (Hpast e c He). now right.
        -- cbn [fst snd]. rewrite Forall_forall in Hfirst.
           now apply (Hfirst c).
      * exact Hrest.
      * now rewrite Er.
Qed.
End RateLimiterFacts.

Lemma tracks_nothing (T : Type) (ltb : T -> T -> bool) (window_start : T -> T) :
  tracks T ltb window_start (no_requests T) [].
Proof. intros k. exists []. split; [reflexivity | intros ? []]. Qed.

Lemma rate_limiter_local (T : Type) (ltb : T -> T -> bool)
    (window_start : T -> T) (RATE_LIMIT : Z) (key : str) (now : T)
    (st1 st2 : limiters T) :
  st1 key = st2 key ->
  fst (rate_limiter T ltb window_start RATE_LIMIT key now st1) =
  fst (rate_limiter T ltb window_start RATE_LIMIT key now st2) /\
  snd (rate_limiter T ltb window_start RATE_LIMIT key now st1) key =
  snd (rate_limiter T ltb window_start RATE_LIMIT key now st2) key.
Proof.
  intros E. unfold rate_limiter. rewrite E.
  destruct (_ <=? _)%Z; cbn [fst snd]; now rewrite !set_deque_same.
Qed.

Lemma serve_project (T : Type) (ltb : T -> T -> bool)
    (window_start : T -> T) (RATE_LIMIT : Z) (k : str)
    (calls : list (str * T)) :
  forall st1 st2 : limiters T,
  st1 k = st2 k ->
  filter (fun e => str_eqb (fst (fst e)) k)
         (fst (serve T ltb window_start RATE_LIMIT calls st1)) =
  fst (serve T ltb window_start RATE_LIMIT
         (filter (fun c => str_eqb (fst c) k) calls) st2) /\
  snd (serve T ltb window_start RATE_LIMIT calls st1) k =
  snd (serve T ltb window_start RATE_LIMIT
         (filter (fun c => str_eqb (fst c) k) calls) st2) k.
Proof.
  induction calls as [|[key now] rest IH]; intros st1 st2 E.
  - split; [reflexivity | exact E].
  - cbn [serve filter fst].
    destruct (str_eqb key k) eqn:Ek.
    + apply str_eqb_eq in Ek. subst key. cbn [serve].
      destruct (rate_limiter_local T ltb window_start RATE_LIMIT k now st1 st2 E)
        as [Hok Hst].
      destruct (rate_limiter T ltb window_start RATE_LIMIT k now st1) as [ok1 st1'].
      destruct (rate_limiter T ltb window_start RATE_LIMIT k now st2) as [ok2 st2'].
      cbn [fst snd] in Hok, Hst. subst ok2.
      specialize (IH st1' st2' Hst).
      destruct (serve T ltb window_start RATE_LIMIT rest st1') as [log1 s1].
      destruct (serve T ltb window_start RATE_LIMIT _ st2') as [log2 s2].
      cbn [fst snd filter] in *. rewrite str_eqb_refl.
      destruct IH as [-> ->]. now split.
    + assert (Hst : snd (rate_limiter T ltb window_start RATE_LIMIT key now st1) k = st2 k).
      { rewrite <- E. unfold rate_limiter.
        destruct (_ <=? _)%Z; cbn [snd]; apply set_deque_other;
          intros ->; now rewrite str_eqb_refl in Ek. }
      destruct (rate_limiter T ltb window_start RATE_LIMIT key now st1) as [ok1 st1'].
      cbn [snd] in Hst. specialize (IH st1' st2 Hst).
      destruct (serve T ltb window_start RATE_LIMIT rest st1') as [log1 s1].
      cbn [fst snd filter] in *. rewrite Ek. exact IH.
Qed.

(** X1 (rate_limiter, backend_api.py): whatever requests arrive and
    whatever the clock shows, the deque of a key never holds more than
    [RATE_LIMIT] times, and none at all when [RATE_LIMIT] is not
    positive. *)
Theorem rate_limiter_deques_bounded (T : Type) (ltb : T -> T -> bool)
    (window_start : T -> T) (RATE_LIMIT : Z) (calls : list (str * T))
    (k : str) :
  (Z.of_nat (length (snd (serve T ltb window_start RATE_LIMIT calls
                            (no_requests T)) k))
   <= Z.max 0 RATE_LIMIT)%Z.
Proof.
  apply serve_keeps_bound. intros k'. cbn. lia.
Qed.

(** X2 (rate_limiter, backend_api.py): the verdicts on the requests of
    one key, and the deque of that key, are what they would be had the
    requests of all other keys never been made. *)
Theorem rate_limiter_keys_independent (T : Type) (ltb : T -> T -> bool)
    (window_start : T -> T) (RATE_LIMIT : Z) (calls : list (str * T))
    (k : str) :
  filter (fun e => str_eqb (fst (fst e)) k)
         (fst (serve T ltb window_start RATE_LIMIT calls (no_requests T))) =
  fst (serve T ltb window_start RATE_LIMIT
         (filter (fun c => str_eqb (fst c) k) calls) (no_requests T)) /\
  snd (serve T ltb window_start RATE_LIMIT calls (no_requests T)) k =
  snd (serve T ltb window_start RATE_LIMIT
         (filter (fun c => str_eqb (fst c) k) calls) (no_requests T)) k.
Proof.
  destruct (serve_project T ltb window_start RATE_LIMIT k calls
              (no_requests T) (no_requests T) eq_refl) as [Hlog Hdeque].
  split; [exact Hlog | exact Hdeque].
Qed.

(** X3 (rate_limiter, backend_api.py): when the clock never goes back
    and the window start follows the clock, every accepted request has,
    counting itself, at most [RATE_LIMIT] accepted requests of its key
    in its window. *)
Theorem rate_limiter_window (T : Type) (ltb : T -> T -> bool)
    (window_start : T -> T) (RATE_LIMIT : Z) (calls : list (str * T))
    (pre post : list (str * T * bool)) (key : str) (now : T) :
  (forall d s t, ltb d (window_start s) = true -> ltb t s = false ->
                 ltb d (window_start t) = true) ->
  ForallOrdPairs (fun a b => ltb (snd b) (snd a) = false) calls ->
  fst (serve T ltb window_start RATE_LIMIT calls (no_requests T)) =
    pre ++ (key, now, true) :: post ->
  (Z.of_nat (length (filter (in_window T ltb window_start key now)
                            (pre ++ [(key, now, true)])))
   <= RATE_LIMIT)%Z.
Proof.
  intros Hmono Hord Hlog.
  apply (serve_window T ltb window_start RATE_LIMIT calls Hmono
           (no_requests T) [] (tracks_nothing T ltb window_start)
           (fun e c (He : In e []) _ => match He with end)
           Hord pre key now post Hlog).
Qed.

Lemma rate_limiter_window_witness :
  (Z.of_nat (length (filter (in_window Z Z.ltb (fun t => t - 60) (u "k") 70)
                            ([(u "k", 0, true); (u "k", 10, true);
                              (u "k", 20, false)] ++ [(u "k", 70, true)])))
   <= 2)%Z.
Proof.
  apply (rate_limiter_window Z Z.ltb (fun t => t - 60)%Z 2
           [(u "k", 0); (u "k", 10); (u "k", 20); (u "k", 70); (u "j", 71)]%Z
           [(u "k", 0, true); (u "k", 10, true); (u "k", 20, false)]%Z
           [(u "j", 71, true)]%Z (u "k") 70%Z).
  - intros d s t H1 H2. apply Z.ltb_lt in H1. apply Z.ltb_ge in H2.
    apply Z.ltb_lt. lia.
  - repeat constructor.
  - vm_compute. reflexivity.
Defined.

Lemma fop_app_r {A : Type} (R : A -> A -> Prop) (l1 l2 : list A) :
  ForallOrdPairs R (l1 ++ l2) -> ForallOrdPairs R l2.
Proof.
  induction l1 as [|x l1 IH]; intros H; [exact H|].
  inversion H; subst. now apply IH.
Qed.

Lemma fop_snoc {A : Type} (R : A -> A -> Prop) (l : list A) (x : A) :
  ForallOrdPairs R l -> (forall e, In e l -> R e x) ->
  ForallOrdPairs R (l ++ [x]).
Proof.
  induction 1 as [|a l Ha Hl IH]; intros Hx; cbn [app].
  - constructor; constructor.
  - constructor.
    + apply Forall_app. split; [exact Ha|].
      constructor; [|constructor]. apply Hx. now left.
    + apply IH. intros e He. apply Hx. now right.
Qed.

Lemma filter_all {A : Type} (f : A -> bool) (l : list A) :
  (forall x, In x l -> f x = true) -> filter f l = l.
Proof.
  induction l as [|x l IH]; intros H; [reflexivity|].
  cbn [filter]. rewrite (H x) by now left.
  f_equal. apply IH. intros y Hy. apply H. now right.
Qed.

Section RateLimiterFull.
Variable T : Type.
Variable ltb : T -> T -> bool.
Variable window_start : T -> T.
Variable RATE_LIMIT : Z.
Hypothesis ltb_trans : forall a b w,
  ltb a w = false -> ltb b a = false -> ltb b w = false.

Lemma accepted_times_In (key : str) (log : list (str * T * bool)) (t : T) :
  In t (accepted_times T key log) -> exists e, In e log /\ snd (fst e) = t.
Proof.
  induction log as [|[[k t'] ok] log IH]; cbn [accepted_times]; [intros []|].
  destruct (str_eqb k key && ok).
  - intros [<-|H].
    + exists (k, t', ok). split; [now left | reflexivity].
    + destruct (IH H) as (e & He & <-). exists e. split; [now right | reflexivity].
  - intros H. destruct (IH H) as (e & He & <-). exists e.
    split; [now right | reflexivity].
Qed.

Lemma accepted_times_sorted (key : str) (log : list (str * T * bool)) :
  ForallOrdPairs (fun a b => ltb (snd (fst b)) (snd (fst a)) = false) log ->
  ForallOrdPairs (fun a b => ltb b a = false) (accepted_times T key log).
Proof.
  induction 1 as [|[[k t] ok] log Ha Hl IH]; cbn [accepted_times]; [constructor|].
  destruct (str_eqb k key && ok); [|exact IH].
  constructor; [|exact IH].
  apply Forall_forall. intros t' Ht'.
  destruct (accepted_times_In key log t' Ht') as (e & He & <-).
  rewrite Forall_forall in Ha. exact (Ha e He).
Qed.

Lemma prune_kept (ws : T) (dq : list T) :
  ForallOrdPairs (fun a b => ltb b a = false) dq ->
  forall t, In t (prune T ltb ws dq) -> ltb t ws = false.
Proof.
  induction 1 as [|a dq Ha Hdq IH]; cbn [prune]; [intros ? []|].
  destruct (ltb a ws) eqn:E; [exact IH|].
  intros t [<-|Ht]; [exact E|].
  rewrite Forall_forall in Ha. apply (ltb_trans a t ws E). now apply Ha.
Qed.

(** When the clock does not go back, a request is turned away only if
    [RATE_LIMIT] accepted requests of its key fall into its window. *)
Lemma serve_window_full (calls : list (str * T)) :
  forall st past,
  tracks T ltb window_start st past ->
  ForallOrdPairs (fun a b => ltb (snd (fst b)) (snd (fst a)) = false) past ->
  (forall e c, In e past -> In c calls -> ltb (snd c) (snd (fst e)) = false) ->
  ForallOrdPairs (fun a b => ltb (snd b) (snd a) = false) calls ->
  forall pre key now post,
  fst (serve T ltb window_start RATE_LIMIT calls st) = pre ++ (key, now, false) :: post ->
  (RATE_LIMIT <=
   Z.of_nat (length (filter (in_window T ltb window_start key now) (past ++ pre))))%Z.
Proof.
  induction calls as [|[k0 t0] rest IH];
    intros st past Htr Hsorted Hpast Hord pre key now post Hlog.
  - destruct pre; discriminate.
  - cbn [serve] in Hlog.
    pose proof (rate_limiter_tracks T ltb window_start RATE_LIMIT k0 t0 st past Htr) as Htr'.
    destruct (rate_limiter T ltb window_start RATE_LIMIT k0 t0 st) as [ok st'] eqn:El.
    cbn [fst snd] in Htr'.
    destruct (serve T ltb window_start RATE_LIMIT rest st') as [log st''] eqn:Er.
    cbn [fst] in Hlog.
    inversion Hord as [|? ? Hfirst Hrest]; subst.
    destruct pre as [|e pre].
    + injection Hlog as -> -> -> _.
      rewrite app_nil_r, window_count.
      destruct (Htr key) as (dropped & Eacc & _).
      destruct (prune_split T ltb (window_start now) (st key)) as (removed & Est & _).
      pose proof (accepted_times_sorted key past Hsorted) as Hs.
      rewrite Eacc in Hs. apply fop_app_r in Hs.
      pose proof (prune_kept (window_start now) (st key) Hs) as Hkept.
      rewrite Eacc, Est, !filter_app, !length_app.
      rewrite (filter_all _ (prune T ltb (window_start now) (st key)))
        by (intros x Hx; now rewrite (Hkept x Hx)).
      unfold rate_limiter in El.
      destruct (RATE_LIMIT <=? _)%Z eqn:E; [|discriminate].
      apply Z.leb_le in E. lia.
    + injection Hlog as <- Hlog.
      replace (past ++ (k0, t0, ok) :: pre)
        with ((past ++ [(k0, t0, ok)]) ++ pre)
        by (now rewrite <- app_assoc).
      apply (IH st' (past ++ [(k0, t0, ok)]) Htr') with (post := post).
      * apply fop_snoc; [exact Hsorted|].
        intros e He. cbn [fst snd]. apply (Hpast e (k0, t0) He). now left.
      * intros e c He Hc. apply in_app_or in He as [He|[<-|[]]].
        -- apply (Hpast e c He). now right.
        -- cbn [fst snd]. rewrite Forall_forall in Hfirst.
           now apply (Hfirst c).
      * exact Hrest.
      * now rewrite Er.
Qed.
End RateLimiterFull.

(** X8 (rate_limiter, backend_api.py): when the clock never goes back, a
    request is turned away only if [RATE_LIMIT] accepted requests of its
    key already fall into its window; with the bound on the accepted
    requests this makes the limiter a sliding window that accepts a
    request exactly when fewer than [RATE_LIMIT] accepted ones lie in
    its window. *)
Theorem rate_limiter_rejects_full_window (T : Type) (ltb : T -> T -> bool)
    (window_start : T -> T) (RATE_LIMIT : Z) (calls : list (str * T))
    (pre post : list (str * T * bool)) (key : str) (now : T) :
  (forall a b w, ltb a w = false -> ltb b a = false -> ltb b w = false) ->
  ForallOrdPairs (fun a b => ltb (snd b) (snd a) = false) calls ->
  fst (serve T ltb window_start RATE_LIMIT calls (no_requests T)) =
    pre ++ (key, now, false) :: post ->
  (RATE_LIMIT <=
   Z.of_nat (length (filter (in_window T ltb window_start key now) pre)))%Z.
Proof.
  intros Htrans Hord Hlog.
  apply (serve_window_full T ltb window_start RATE_LIMIT Htrans calls
           (no_requests T) [] (tracks_nothing T ltb window_start)
           (FOP_nil _)
           (fun e c (He : In e []) _ => match He with end)
           Hord pre key now post Hlog).
Qed.

Lemma rate_limiter_rejects_full_window_witness :
  (2 <=
   Z.of_nat (length (filter (in_window Z Z.ltb (fun t => t - 60) (u "k") 20)
                            [(u "k", 0, true); (u "k", 10, true)])))%Z.
Proof.
  apply (rate_limiter_rejects_full_window Z Z.ltb (fun t => t - 60)%Z 2
           [(u "k", 0); (u "k", 10); (u "k", 20); (u "k", 70); (u "j", 71)]%Z
           [(u "k", 0, true); (u "k", 10, true)]%Z
           [(u "k", 70, true); (u "j", 71, true)]%Z (u "k") 20%Z).
  - intros a b w H1 H2. apply Z.ltb_ge in H1. apply Z.ltb_ge in H2.
    apply Z.ltb_ge. lia.
  - repeat constructor.
  - vm_compute. reflexivity.
Defined.

(** ** Requests with retries *)

Lemma requests_made_app (t1 t2 : list retry_event) :
  requests_made (t1 ++ t2) = (requests_made t1 + requests_made t2)%nat.
Proof. unfold requests_made. now rewrite filter_app, length_app. Qed.

Lemma sleeps_app (t1 t2 : list retry_event) :
  sleeps (t1 ++ t2) = sleeps t1 ++ sleeps t2.
Proof. unfold sleeps. apply flat_map_app. Qed.

Section RetryFacts.
Variable World : Type.
Variable request : World -> option (Z * str) * World.
Variable MAX_RETRIES : Z.
Variable RETRY_DELAY : Z.

Lemma retry_loop_spec (remaining : nat) :
  forall (attempt : Z) (w : World) (trace : list retry_event),
  (0 <= attempt)%Z ->
  (attempt + Z.of_nat remaining = Z.max 0 MAX_RETRIES)%Z ->
  let res := retry_loop World request MAX_RETRIES RETRY_DELAY remaining attempt w trace in
  let n := needed (attempts World request remaining w) in
  fst (fst res) = first_response (attempts World request remaining w) /\
  requests_made (snd res) = (requests_made trace + n)%nat /\
  sleeps (snd res) =
    sleeps trace ++
    map (fun i => (RETRY_DELAY * (attempt + Z.of_nat i))%Z) (seq 1 (pred n)).
Proof.
  induction remaining as [|m IH]; intros attempt w trace Hpos Hinv.
  - cbn. rewrite app_nil_r. now rewrite Nat.add_0_r.
  - cbn [retry_loop attempts].
    destruct (request w) as [[resp|] w'].
    + cbn [fst snd first_response needed pred seq map].
      rewrite requests_made_app, sleeps_app. cbn. now rewrite app_nil_r.
    + cbn [first_response needed pred].
      destruct (attempt <? MAX_RETRIES - 1)%Z eqn:E.
      * apply Z.ltb_lt in E.
        assert (Hm : m <> O) by lia.
        specialize (IH (attempt + 1)%Z w'
                      (trace ++ [Requested; Slept (RETRY_DELAY * (attempt + 1))])).
        destruct IH as (H1 & H2 & H3); [lia|lia|].
        split; [exact H1|]. split.
        -- rewrite H2, requests_made_app. cbn. lia.
        -- rewrite H3, sleeps_app. cbn [sleeps flat_map app].
           rewrite <- app_assoc. f_equal.
           destruct m as [|m']; [contradiction|].
           cbn [attempts]. destruct (request w') as [[r2|] w2];
             cbn [needed pred seq map app].
           ++ reflexivity.
           ++ change (Z.of_nat 1) with 1%Z. f_equal.
              rewrite <- (seq_shift _ 1), map_map.
              apply map_ext. intros i. f_equal. lia.
      * apply Z.ltb_ge in E.
        assert (Hm : m = O) by lia. subst m.
        cbn [fst snd attempts first_response needed pred seq map].
        rewrite requests_made_app, sleeps_app. cbn. now rewrite app_nil_r.
Qed.

Lemma total_sleep_schedule (n : nat) :
  (2 * fold_right Z.add 0
         (map (fun i => RETRY_DELAY * (0 + Z.of_nat i)) (seq 1 n))
   = RETRY_DELAY * Z.of_nat n * (Z.of_nat n + 1))%Z.
Proof.
  induction n as [|n IH]; [cbn; lia|].
  rewrite seq_S, map_app, fold_right_app. cbn [map fold_right].
  assert (Hgen : forall (l : list Z) (a : Z),
             (fold_right Z.add a l = fold_right Z.add 0 l + a)%Z).
  { induction l as [|x l IHl]; intros a; cbn; [lia|]. rewrite IHl. lia. }
  rewrite Hgen. lia.
Qed.
End RetryFacts.

(** X4 (_make_request_with_retry, enhanced_amazon_agent.py): the result
    is the answer of the first of [MAX_RETRIES] attempts that raises no
    exception, [None] when all of them raise or [MAX_RETRIES] is not
    positive, and the requests made are the failed attempts before it
    and that one: none is made after an answer. *)
Theorem retry_returns_first_answer (World : Type)
    (request : World -> option (Z * str) * World)
    (MAX_RETRIES RETRY_DELAY : Z) (w : World) :
  let res := make_request_with_retry World request MAX_RETRIES RETRY_DELAY w in
  let answers := attempts World request (Z.to_nat MAX_RETRIES) w in
  fst (fst res) = first_response answers /\
  requests_made (snd res) = needed answers /\
  (Z.of_nat (requests_made (snd res)) <= Z.max 0 MAX_RETRIES)%Z.
Proof.
  cbv zeta. unfold make_request_with_retry.
  destruct (retry_loop_spec World request MAX_RETRIES RETRY_DELAY
              (Z.to_nat MAX_RETRIES) 0 w []) as (H1 & H2 & _); [lia|lia|].
  split; [exact H1|]. split; [exact H2|].
  rewrite H2. cbn [requests_made filter length Nat.add].
  assert (Hn : forall k w', (needed (attempts World request k w') <= k)%nat).
  { induction k as [|k IHk]; intros w'; cbn [attempts needed]; [lia|].
    destruct (request w') as [[r|] w2]; cbn [needed]; [lia|].
    specialize (IHk w2). lia. }
  specialize (Hn (Z.to_nat MAX_RETRIES) w). lia.
Qed.

(** X5 (_make_request_with_retry, enhanced_amazon_agent.py): between the
    requests the loop sleeps [RETRY_DELAY], then twice, then three times
    that, and so on, and never after the last request; with [n] requests
    made the sleeps add up to [RETRY_DELAY * n * (n - 1) / 2]. *)
Theorem retry_backoff_schedule (World : Type)
    (request : World -> option (Z * str) * World)
    (MAX_RETRIES RETRY_DELAY : Z) (w : World) :
  let trace := snd (make_request_with_retry World request MAX_RETRIES RETRY_DELAY w) in
  let n := requests_made trace in
  sleeps trace = map (fun i => (RETRY_DELAY * Z.of_nat i)%Z) (seq 1 (pred n)) /\
  (2 * total_sleep trace = RETRY_DELAY * Z.of_nat n * (Z.of_nat n - 1))%Z.
Proof.
  cbv zeta. unfold make_request_with_retry.
  destruct (retry_loop_spec World request MAX_RETRIES RETRY_DELAY
              (Z.to_nat MAX_RETRIES) 0 w []) as (_ & H2 & H3); [lia|lia|].
  cbn [requests_made filter length Nat.add sleeps flat_map app] in H2, H3.
  unfold total_sleep. rewrite H3, H2.
  set (n := needed _).
  split; [apply map_ext; intros i; f_equal|].
  rewrite total_sleep_schedule.
  destruct n as [|n]; cbn [pred]; lia.
Qed.

(** ** Batches of the simple scraper *)

Lemma chunks_concat (batch_size : nat) :
  (0 < batch_size)%nat ->
  forall fuel urls, (length urls <= fuel)%nat ->
  concat (chunks fuel batch_size urls) = urls.
Proof.
  intros Hb. induction fuel as [|f IH]; intros urls Hlen.
  - destruct urls; [reflexivity | cbn in Hlen; lia].
  - cbn [chunks]. destruct urls as [|x rest]; [reflexivity|].
    cbn [concat]. rewrite IH.
    + apply firstn_skipn.
    + rewrite length_skipn. cbn [length] in *. lia.
Qed.

Lemma chunks_sizes (batch_size : nat) :
  (0 < batch_size)%nat ->
  forall fuel urls,
  Forall (fun batch => (1 <= length batch <= batch_size)%nat)
         (chunks fuel batch_size urls).
Proof.
  intros Hb. induction fuel as [|f IH]; intros urls; [constructor|].
  cbn [chunks]. destruct urls as [|x rest]; constructor; [|apply IH].
  rewrite length_firstn. cbn [length]. lia.
Qed.

Lemma chunks_count (batch_size : nat) :
  (0 < batch_size)%nat ->
  forall fuel urls, (length urls <= fuel)%nat ->
  length (chunks fuel batch_size urls) =
  ((length urls + batch_size - 1) / batch_size)%nat.
Proof.
  intros Hb. induction fuel as [|f IH]; intros urls Hlen.
  - destruct urls; [|cbn in Hlen; lia]. cbn.
    symmetry. apply Nat.div_small. lia.
  - cbn [chunks]. destruct urls as [|x rest].
    + cbn. symmetry. apply Nat.div_small. lia.
    + cbn [length]. rewrite IH by (rewrite length_skipn; cbn [length] in *; lia).
      rewrite length_skipn. cbn [length].
      destruct (Nat.le_gt_cases (S (length rest)) batch_size) as [Hle|Hgt].
      * replace (S (length rest) - batch_size)%nat with 0%nat by lia.
        cbn [Nat.add]. rewrite (Nat.div_small (batch_size - 1)) by lia.
        apply Nat.div_unique with (r := length rest); lia.
      * replace (S (length rest) + batch_size - 1)%nat
          with ((S (length rest) - batch_size + batch_size - 1) + 1 * batch_size)%nat
          by lia.
        rewrite Nat.div_add by lia. lia.
Qed.

Lemma batch_results_app (task : nat -> str -> task_result) (l1 l2 : list str) :
  forall first,
  batch_results task first (l1 ++ l2) =
  batch_results task first l1 ++ batch_results task (first + length l1) l2.
Proof.
  induction l1 as [|x l1 IH]; intros first.
  - cbn. now rewrite Nat.add_0_r.
  - cbn [app batch_results length]. rewrite IH.
    now rewrite Nat.add_succ_r.
Qed.

Lemma all_batches_concat (task : nat -> str -> task_result) (bs : list (list str)) :
  forall first, all_batches task first bs = batch_results task first (concat bs).
Proof.
  induction bs as [|b bs IH]; intros first; [reflexivity|].
  cbn [all_batches concat]. now rewrite batch_results_app, IH.
Qed.

Lemma batch_results_length (task : nat -> str -> task_result) (l : list str) :
  forall first, length (batch_results task first l) = length l.
Proof.
  induction l as [|x l IH]; intros first; [reflexivity|].
  cbn [batch_results length]. now rewrite IH.
Qed.

(** X6 (scrape_products_batch, simple_amazon_scraper.py): for a positive
    batch size the batches are the URL list cut into consecutive pieces:
    put together they are the list again, every batch has at least one
    and at most [batch_size] URLs, and their number is the one the
    progress message prints, the length plus [batch_size - 1] divided by
    [batch_size]. *)
Theorem batches_partition (urls : list str) (batch_size : Z) :
  (0 < batch_size)%Z ->
  exists bs,
    batches batch_size urls = Some bs /\
    concat bs = urls /\
    Forall (fun batch => (1 <= Z.of_nat (length batch) <= batch_size)%Z) bs /\
    Z.of_nat (length bs) = ((Z.of_nat (length urls) + batch_size - 1) / batch_size)%Z.
Proof.
  intros Hb. unfold batches.
  destruct (batch_size =? 0)%Z eqn:E0; [apply Z.eqb_eq in E0; lia|].
  destruct (batch_size <? 0)%Z eqn:E1; [apply Z.ltb_lt in E1; lia|].
  assert (Hn : (0 < Z.to_nat batch_size)%nat) by lia.
  eexists. split; [reflexivity|]. split; [|split].
  - now apply chunks_concat.
  - eapply Forall_impl; [|apply (chunks_sizes _ Hn)].
    cbv beta. intros batch H. lia.
  - rewrite (chunks_count _ Hn) by lia.
    rewrite Nat2Z.inj_div, Nat2Z.inj_sub by lia.
    rewrite Nat2Z.inj_add, Z2Nat.id by lia. reflexivity.
Qed.

Lemma batches_partition_witness :
  exists bs,
    batches 2 [u "a"; u "b"; u "c"; u "d"; u "e"] = Some bs /\
    concat bs = [u "a"; u "b"; u "c"; u "d"; u "e"] /\
    Forall (fun batch => (1 <= Z.of_nat (length batch) <= 2)%Z) bs /\
    Z.of_nat (length bs) =
      ((Z.of_nat (length [u "a"; u "b"; u "c"; u "d"; u "e"]) + 2 - 1) / 2)%Z.
Proof.
  apply (batches_partition [u "a"; u "b"; u "c"; u "d"; u "e"] 2). lia.
Defined.

(** X7 (scrape_products_batch, simple_amazon_scraper.py): whatever the
    batch size, the results are one entry per URL in the order of the
    URLs, the entry of a task that raised being the error record of its
    URL; except that a batch size of zero raises the [ValueError] of
    [range], and a negative one scrapes nothing and returns the empty
    list. *)
Theorem scrape_products_batch_in_order (task : nat -> str -> task_result)
    (urls : list str) (batch_size : Z) :
  scrape_products_batch task urls batch_size =
    (if (batch_size =? 0)%Z then None
     else if (batch_size <? 0)%Z then Some []
     else Some (batch_results task 0 urls)) /\
  length (batch_results task 0 urls) = length urls.
Proof.
  split; [|apply batch_results_length].
  unfold scrape_products_batch, batches.
  destruct (batch_size =? 0)%Z eqn:E0; [reflexivity|].
  destruct (batch_size <? 0)%Z eqn:E1; [reflexivity|].
  apply Z.eqb_neq in E0. apply Z.ltb_ge in E1.
  rewrite all_batches_concat, chunks_concat; [reflexivity | lia | lia].
Qed.

(** ** The direct fetch *)

Lemma AZ09_not_space (U : unicode) (c : cp) :
  ascii_AZ09 c = true -> py_isspace U c = false.
Proof.
  unfold ascii_AZ09, ascii_upper_letter, ascii_digit, py_isspace, is_ascii.
  intros H. cases_N; simpl in *; try discriminate; try reflexivity; lia.
Qed.

Lemma rstrip_last (U : unicode) (s : str) (c : cp) :
  py_isspace U c = false -> rstrip U (s ++ [c]) = s ++ [c].
Proof.
  intros Hc. induction s as [|a s IH].
  - cbn. now rewrite Hc.
  - cbn [app rstrip]. rewrite IH. now destruct (s ++ [c]) eqn:E; [destruct s|].
Qed.

Lemma py_strip_id (U : unicode) (a c : cp) (s : str) :
  py_isspace U a = false -> py_isspace U c = false ->
  py_strip U (a :: s ++ [c]) = a :: s ++ [c].
Proof.
  intros Ha Hc. unfold py_strip. cbn [lstrip]. rewrite Ha.
  apply (rstrip_last U (a :: s) c Hc).
Qed.

Lemma to_upper_AZ09 (s : str) :
  forallb ascii_AZ09 s = true -> map to_upper_ascii s = s.
Proof.
  induction s as [|c s IH]; [reflexivity|].
  cbn [forallb map]. intros H. apply andb_true_iff in H as [Hc Hs].
  rewrite (IH Hs). f_equal.
  unfold to_upper_ascii, ascii_AZ09, ascii_lower_letter, ascii_upper_letter,
    ascii_digit in *.
  cases_N; simpl in *; try discriminate; try reflexivity; lia.
Qed.

Lemma AZ09_alnum (s : str) :
  forallb ascii_AZ09 s = true -> forallb ascii_alnum s = true.
Proof.
  apply forallb_impl. intros c. unfold ascii_AZ09, ascii_alnum.
  destruct (ascii_upper_letter c), (ascii_digit c), (ascii_lower_letter c);
    now intros.
Qed.

(** A text without capital letters and digits, looked for in a text that
    ends in capital letters and digits, is found before them or not at
    all. *)
Lemma startswith_app_AZ09 (p s : str) :
  forallb (fun c => negb (ascii_AZ09 c)) p = true ->
  forallb ascii_AZ09 s = true ->
  forall x, startswith p (x ++ s) = startswith p x.
Proof.
  intros Hp Hs. induction p as [|a p IH]; intros x; [reflexivity|].
  cbn [forallb] in Hp. apply andb_true_iff in Hp as [Ha Hp].
  destruct x as [|b x]; cbn [app startswith].
  - destruct s as [|c s]; [reflexivity|].
    cbn [forallb] in Hs. apply andb_true_iff in Hs as [Hc _].
    destruct (N.eqb_spec a c) as [->|]; [|reflexivity].
    rewrite Hc in Ha. discriminate.
  - now rewrite (IH Hp).
Qed.

Lemma contains_app_AZ09 (p s : str) :
  forallb (fun c => negb (ascii_AZ09 c)) p = true ->
  forallb ascii_AZ09 s = true ->
  forall x, contains p (x ++ s) = contains p x.
Proof.
  intros Hp Hs. induction x as [|b x IH].
  - cbn [app]. induction s as [|c s IHs]; [reflexivity|].
    rewrite contains_unfold.
    pose proof (startswith_app_AZ09 p (c :: s) Hp Hs []) as H0.
    cbn [app] in H0. rewrite H0.
    cbn [forallb] in Hs. apply andb_true_iff in Hs as [_ Hs'].
    rewrite (IHs Hs').
    destruct p; reflexivity.
  - cbn [app].
    rewrite (contains_unfold p (b :: x ++ s)), (contains_unfold p (b :: x)).
    change (b :: x ++ s) with ((b :: x) ++ s).
    now rewrite (startswith_app_AZ09 p s Hp Hs), IH.
Qed.

Lemma get_amazon_domain_app (url asin : str) :
  forallb ascii_AZ09 asin = true ->
  get_amazon_domain (url ++ asin) = get_amazon_domain url.
Proof.
  intros H. unfold get_amazon_domain.
  rewrite !(fun p Hp => contains_app_AZ09 p asin Hp H url) by reflexivity.
  reflexivity.
Qed.

Lemma get_amazon_domain_known (url : str) :
  In (get_amazon_domain url) amazon_domains.
Proof.
  unfold get_amazon_domain, amazon_domains.
  repeat match goal with
         | |- context [if contains ?p url then _ else _] =>
             destruct (contains p url)
         end; cbn [In]; tauto.
Qed.

Lemma direct_page (U : unicode) (asin : str) :
  length asin = 10%nat -> forallb ascii_AZ09 asin = true ->
  Forall (fun domain =>
            extract_asin U (u "https://www." ++ domain ++ u "/dp/" ++ asin)
              = Some asin /\
            get_amazon_domain (u "https://www." ++ domain ++ u "/dp/" ++ asin)
              = domain)
         amazon_domains.
Proof.
  intros Hlen Hall.
  assert (Hz : exists body z, asin = body ++ [z] /\ ascii_AZ09 z = true).
  { destruct (exists_last (l := asin)) as (body & z & E);
      [intros ->; discriminate|].
    exists body, z. split; [exact E|].
    rewrite E, forallb_app in Hall. cbn in Hall.
    apply andb_true_iff in Hall as [_ Hz]. now rewrite andb_true_r in Hz. }
  destruct Hz as (body & z & Ebody & Hz).
  unfold amazon_domains.
  repeat (apply Forall_cons; [|]); [..|apply Forall_nil];
    (split;
     [ rewrite <- (to_upper_AZ09 asin Hall) at 2;
       match goal with
       | |- extract_asin U (?pre ++ ?d ++ ?m ++ asin) = _ =>
           assert (Hs : py_strip U (pre ++ d ++ m ++ asin)
                        = (pre ++ d) ++ m ++ asin ++ [])
             by (rewrite app_nil_r, <- app_assoc, Ebody;
                 apply (py_strip_id U (ch "h") z
                          (tl (pre ++ d ++ m) ++ body) eq_refl
                          (AZ09_not_space U z Hz)));
           apply (extract_asin_marker U _ (pre ++ d) m asin []
                    [] (tl asin_patterns) (ch "/"))
       end;
       [ reflexivity | exact Hs | now left | reflexivity | reflexivity
       | discriminate | exact Hlen | now apply AZ09_alnum
       | intros q []
       | rewrite Hs; intros j Hj;
         repeat (destruct j as [|j]; [vm_compute; reflexivity|]);
         vm_compute in Hj; lia ]
     | rewrite !app_assoc, get_amazon_domain_app by exact Hall;
       vm_compute; reflexivity ]).
Qed.

Lemma extract_asin_bare_witness :
  extract_asin caseless (u "  b08n5wrwnw ") =
    Some (map to_upper_ascii (py_strip caseless (u "  b08n5wrwnw "))) /\
  forallb ascii_AZ09 (map to_upper_ascii (py_strip caseless (u "  b08n5wrwnw ")))
    = true.
Proof.
  apply (extract_asin_bare caseless (u "  b08n5wrwnw ")); reflexivity.
Defined.

Lemma extract_asin_none_witness :
  extract_asin caseless (u "https://www.amazon.com/help/contact") = None.
Proof.
  apply (extract_asin_none caseless (u "https://www.amazon.com/help/contact"));
    reflexivity.
Defined.

Lemma rmatch_exact_tail (x : str) (f : Re.found) :
  Re.rmatch asin_exact x = Some f ->
  all_of ascii_AZ09 10 x = true /\ (skipn 10 x = [] \/ skipn 10 x = [10%N]).
Proof.
  unfold Re.rmatch, Re.at_pos, asin_exact. cbn [Seq Re.run].
  rewrite run_rep_exact_chr. destruct (all_of ascii_AZ09 10 x) eqn:E; [|discriminate].
  intros H. split; [reflexivity|].
  remember (skipn 10 x) as r eqn:Er. clear Er. cbn [Re.run] in H.
  destruct r as [|c [|d r]]; try discriminate; [now left|].
  revert H. destruct (N.eqb_spec c 10) as [Hc|Hc]; intros H;
    [subst c; now right | discriminate].
Qed.

Lemma rstrip_last_nonspace (U : unicode) (s : str) :
  forall body l, rstrip U s = body ++ [l] -> py_isspace U l = false.
Proof.
  induction s as [|c t IH]; intros body l H; cbn [rstrip] in H.
  - now destruct body.
  - destruct (rstrip U t) as [|d r].
    + destruct (py_isspace U c) eqn:E; [now destruct body|].
      destruct body as [|b [|b' body]]; try discriminate.
      now injection H as <-.
    + destruct body as [|b body]; [discriminate|].
      injection H as _ H. now apply (IH body l).
Qed.

Lemma upper_cp_last (U : unicode) (c : cp) :
  (forall c', is_ascii c' = false ->
              uc_upper U c' <> [] /\ ~ In 10%N (uc_upper U c')) ->
  py_isspace U c = false ->
  exists r d, upper_cp U c = r ++ [d] /\ d <> 10%N.
Proof.
  intros HU Hc. unfold upper_cp.
  destruct (ascii_lower_letter c) eqn:El.
  { exists [], (c - 32)%N. split; [reflexivity|].
    unfold ascii_lower_letter in El. cases_N; simpl in *; try discriminate; lia. }
  destruct (is_ascii c) eqn:Ea.
  { exists [], c. split; [reflexivity|]. intros ->. discriminate. }
  destruct (c =? 304)%N; [exists [], 304%N; split; [reflexivity | discriminate]|].
  destruct (c =? 305)%N; [exists [], 73%N; split; [reflexivity | discriminate]|].
  destruct (c =? 383)%N; [exists [], 83%N; split; [reflexivity | discriminate]|].
  destruct (c =? 8490)%N; [exists [], 8490%N; split; [reflexivity | discriminate]|].
  destruct (HU c Ea) as [Hne Hnl].
  destruct (exists_last Hne) as (r & d & E). exists r, d.
  split; [exact E|]. intros ->. apply Hnl. rewrite E.
  apply in_or_app. right. now left.
Qed.

(** X11 (extract_asin, enhanced_amazon_agent.py): whatever the input, an
    identifier that is returned has exactly ten characters, each a
    capital letter, a digit, U+0130 or U+212A; the two letters come from
    the URL patterns only.  The Unicode database is one in which the
    upper case of a character beyond ASCII is never empty and never has
    a line feed. *)
Theorem extract_asin_result_shape (U : unicode) (input_data a : str) :
  (forall c, is_ascii c = false ->
             uc_upper U c <> [] /\ ~ In 10%N (uc_upper U c)) ->
  extract_asin U input_data = Some a ->
  length a = 10%nat /\
  Forall (fun c => ascii_AZ09 c = true \/ c = 304%N \/ c = 8490%N) a.
Proof.
  intros HU. unfold extract_asin.
  destruct (Re.rmatch asin_exact _) as [f|] eqn:E;
    [|now apply url_identifier_shape].
  intros [= <-]. apply rmatch_exact_tail in E as [Hall Htail].
  apply all_of_spec in Hall as (Hlen & Hall & _).
  assert (Hend : skipn 10 (py_upper U (py_strip U input_data)) = []).
  { destruct Htail as [H|H]; [exact H | exfalso].
    destruct (exists_last (l := py_strip U input_data)) as (body & l & Es).
    { intros Es. rewrite Es in Hlen. discriminate. }
    unfold py_strip in Es.
    pose proof (rstrip_last_nonspace U _ body l Es) as Hl.
    destruct (upper_cp_last U l HU Hl) as (r & d & Eu & Hd).
    pose proof (firstn_skipn 10 (py_upper U (py_strip U input_data))) as Hx.
    rewrite H in Hx. unfold py_strip in Hx. rewrite Es in Hx.
    unfold py_upper in Hx. rewrite flat_map_app in Hx. cbn [flat_map] in Hx.
    rewrite app_nil_r, Eu, app_assoc in Hx.
    apply app_inj_tail in Hx as [_ Hx]. congruence. }
  rewrite <- (firstn_skipn 10 (py_upper U (py_strip U input_data))), Hend, app_nil_r.
  split; [exact Hlen|].
  apply Forall_forall. intros c Hc. left.
  rewrite forallb_forall in Hall. now apply Hall.
Qed.

Lemma extract_asin_result_shape_witness :
  length (u "B08N5WRWNW") = 10%nat /\
  Forall (fun c => ascii_AZ09 c = true \/ c = 304%N \/ c = 8490%N) (u "B08N5WRWNW").
Proof.
  apply (extract_asin_result_shape caseless
           (u "https://www.amazon.in/gp/product/b08n5wrwnw?th=1") (u "B08N5WRWNW")).
  - intros c Hc. split; [discriminate|].
    intros [->|[]]. discriminate.
  - vm_compute. reflexivity.
Defined.

(** X12 (fetch_with_direct_amazon, extract_asin, get_amazon_domain;
    enhanced_amazon_agent.py): the page requested for an identifier of
    ten capital letters and digits is a URL of that very product on the
    marketplace of the original input: the extractor finds the
    identifier in it, and its domain is the one resolved from the
    original input, the United States one when there is none. *)
Theorem direct_url_same_product (U : unicode) (asin : str)
    (original_url : option str) :
  length asin = 10%nat -> forallb ascii_AZ09 asin = true ->
  extract_asin U (direct_url asin original_url) = Some asin /\
  get_amazon_domain (direct_url asin original_url) =
    match original_url with
    | Some url => get_amazon_domain url
    | None => u "amazon.com"
    end.
Proof.
  intros Hlen Hall.
  pose proof (direct_page U asin Hlen Hall) as H.
  rewrite Forall_forall in H.
  destruct original_url as [[|c url]|].
  - apply (H (u "amazon.com")). unfold amazon_domains. cbn [In]. tauto.
  - apply (H (get_amazon_domain (c :: url))), get_amazon_domain_known.
  - apply (H (u "amazon.com")). unfold amazon_domains. cbn [In]. tauto.
Qed.

Lemma direct_url_same_product_witness :
  extract_asin caseless
    (direct_url (u "B08N5WRWNW")
       (Some (u "https://www.amazon.co.uk/gp/product/b08n5wrwnw?th=1")))
    = Some (u "B08N5WRWNW") /\
  get_amazon_domain
    (direct_url (u "B08N5WRWNW")
       (Some (u "https://www.amazon.co.uk/gp/product/b08n5wrwnw?th=1")))
    = get_amazon_domain (u "https://www.amazon.co.uk/gp/product/b08n5wrwnw?th=1").
Proof.
  apply (direct_url_same_product caseless (u "B08N5WRWNW")
           (Some (u "https://www.amazon.co.uk/gp/product/b08n5wrwnw?th=1")));
    reflexivity.
Defined.

(** ** The simple scraper *)

(** X13 (get_domain_currency, simple_amazon_scraper.py): the currency
    expected for a URL is never AUD, since a URL of the Australian
    marketplace has the United States fragment in it and that one is
    looked for first; and it is the currency that the agent expects for
    the URL, with USD where the agent expects none. *)
Theorem simple_domain_currency (url : str) :
  Simple.get_domain_currency url <> u "AUD" /\
  Simple.get_domain_currency url =
    match expected_currency_of url with
    | [] => u "USD"
    | code => code
    end.
Proof.
  unfold Simple.get_domain_currency, expected_currency_of.
  destruct (contains (u "amazon.in") url); [split; [discriminate | reflexivity]|].
  destruct (contains (u "amazon.com") url) eqn:Hcom;
    [split; [discriminate | reflexivity]|].
  destruct (contains (u "amazon.co.uk") url); [split; [discriminate | reflexivity]|].
  destruct (contains (u "amazon.de") url); [split; [discriminate | reflexivity]|].
  destruct (contains (u "amazon.ca") url); [split; [discriminate | reflexivity]|].
  destruct (contains (u "amazon.com.au") url) eqn:Hau;
    [|split; [discriminate | reflexivity]].
  change (u "amazon.com.au") with (u "amazon.com" ++ u ".au") in Hau.
  apply contains_prefix in Hau. congruence.
Qed.

Lemma run_lit {A : Type} (m : str) :
  forall i s g (k : Re.cont A),
  Re.run (Lit m) i s g k =
  if startswith m s then k (length m + i)%nat (skipn (length m) s) g else None.
Proof.
  induction m as [|a m IH]; intros i s g k; [reflexivity|].
  cbn [Lit Re.run]. destruct s as [|c t]; [reflexivity|].
  cbn [startswith skipn length]. unfold is_cp at 1.
  rewrite N.eqb_sym. destruct (a =? c)%N; [|reflexivity].
  rewrite IH. cbn [andb]. now rewrite Nat.add_succ_r.
Qed.

Lemma simple_asin_at (marker : str) (i : nat) (s : str) (f : Re.found) :
  Re.at_pos (Cat (Lit marker) Simple.asin_group) i s = Some f ->
  length (Re.m_group f) = 10%nat /\
  forallb ascii_AZ09 (Re.m_group f) = true /\
  exists post, s = marker ++ Re.m_group f ++ post.
Proof.
  unfold Re.at_pos, Simple.asin_group. cbn [Re.run]. rewrite run_lit.
  destruct (startswith marker s) eqn:Es; [|discriminate].
  destruct (startswith_split _ _ Es) as [t ->].
  rewrite skipn_app_exact. cbn [Re.run]. rewrite run_rep_exact_chr.
  destruct (all_of ascii_AZ09 10 t) eqn:E; [|discriminate].
  apply all_of_spec in E as (Hlen & Hall & Hdiff).
  rewrite Hdiff.
  pose proof (firstn_skipn 10 t) as Ht.
  remember (firstn 10 t) as id eqn:Eid. remember (skipn 10 t) as post eqn:Epost.
  intros [= <-]. cbn [Re.m_group].
  split; [exact Hlen|]. split; [exact Hall|].
  exists post. now rewrite Ht.
Qed.

Lemma simple_first_group (markers : list str) (url a : str) :
  Simple.first_group (map (fun marker => Cat (Lit marker) Simple.asin_group) markers) url
    = Some a ->
  length a = 10%nat /\ forallb ascii_AZ09 a = true /\
  exists pre marker post, In marker markers /\ url = pre ++ marker ++ a ++ post.
Proof.
  induction markers as [|marker markers IH]; cbn [map Simple.first_group];
    [discriminate|].
  destruct (Re.search _ url) as [f|] eqn:E.
  - intros [= <-]. apply search_from_suffix in E as (pre & t & -> & E).
    apply simple_asin_at in E as (Hlen & Hall & post & ->).
    split; [exact Hlen|]. split; [exact Hall|].
    exists pre, marker, post. split; [now left | reflexivity].
  - intros H. destruct (IH H) as (Hlen & Hall & pre & m & post & Hin & ->).
    split; [exact Hlen|]. split; [exact Hall|].
    exists pre, m, post. split; [now right | reflexivity].
Qed.

(** X14 (extract_asin, simple_amazon_scraper.py): an identifier that the
    simple scraper extracts is ten capital letters and digits that stand
    in the URL right after one of the three markers. *)
Theorem simple_extract_asin_shape (url a : str) :
  Simple.extract_asin url = Some a ->
  length a = 10%nat /\ forallb ascii_AZ09 a = true /\
  exists pre marker post,
    In marker Simple.asin_markers /\ url = pre ++ marker ++ a ++ post.
Proof.
  unfold Simple.extract_asin, Simple.asin_patterns. intros H.
  destruct (simple_first_group Simple.asin_markers url a H)
    as (Hlen & Hall & pre & marker & post & Hin & Hurl).
  split; [exact Hlen|]. split; [exact Hall|].
  now exists pre, marker, post.
Qed.

Lemma simple_extract_asin_shape_witness :
  length (u "B08N5WRWNW") = 10%nat /\ forallb ascii_AZ09 (u "B08N5WRWNW") = true /\
  exists pre marker post,
    In marker Simple.asin_markers /\
    u "https://www.amazon.in/gp/product/B08N5WRWNW?th=1"
      = pre ++ marker ++ u "B08N5WRWNW" ++ post.
Proof.
  apply (simple_extract_asin_shape
           (u "https://www.amazon.in/gp/product/B08N5WRWNW?th=1") (u "B08N5WRWNW")).
  vm_compute. reflexivity.
Defined.

Lemma lstrip_keeps (U : unicode) (c : cp) (rest : str) :
  py_isspace U c = false ->
  forall pre, exists pre', lstrip U (pre ++ c :: rest) = pre' ++ c :: rest.
Proof.
  intros Hc. induction pre as [|a pre [pre' IH]].
  - exists []. cbn. now rewrite Hc.
  - cbn [app lstrip]. destruct (py_isspace U a).
    + now exists pre'.
    + now exists (a :: pre).
Qed.

Lemma rstrip_keeps (U : unicode) (c : cp) (post : str) :
  py_isspace U c = false ->
  forall x, exists post', rstrip U (x ++ c :: post) = x ++ c :: post'.
Proof.
  intros Hc. induction x as [|a x [post' IH]].
  - cbn [app rstrip]. destruct (rstrip U post) as [|d r].
    + exists []. now rewrite Hc.
    + now exists (d :: r).
  - cbn [app rstrip]. rewrite IH. exists post'.
    now destruct x.
Qed.

Lemma search_from_complete (r : regex) (pre t : str) (f : Re.found) :
  forall i,
  Re.at_pos r (i + length pre) t = Some f ->
  exists f', Re.search_from r i (pre ++ t) = Some f'.
Proof.
  induction pre as [|c pre IH]; intros i H.
  - cbn [app length] in *. rewrite Nat.add_0_r in H.
    exists f. destruct t; cbn [Re.search_from]; now rewrite H.
  - cbn [app Re.search_from].
    destruct (Re.at_pos r i (c :: pre ++ t)) as [f0|]; [now exists f0|].
    apply IH. cbn [length] in H. now rewrite Nat.add_succ_r in H.
Qed.

Lemma first_asin_match_some (U : unicode) (s : str) (p : regex) (f : Re.found)
    (patterns : list regex) :
  In p patterns -> Re.search p s = Some f ->
  exists r, first_asin_match U patterns s = Some r.
Proof.
  induction patterns as [|q patterns IH]; intros Hin Hs; [destruct Hin|].
  cbn [first_asin_match]. destruct (Re.search q s) as [f0|] eqn:E; [eauto|].
  destruct Hin as [->|Hin]; [congruence | now apply IH].
Qed.

Lemma AZ09_AZ09_i (s : str) :
  forallb ascii_AZ09 s = true -> forallb AZ09_i s = true.
Proof.
  intros H. apply (forallb_impl ascii_alnum); [|now apply AZ09_alnum].
  intros c Hc. apply to_upper_AZ09_back; [now apply alnum_is_ascii|].
  now apply to_upper_alnum.
Qed.

(** X15 (extract_asin of both files): a URL from which the simple
    scraper extracts an identifier is one from which the agent extracts
    an identifier too. *)
Theorem agent_accepts_simple_urls (U : unicode) (url a : str) :
  Simple.extract_asin url = Some a ->
  exists b, extract_asin U url = Some b.
Proof.
  intros H. apply (simple_first_group Simple.asin_markers) in H
    as (Hlen & Hall & pre & marker & post & Hin & ->).
  assert (Hm : exists mid, marker = ch "/" :: mid).
  { unfold Simple.asin_markers in Hin. cbn [In] in Hin.
    destruct Hin as [<-|[<-|[<-|[]]]]; eexists; vm_compute; reflexivity. }
  destruct Hm as [mid ->].
  destruct (exists_last (l := a)) as (body & z & ->); [intros ->; discriminate|].
  assert (Hz : py_isspace U z = false).
  { apply AZ09_not_space. rewrite forallb_app in Hall. cbn in Hall.
    apply andb_true_iff in Hall as [_ Hz]. now rewrite andb_true_r in Hz. }
  destruct (lstrip_keeps U (ch "/") (mid ++ (body ++ [z]) ++ post) eq_refl pre)
    as [pre' El].
  destruct (rstrip_keeps U z post Hz (pre' ++ ch "/" :: mid ++ body))
    as [post' Er].
  assert (Hs : py_strip U (pre ++ (ch "/" :: mid) ++ (body ++ [z]) ++ post)
               = pre' ++ (ch "/" :: mid) ++ (body ++ [z]) ++ post').
  { unfold py_strip. cbn [app] in *. rewrite El.
    replace (pre' ++ ch "/" :: mid ++ (body ++ [z]) ++ post)
      with ((pre' ++ ch "/" :: mid ++ body) ++ z :: post)
      by (now rewrite <- !app_assoc; cbn [app]; rewrite <- !app_assoc).
    rewrite Er. now rewrite <- !app_assoc; cbn [app]; rewrite <- !app_assoc. }
  unfold extract_asin. rewrite Hs.
  destruct (Re.rmatch asin_exact _) as [f|] eqn:E; [eauto|].
  destruct (at_pos_marker (ch "/" :: mid) (body ++ [z]) post' (0 + length pre')
              Hlen (AZ09_AZ09_i _ Hall)) as (f & Hat & _).
  destruct (search_from_complete _ pre' _ f 0 Hat) as [f' Hf'].
  apply (first_asin_match_some U _ (Cat (Lit_i (ch "/" :: mid)) asin_group) f');
    [|exact Hf'].
  unfold Simple.asin_markers in Hin. cbn [In] in Hin.
  destruct Hin as [Hin|[Hin|[Hin|[]]]]; rewrite <- Hin;
    unfold asin_patterns; cbn [Seq In]; tauto.
Qed.

Lemma agent_accepts_simple_urls_witness :
  exists b, extract_asin caseless (u " https://www.amazon.in/DP/abcdefghij/dp/B08N5WRWNW")
            = Some b.
Proof.
  apply (agent_accepts_simple_urls caseless
           (u " https://www.amazon.in/DP/abcdefghij/dp/B08N5WRWNW") (u "B08N5WRWNW")).
  vm_compute. reflexivity.
Defined.

(** The two extractors need not agree on the identifier. *)
Example extractors_disagree :
  Simple.extract_asin (u "https://www.amazon.in/DP/abcdefghij/dp/B08N5WRWNW")
    = Some (u "B08N5WRWNW") /\
  extract_asin caseless (u "https://www.amazon.in/DP/abcdefghij/dp/B08N5WRWNW")
    = Some (u "ABCDEFGHIJ").
Proof. split; vm_compute; reflexivity. Qed.

Section SimplePrices.
Variable U : unicode.


Lemma simple_by_match (m expected_currency clean_match : str)
    (r : Simple.price_result) :
  Simple.is_valid_price U clean_match = true ->
  Simple.by_match m expected_currency clean_match = Some r ->
  Simple.priced_result U r.
Proof.
  intros Hv. unfold Simple.by_match, Simple.priced_result.
  destruct (_ || _);
    [intros [= <-]; exists (u "INR"), Simple.rupee, clean_match;
     split; [vm_compute; tauto | now split]|].
  destruct (_ || _);
    [intros [= <-]; exists (u "USD"), (u "$"), clean_match;
     split; [vm_compute; tauto | now split]|].
  destruct (_ || _);
    [intros [= <-]; exists (u "GBP"), Simple.pound, clean_match;
     split; [vm_compute; tauto | now split]|].
  destruct (_ || _);
    [intros [= <-]; exists (u "EUR"), Simple.euro, clean_match;
     split; [vm_compute; tauto | now split]|].
  destruct (_ || _);
    [intros [= <-]; exists (u "CAD"), (u "C$"), clean_match;
     split; [vm_compute; tauto | now split]|].
  destruct (_ || _);
    [intros [= <-]; exists (u "AUD"), (u "A$"), clean_match;
     split; [vm_compute; tauto | now split]|].
  discriminate.
Qed.

Lemma simple_product_matches (matches : list str) (expected_currency : str)
    (r : Simple.price_result) :
  Simple.product_matches U matches expected_currency = Some r -> Simple.priced_result U r.
Proof.
  induction matches as [|m rest IH]; cbn [Simple.product_matches]; [discriminate|].
  destruct (Simple.is_valid_price U (clean_price_of U m)) eqn:Hv; [|exact IH].
  destruct (Simple.by_match m expected_currency _) as [r'|] eqn:E; [|exact IH].
  intros [= <-]. exact (simple_by_match _ _ _ _ Hv E).
Qed.

Lemma simple_product_pass (patterns : list regex) (html expected_currency : str)
    (r : Simple.price_result) :
  Simple.product_pass U patterns html expected_currency = Some r -> Simple.priced_result U r.
Proof.
  induction patterns as [|p rest IH]; cbn [Simple.product_pass]; [discriminate|].
  destruct (Simple.product_matches U _ expected_currency) as [r'|] eqn:E; [|exact IH].
  intros [= <-]. exact (simple_product_matches _ _ _ E).
Qed.

Lemma simple_currency_pass (code : str) (patterns : list regex) (html : str)
    (r : Simple.price_result) :
  In (code, dict_get Simple.currency_symbols code []) Simple.currency_symbols ->
  Simple.currency_pass U code patterns html = Some r -> Simple.priced_result U r.
Proof.
  intros Hcode.
  assert (Hm : forall matches,
             Simple.currency_matches U code matches = Some r -> Simple.priced_result U r).
  { induction matches as [|m rest IH]; cbn [Simple.currency_matches]; [discriminate|].
    destruct (Simple.is_valid_price U m) eqn:Hv; [|exact IH].
    intros [= <-]. exists code, (dict_get Simple.currency_symbols code []), m.
    now repeat split. }
  induction patterns as [|p rest IH]; cbn [Simple.currency_pass]; [discriminate|].
  destruct (Simple.currency_matches U code _) as [r'|] eqn:E; [|exact IH].
  intros [= <-]. exact (Hm _ E).
Qed.

Lemma simple_table_codes :
  Forall (fun entry =>
            In (fst entry, dict_get Simple.currency_symbols (fst entry) [])
               Simple.currency_symbols)
         (Simple.price_patterns U).
Proof.
  unfold Simple.price_patterns.
  repeat (apply Forall_cons; [vm_compute; tauto|]). apply Forall_nil.
Qed.

Lemma simple_patterns_of (table : list (str * list regex)) (code : str)
    (patterns : list regex) :
  Simple.patterns_of table code = Some patterns -> In (code, patterns) table.
Proof.
  induction table as [|[k ps] rest IH]; cbn [Simple.patterns_of]; [discriminate|].
  destruct (str_eqb k code) eqn:E.
  - apply str_eqb_eq in E. subst k. intros [= <-]. now left.
  - intros H. right. now apply IH.
Qed.

Lemma simple_all_currencies (table : list (str * list regex)) (html : str)
    (r : Simple.price_result) :
  Forall (fun entry =>
            In (fst entry, dict_get Simple.currency_symbols (fst entry) [])
               Simple.currency_symbols) table ->
  Simple.all_currencies U table html = Some r -> Simple.priced_result U r.
Proof.
  induction 1 as [|[code ps] rest Hcode _ IH]; cbn [Simple.all_currencies];
    [discriminate|].
  destruct (Simple.currency_pass U code ps html) as [r'|] eqn:E; [|exact IH].
  intros [= <-]. exact (simple_currency_pass code ps html _ Hcode E).
Qed.

End SimplePrices.

(** X16 (extract_price_from_html, simple_amazon_scraper.py): whatever
    the page and the expected currency, the result is either the record
    of two empty strings or a currency code of the scraper's table with,
    as price, the sign that the table has for this code followed by a
    number that the scraper's own validation accepts; the signs of
    rupee, pound and euro are the misread byte sequences of the file. *)
Theorem simple_price_invariant (U : unicode) (html expected_currency : str) :
  Simple.extract_price_from_html U html expected_currency = Simple.no_result \/
  exists code symbol value,
    In (code, symbol) Simple.currency_symbols /\
    Simple.extract_price_from_html U html expected_currency
      = Simple.mk_result (symbol ++ value) code /\
    Simple.is_valid_price U value = true.
Proof.
  change (Simple.extract_price_from_html U html expected_currency = Simple.no_result \/
          Simple.priced_result U (Simple.extract_price_from_html U html expected_currency)).
  unfold Simple.extract_price_from_html.
  destruct (Simple.product_pass U _ html expected_currency) as [r|] eqn:E1.
  { right. exact (simple_product_pass U _ _ _ _ E1). }
  destruct (Simple.patterns_of _ expected_currency) as [ps|] eqn:Ep.
  - destruct (Simple.currency_pass U expected_currency ps _) as [r|] eqn:E2.
    + right.
      apply (simple_currency_pass U expected_currency ps (Simple.cleaned_html U html) r);
        [|exact E2].
      apply simple_patterns_of in Ep.
      pose proof (simple_table_codes U) as Ht. rewrite Forall_forall in Ht.
      exact (Ht _ Ep).
    + destruct (Simple.all_currencies U _ _) as [r|] eqn:E3; [|now left].
      right. exact (simple_all_currencies U _ _ _ (simple_table_codes U) E3).
  - destruct (Simple.all_currencies U _ _) as [r|] eqn:E3; [|now left].
    right. exact (simple_all_currencies U _ _ _ (simple_table_codes U) E3).
Qed.

(** A page that shows a price with the rupee sign, read for a URL of
    the Indian marketplace, and the same with a dollar price for the
    Canadian one. *)
Example simple_price_examples :
  Simple.extract_price_from_html caseless
    (u "<span class=" ++ [dquote] ++ u "a-offscreen" ++ [dquote] ++ u ">" ++ [8377%N]
       ++ u "1,299</span>") (u "INR")
    = Simple.mk_result (Simple.rupee ++ u "1,299") (u "INR") /\
  Simple.extract_price_from_html caseless
    (u "<span class=" ++ [dquote] ++ u "a-offscreen" ++ [dquote] ++ u ">C$ 12.50</span>") (u "CAD")
    = Simple.mk_result (u "$12.50") (u "USD").
Proof. split; vm_compute; reflexivity. Qed.

(** ** Descriptions and names *)

(** X17 (_clean_description, enhanced_amazon_agent.py): whatever the
    input, the cleaned description has its white space normalised: none
    at the ends, and inside only single spaces; stripping it or
    collapsing its white space again changes nothing. *)
Theorem clean_description_normalised (U : unicode) (description : str) :
  tidy U (clean_description U description) = true /\
  py_strip U (clean_description U description) = clean_description U description /\
  Re.sub (spaces_re U) (u " ") (clean_description U description)
    = clean_description U description.
Proof.
  pose proof (clean_description_tidy U description) as H.
  destruct (tidy_fixed U _ H) as [Hsq Hst].
  split; [exact H|]. split; [exact Hst|].
  now rewrite (sub_spaces U (clean_description U description)).
Qed.





(** A pattern that matches an empty element gives the empty text, and an
    empty text of a later pattern replaces a short one of an earlier
    pattern. *)
Example empty_description_kept :
  enhanced_description caseless
    (u "<div id=" ++ [dquote] ++ u "feature-bullets" ++ [dquote] ++ u "></div>")
    = [] /\
  enhanced_description caseless
    (u "<div id=" ++ [dquote] ++ u "feature-bullets" ++ [dquote]
       ++ u ">Loud</div><span class=" ++ [dquote] ++ u "a-list-item" ++ [dquote]
       ++ u "></span>")
    = [].
Proof. split; vm_compute; reflexivity. Qed.

(** A short description of the last matching pattern is kept. *)
Example short_description_kept :
  enhanced_description caseless
    (u "<div id=" ++ [dquote] ++ u "feature-bullets" ++ [dquote]
       ++ u ">Loud</div><span class=" ++ [dquote] ++ u "a-list-item" ++ [dquote]
       ++ u ">Small</span>")
    = u "Small".
Proof. vm_compute. reflexivity. Qed.

Lemma names_agree (U : unicode) (html : str) (patterns : list regex) :
  match Simple.first_name U patterns html with
  | Some name => name = firstn 200 (title_loop U patterns html)
  | None =>
      title_loop U patterns html = [] /\
      forall p, In p patterns -> Re.search p html = None
  end.
Proof.
  induction patterns as [|p rest IH]; cbn [Simple.first_name title_loop].
  - split; [reflexivity | intros p []].
  - destruct (Re.search p html) as [m|] eqn:E; [reflexivity|].
    destruct (Simple.first_name U rest html); [exact IH|].
    destruct IH as [H1 H2]. split; [exact H1|].
    intros q [<-|Hq]; [exact E | now apply H2].
Qed.

(** X19 (extract_product_name, simple_amazon_scraper.py, and
    _parse_amazon_html_enhanced, enhanced_amazon_agent.py): on every
    page the simple scraper's product name is the first 200 characters
    of the name that the agent's parser extracts; unless no title
    pattern matches, where the agent has the empty name and the simple
    scraper its fixed text. *)
Theorem product_names_agree (U : unicode) (html : str) :
  Simple.extract_product_name U html = firstn 200 (enhanced_product_name U html) \/
  (Simple.extract_product_name U html = u "Product name not found" /\
   enhanced_product_name U html = [] /\
   forall p, In p (title_patterns (length html)) -> Re.search p html = None).
Proof.
  unfold Simple.extract_product_name, enhanced_product_name.
  change (Simple.title_patterns (length html)) with (title_patterns (length html)).
  pose proof (names_agree U html (title_patterns (length html))) as H.
  destruct (Simple.first_name U _ html) as [name|]; [now left|].
  right. destruct H as [H1 H2]. now repeat split.
Qed.

Section SimpleDescription.
Variable U : unicode.

Lemma clean_parts_long (description_parts : list str) :
  forall cleaned_parts,
  Forall (fun c => (10 < length c)%nat) cleaned_parts ->
  Forall (fun c => (10 < length c)%nat)
         (Simple.clean_parts U description_parts cleaned_parts).
Proof.
  induction description_parts as [|part rest IH]; intros acc Hacc; [exact Hacc|].
  cbn [Simple.clean_parts].
  destruct (10 <? length _)%nat eqn:E; cbn [andb]; [|now apply IH].
  destruct (negb _); [|now apply IH].
  apply IH, Forall_app. split; [exact Hacc|].
  constructor; [now apply Nat.ltb_lt | constructor].
Qed.

Lemma join_long (sep : str) (parts : list str) :
  parts <> [] -> Forall (fun c => (10 < length c)%nat) parts ->
  (10 < length (Simple.join sep parts))%nat.
Proof.
  destruct parts as [|part rest]; [congruence|].
  intros _ H. inversion H as [|? ? Hpart Hrest]; subst.
  cbn [Simple.join]. destruct rest; [exact Hpart|].
  rewrite length_app. lia.
Qed.

End SimpleDescription.

(** X20 (extract_description_from_html, simple_amazon_scraper.py):
    whatever elements the selectors find, the description is never empty
    and never longer than 500 characters. *)
Theorem simple_description_bounded (U : unicode) (selected : list (list str)) :
  (0 < length (Simple.extract_description_from_html U selected) <= 500)%nat.
Proof.
  unfold Simple.extract_description_from_html, Simple.combine.
  set (description_parts := Simple.select_parts selected).
  pose proof (clean_parts_long U description_parts [] (Forall_nil _)) as H.
  destruct (Simple.clean_parts U description_parts []) as [|c cs] eqn:E;
    [vm_compute; lia|].
  cbv zeta.
  assert (Hj : (10 < length (Simple.join (u " | ") (firstn 3 (c :: cs))))%nat).
  { apply join_long; [discriminate|].
    assert (H' : Forall (fun x : str => (10 < length x)%nat) (c :: cs))
      by (rewrite <- E; exact H).
    rewrite <- (firstn_skipn 3 (c :: cs)) in H'.
    now apply Forall_app in H' as [H' _]. }
  destruct (500 <? _)%nat eqn:El.
  - apply Nat.ltb_lt in El.
    rewrite length_app, length_firstn.
    change (length (u "...")) with 3%nat. lia.
  - apply Nat.ltb_ge in El. lia.
Qed.

(** ** The summary of the simple scraper *)

Lemma count_currency_sum (currencies : list (str * nat)) (currency : str) :
  fold_right (fun e a => (snd e + a)%nat) 0%nat
             (Simple.count_currency currencies currency)
  = S (fold_right (fun e a => (snd e + a)%nat) 0%nat currencies).
Proof.
  induction currencies as [|[k count] rest IH]; [reflexivity|].
  cbn [Simple.count_currency]. destruct (str_eqb k currency); cbn [fold_right snd].
  - reflexivity.
  - rewrite IH. lia.
Qed.

Lemma count_currency_keys (currencies : list (str * nat)) (currency k : str) :
  In k (map fst (Simple.count_currency currencies currency)) <->
  k = currency \/ In k (map fst currencies).
Proof.
  induction currencies as [|[k0 count] rest IH]; cbn [Simple.count_currency map fst In].
  - split; [intros [<-|[]]; now left | intros [->|[]]; now left].
  - destruct (str_eqb k0 currency) eqn:E; cbn [map fst In].
    + apply str_eqb_eq in E. subst k0. intuition congruence.
    + rewrite IH. intuition congruence.
Qed.

Lemma count_currency_NoDup (currencies : list (str * nat)) (currency : str) :
  NoDup (map fst currencies) ->
  NoDup (map fst (Simple.count_currency currencies currency)).
Proof.
  induction currencies as [|[k0 count] rest IH]; cbn [Simple.count_currency map fst].
  - intros _. constructor; [intros [] | constructor].
  - intros H. inversion H as [|? ? Hnot Hrest]; subst.
    destruct (str_eqb k0 currency) eqn:E; cbn [map fst].
    + now constructor.
    + constructor; [|now apply IH].
      rewrite count_currency_keys. intros [->|Hin]; [|contradiction].
      now rewrite str_eqb_refl in E.
Qed.

Lemma currency_distribution_spec (results : list dict) :
  forall currencies,
  NoDup (map fst currencies) ->
  fold_right (fun e a => (snd e + a)%nat) 0%nat
             (Simple.currency_distribution results currencies)
  = (length (filter Simple.is_success results)
     + fold_right (fun e a => (snd e + a)%nat) 0%nat currencies)%nat /\
  NoDup (map fst (Simple.currency_distribution results currencies)).
Proof.
  induction results as [|result rest IH]; intros cs Hcs; [now split|].
  cbn [Simple.currency_distribution filter].
  destruct (Simple.is_success result); [|now apply IH].
  destruct (IH _ (count_currency_NoDup cs
                    (dict_get result (u "currency") (u "Unknown")) Hcs))
    as [H1 H2].
  split; [|exact H2]. rewrite H1, count_currency_sum. cbn [length]. lia.
Qed.

(** X21 (save_to_excel, simple_amazon_scraper.py): for an empty list of
    results the summary raises the division by zero of the success
    rate, the file being written already; for any other list the
    numbers of successes and failures add up to the number of results,
    the counts of the currency distribution add up to the number of
    successes, and no currency is listed twice. *)
Theorem save_to_excel_summary (results : list dict) :
  match Simple.save_to_excel results with
  | None => results = []
  | Some s =>
      results <> [] /\
      Simple.total s = length results /\
      (Simple.successful s + Simple.failed s = Simple.total s)%nat /\
      fold_right (fun e a => (snd e + a)%nat) 0%nat (Simple.currencies s)
        = Simple.successful s /\
      NoDup (map fst (Simple.currencies s))
  end.
Proof.
  unfold Simple.save_to_excel.
  destruct (currency_distribution_spec results [] (NoDup_nil _)) as [H1 H2].
  pose proof (filter_length_le Simple.is_success results) as Hle.
  destruct (length results) as [|n] eqn:Hlen.
  - now destruct results.
  - cbn [Simple.total Simple.successful Simple.failed Simple.currencies].
    repeat split.
    + intros ->. discriminate.
    + lia.
    + rewrite H1. cbn [fold_right]. lia.
    + exact H2.
Qed.

(** ** The three price validations *)

Lemma float_ltb_scale (m1 e1 m2 e2 e : Z) :
  (e <= e1)%Z -> (e <= e2)%Z ->
  PyFloat.ltb (PyFloat.Fin m1 e1) (PyFloat.Fin m2 e2) =
  (m1 * 2 ^ (e1 - e) <? m2 * 2 ^ (e2 - e))%Z.
Proof.
  intros H1 H2. cbn [PyFloat.ltb]. cbv zeta.
  set (e0 := Z.min e1 e2).
  assert (H0 : (e <= e0)%Z) by (unfold e0; lia).
  replace (e1 - e)%Z with ((e1 - e0) + (e0 - e))%Z by lia.
  replace (e2 - e)%Z with ((e2 - e0) + (e0 - e))%Z by lia.
  rewrite !Z.pow_add_r by (unfold e0; lia).
  assert (Hk : (0 < 2 ^ (e0 - e))%Z) by (apply Z.pow_pos_nonneg; lia).
  rewrite !Z.mul_assoc.
  destruct (Z.ltb_spec (m1 * 2 ^ (e1 - e0)) (m2 * 2 ^ (e2 - e0)));
    destruct (Z.ltb_spec (m1 * 2 ^ (e1 - e0) * 2 ^ (e0 - e))
                         (m2 * 2 ^ (e2 - e0) * 2 ^ (e0 - e)));
    try reflexivity; nia.
Qed.

(** [a < b <= x] leaves no room for [x < a]. *)
Lemma float_ltb_below (a b x : PyFloat.t) :
  PyFloat.ltb a b = true -> PyFloat.ltb x b = false -> PyFloat.ltb x a = false.
Proof.
  destruct a as [ma ea|]; [|discriminate].
  destruct b as [mb eb|]; [|now destruct x].
  destruct x as [mx ex|]; [|reflexivity].
  set (e := Z.min ea (Z.min eb ex)).
  rewrite (float_ltb_scale ma ea mb eb e), (float_ltb_scale mx ex mb eb e),
    (float_ltb_scale mx ex ma ea e) by (unfold e; lia).
  intros H1 H2. apply Z.ltb_lt in H1. apply Z.ltb_ge in H2. apply Z.ltb_ge. lia.
Qed.

(** [x <= a < b] leaves no room for [b < x]. *)
Lemma float_ltb_above (a b x : PyFloat.t) :
  PyFloat.ltb a b = true -> PyFloat.ltb a x = false -> PyFloat.ltb b x = false.
Proof.
  destruct a as [ma ea|]; [|discriminate].
  destruct b as [mb eb|]; [|reflexivity].
  destruct x as [mx ex|]; [|intros _ H; discriminate H].
  set (e := Z.min ea (Z.min eb ex)).
  rewrite (float_ltb_scale ma ea mb eb e), (float_ltb_scale ma ea mx ex e),
    (float_ltb_scale mb eb mx ex e) by (unfold e; lia).
  intros H1 H2. apply Z.ltb_lt in H1. apply Z.ltb_ge in H2. apply Z.ltb_ge. lia.
Qed.

(** X22 (_is_valid_price and _is_valid_fallback_price,
    enhanced_amazon_agent.py; _is_valid_price,
    simple_amazon_scraper.py): the validations are nested.  A candidate
    that the structured validation of the agent accepts is accepted by
    its fallback validation, and its cleaned text is accepted by the
    validation of the simple scraper. *)
Theorem validations_nested (U : unicode) (price_value : str) :
  is_valid_price U price_value = true ->
  is_valid_fallback_price U price_value = true /\
  Simple.is_valid_price U (clean_price_of U price_value) = true.
Proof.
  unfold is_valid_price, is_valid_fallback_price, Simple.is_valid_price,
    PyFloat.leb.
  destruct price_value as [|c v]; [discriminate|].
  destruct (_ <? 2)%nat eqn:Hlen; [discriminate|].
  destruct (_ && _); [discriminate|].
  destruct (numeric_price_of U _) as [x|]; [|discriminate].
  destruct (PyFloat.ltb x (PyFloat.of_Z 1)) eqn:H1; [discriminate|].
  destruct (PyFloat.ltb (PyFloat.of_Z 1000000) x) eqn:H2; [discriminate|].
  intros _.
  assert (L1 : PyFloat.ltb x float_0_01 = false)
    by (apply (float_ltb_below float_0_01 (PyFloat.of_Z 1) x);
        [vm_compute; reflexivity | exact H1]).
  assert (L2 : PyFloat.ltb (PyFloat.of_Z 10000000) x = false)
    by (apply (float_ltb_above (PyFloat.of_Z 1000000) (PyFloat.of_Z 10000000) x);
        [vm_compute; reflexivity | exact H2]).
  rewrite L1, L2. split; [reflexivity|].
  apply Nat.ltb_ge in Hlen.
  destruct (clean_price_of U (c :: v)); [cbn in Hlen; lia | reflexivity].
Qed.

Lemma validations_nested_witness :
  is_valid_fallback_price caseless (u "$1,299.00") = true /\
  Simple.is_valid_price caseless (clean_price_of caseless (u "$1,299.00")) = true.
Proof.
  apply (validations_nested caseless (u "$1,299.00")). vm_compute. reflexivity.
Defined.

(** The nesting is proper: a price of fifty cents passes the two lenient
    validations only. *)
Example validations_differ :
  is_valid_price caseless (u "0.50") = false /\
  is_valid_fallback_price caseless (u "0.50") = true /\
  Simple.is_valid_price caseless (u "0.50") = true.
Proof. repeat split; vm_compute; reflexivity. Qed.

(** ** Input without identifier *)

(** X23 (get_product_info, enhanced_amazon_agent.py): for an ASCII
    input that, stripped, has nowhere ten consecutive letters or digits,
    the agent answers with the invalid-input error that repeats the
    input and the supported formats, and calls none of the four
    strategies: the world is left as it was. *)
Theorem invalid_input_calls_no_strategy (U : unicode) (World : Type)
    (fetch_with_rainforest_api fetch_with_scraperapi fetch_with_rapidapi
       : strategy World)
    (fetch_with_direct_amazon : str -> strategy World)
    (input_data : str) (w : World) :
  forallb is_ascii (py_strip U input_data) = true ->
  has_id_run (py_strip U input_data) = false ->
  get_product_info U World fetch_with_rainforest_api fetch_with_scraperapi
    fetch_with_rapidapi fetch_with_direct_amazon input_data w
  = (InvalidInput input_data supported_formats, w, []).
Proof.
  intros Hascii Hrun. unfold get_product_info.
  assert (E : extract_asin U input_data = None).
  { unfold extract_asin.
    destruct (Re.rmatch asin_exact _) as [f|] eqn:Ef.
    - exfalso. apply rmatch_exact_tail in Ef as [Ef _].
      rewrite py_upper_ascii in Ef by exact Hascii.
      assert (H : has_id_run (py_strip U input_data) = true);
        [|congruence].
      apply has_id_run_here. unfold all_of in *.
      apply andb_true_iff in Ef as [E1 E2].
      rewrite length_map in E2. rewrite E2, andb_true_r.
      rewrite firstn_map in E1.
      assert (Hl : forallb is_ascii (firstn 10 (py_strip U input_data)) = true).
      { rewrite forallb_forall in *. intros c Hc. apply Hascii.
        rewrite <- (firstn_skipn 10 (py_strip U input_data)).
        apply in_or_app. now left. }
      remember (firstn 10 (py_strip U input_data)) as l eqn:El. clear El.
      induction l as [|c l IH]; [reflexivity|].
      cbn [map forallb] in *. apply andb_true_iff in E1 as [Ec E1].
      apply andb_true_iff in Hl as [Hc Hl].
      now rewrite (to_upper_AZ09_back c Hc Ec), (IH E1 Hl).
    - destruct (first_asin_match U asin_patterns _) as [r|] eqn:Er; [|reflexivity].
      apply url_match_run in Er. congruence. }
  now rewrite E.
Qed.

Lemma invalid_input_calls_no_strategy_witness :
  get_product_info caseless nat raising raising raising (fun _ => raising)
    (u "https://www.amazon.com/help/contact") 0%nat
  = (InvalidInput (u "https://www.amazon.com/help/contact") supported_formats,
     0%nat, []).
Proof.
  apply (invalid_input_calls_no_strategy caseless nat raising raising raising
           (fun _ => raising) (u "https://www.amazon.com/help/contact") 0%nat);
    reflexivity.
Defined.

(** ** Lazy repetition *)

Lemma star_loop_suffix {A : Type}
    (body : nat -> str -> str -> Re.cont A -> option A) :
  (forall i s g k a, body i s g k = Some a ->
     exists i' s' g' x, k i' s' g' = Some a /\ s = x ++ s') ->
  forall fuel i s g k a,
  Re.star_loop body fuel i s g k = Some a ->
  exists i' s' g' x, k i' s' g' = Some a /\ s = x ++ s'.
Proof.
  intros Hbody. induction fuel as [|f IH]; intros i s g k a H.
  - exists i, s, g, []. now split.
  - cbn [Re.star_loop] in H.
    destruct (body i s g _) as [a'|] eqn:E.
    + injection H as ->. apply Hbody in E as (i' & s' & g' & x & E & ->).
      destruct (length s' <? length (x ++ s'))%nat; [|discriminate].
      apply IH in E as (i2 & s2 & g2 & x2 & E & ->).
      exists i2, s2, g2, (x ++ x2). split; [exact E | now rewrite app_assoc].
    + exists i, s, g, []. now split.
Qed.

(** What a pattern hands to its continuation is a suffix of the text. *)
Lemma run_suffix {A : Type} (r : regex) :
  forall i s g (k : Re.cont A) a,
  Re.run r i s g k = Some a ->
  exists i' s' g' x, k i' s' g' = Some a /\ s = x ++ s'.
Proof.
  induction r as [|p|r1 IH1 r2 IH2|r1 IH1 r2 IH2|r1 IH1|r1 IH1| |];
    intros i s g k a H; cbn [Re.run] in H.
  - exists i, s, g, []. now split.
  - destruct s as [|c t]; [discriminate|].
    destruct (p c); [|discriminate]. exists (S i), t, g, [c]. now split.
  - apply IH1 in H as (i1 & s1 & g1 & x1 & H & ->).
    apply IH2 in H as (i2 & s2 & g2 & x2 & H & ->).
    exists i2, s2, g2, (x1 ++ x2). split; [exact H | now rewrite app_assoc].
  - destruct (Re.run r1 i s g k) as [a'|] eqn:E.
    + injection H as ->. now apply IH1 in E.
    + now apply IH2 in H.
  - apply (star_loop_suffix (Re.run r1)) in H; [exact H|].
    intros i0 s0 g0 k0 a0. apply IH1.
  - apply IH1 in H as (i1 & s1 & g1 & x1 & H & ->).
    exists i1, s1, (firstn (length (x1 ++ s1) - length s1) (x1 ++ s1)), x1.
    now split.
  - destruct i; [|discriminate]. exists 0%nat, s, g, []. now split.
  - destruct s as [|c [|d t]]; try discriminate.
    + exists i, [], g, []. now split.
    + destruct (c =? 10)%N; [|discriminate]. exists i, [c], g, []. now split.
Qed.

(** A lazy repetition of any character takes the fewest characters with
    which what follows succeeds. *)
Lemma run_lazy_any {A : Type} (n : nat) :
  forall i s g (k : Re.cont A) a,
  Re.run (lazy_star n any_char) i s g k = Some a ->
  exists j, (j <= length s)%nat /\
            k (j + i)%nat (skipn j s) g = Some a /\
            forall j', (j' < j)%nat -> k (j' + i)%nat (skipn j' s) g = None.
Proof.
  induction n as [|n IH]; intros i s g k a H.
  - exists 0%nat. cbn in *. repeat split; [lia | exact H | intros; lia].
  - cbn [lazy_star Re.run] in H.
    destruct (k i s g) as [a'|] eqn:E.
    + injection H as ->. exists 0%nat. cbn.
      repeat split; [lia | exact E | intros; lia].
    + unfold any_char in H at 1. cbn [Re.run] in H.
      destruct s as [|c t]; [discriminate|].
      apply IH in H as (j & Hj & Hk & Hmin).
      exists (S j). cbn [length skipn]. repeat split.
      * lia.
      * now rewrite Nat.add_succ_r in Hk.
      * intros [|j'] Hj'; [exact E|].
        cbn [skipn]. replace (S j' + i)%nat with (j' + S i)%nat by lia.
        apply Hmin. lia.
Qed.

Section TitleCut.
Variable c : str.
Variable start : nat.
Variable f : Re.found.

(** The matches are run with the continuation of [Re.at_pos] for a
    match that starts at [start]. *)

Lemma lazy_group_cut (n : nat) :
  forall i s g,
  Re.run (Cat (Group (lazy_star n any_char)) (Lit_i c)) i s g
    (fun i' s' g' =>
       Some {| Re.m_start := start; Re.m_end := i'; Re.m_group := g';
               Re.m_rest := s' |}) = Some f ->
  cut_at_first c s (Re.m_group f).
Proof.
  intros i s g H. cbn [Re.run] in H.
  apply run_lazy_any in H as (j & Hj & Hk & Hmin).
  rewrite run_lit_i in Hk.
  destruct (startswith_i c (skipn j s)) eqn:Es; [|discriminate].
  injection Hk as <-. cbn [Re.m_group].
  rewrite length_skipn.
  replace (length s - (length s - j))%nat with j by lia.
  exists [], (skipn j s). cbn [app]. rewrite firstn_skipn.
  split; [reflexivity|]. split; [exact Es|].
  intros j' Hj'. rewrite length_firstn in Hj'.
  specialize (Hmin j' ltac:(lia)). rewrite run_lit_i in Hmin.
  destruct (startswith_i c (skipn j' s)); [discriminate | reflexivity].
Qed.

Lemma cut_after (r rest : regex) :
  (forall i s g,
     Re.run rest i s g
       (fun i' s' g' =>
       Some {| Re.m_start := start; Re.m_end := i'; Re.m_group := g';
               Re.m_rest := s' |}) = Some f ->
     cut_at_first c s (Re.m_group f)) ->
  forall i s g,
    Re.run (Cat r rest) i s g
      (fun i' s' g' =>
       Some {| Re.m_start := start; Re.m_end := i'; Re.m_group := g';
               Re.m_rest := s' |}) = Some f ->
    cut_at_first c s (Re.m_group f).
Proof.
  intros Hrest i s g H. cbn [Re.run] in H.
  apply run_suffix in H as (i1 & s1 & g1 & x & H & ->).
  destruct (Hrest _ _ _ H) as (before & after & -> & Hc & Hmin).
  exists (x ++ before), after. split; [now rewrite app_assoc|]. now split.
Qed.
End TitleCut.

(** X24 (extract_product_name, simple_amazon_scraper.py, and the title
    of _parse_amazon_html_enhanced, enhanced_amazon_agent.py): the text
    that a title pattern captures for the name stands in the page
    before a closing tag of the pattern, in any letter case, and has no
    such closing tag starting in it: the name is cut at the first
    closing tag after the opening one, whatever is nested in the
    element. *)
Theorem title_cut_at_first_closing_tag (html : str) (p : regex) (c : str)
    (m : Re.found) :
  In (p, c) (combine (title_patterns (length html)) title_closing_tags) ->
  Re.search p html = Some m ->
  cut_at_first c html (Re.m_group m).
Proof.
  intros Hin Hs.
  apply search_from_suffix in Hs as (pre & t & -> & Hs).
  assert (HF : Forall
                 (fun pc =>
                    forall i s g,
                    Re.run (fst pc) i s g
                      (fun i' s' g0 =>
                         Some {| Re.m_start := (0 + length pre)%nat; Re.m_end := i';
                                 Re.m_group := g0; Re.m_rest := s' |}) = Some m ->
                    cut_at_first (snd pc) s (Re.m_group m))
                 (combine (title_patterns (length (pre ++ t))) title_closing_tags)).
  { unfold title_patterns, title_closing_tags. cbn [combine].
    repeat apply Forall_cons; [..|apply Forall_nil]; cbn [fst snd Seq].
    - apply (cut_after (u "</span>") (0 + length pre)%nat m).
      apply lazy_group_cut.
    - apply (cut_after (u "</h1>") (0 + length pre)%nat m).
      apply lazy_group_cut.
    - do 3 apply (cut_after (u "</title>") (0 + length pre)%nat m).
      apply lazy_group_cut. }
  rewrite Forall_forall in HF.
  destruct (HF (p, c) Hin _ _ _ Hs) as (before & after & -> & Hc & Hmin).
  exists (pre ++ before), after. split; [now rewrite app_assoc|]. now split.
Qed.

Lemma title_cut_at_first_closing_tag_witness :
  cut_at_first (u "</span>")
    (u "<span id=" ++ [dquote] ++ u "productTitle" ++ [dquote]
       ++ u ">Echo <span>Dot</span> 5</span>")
    (u "Echo <span>Dot").
Proof.
  apply (title_cut_at_first_closing_tag
           (u "<span id=" ++ [dquote] ++ u "productTitle" ++ [dquote]
              ++ u ">Echo <span>Dot</span> 5</span>")
           (Seq [tag_with_id (u "span") (u "productTitle");
                 Group (lazy_star 54 any_char); Lit_i (u "</span>")])
           (u "</span>")
           {| Re.m_start := 0; Re.m_end := 45; Re.m_group := u "Echo <span>Dot";
              Re.m_rest := u " 5</span>" |}).
  - left. reflexivity.
  - vm_compute. reflexivity.
Defined.

(** ** Dollar signs in the product spans *)

Lemma by_match_dollar (m expected_currency clean_match : str)
    (r : Simple.price_result) :
  Simple.by_match m expected_currency clean_match = Some r ->
  (exists symbol, Simple.price r = symbol ++ clean_match) /\
  (contains (u "$") m = true ->
   Simple.currency r = u "INR" \/ Simple.currency r = u "USD").
Proof.
  unfold Simple.by_match.
  destruct (_ || _);
    [intros [= <-]; split; [now exists Simple.rupee | now left]|].
  destruct (contains (u "$") m) eqn:Ed; cbn [orb].
  { intros [= <-]. split; [now exists (u "$") | now right]. }
  destruct (str_eqb expected_currency (u "USD"));
    [intros [= <-]; split; [now exists (u "$") | discriminate]|].
  destruct (_ || _);
    [intros [= <-]; split; [now exists Simple.pound | discriminate]|].
  destruct (_ || _);
    [intros [= <-]; split; [now exists Simple.euro | discriminate]|].
  destruct (_ || _);
    [intros [= <-]; split; [now exists (u "C$") | discriminate]|].
  destruct (_ || _);
    [intros [= <-]; split; [now exists (u "A$") | discriminate]|].
  discriminate.
Qed.

Lemma product_matches_dollar (U : unicode) (matches : list str)
    (expected_currency : str) (r : Simple.price_result) :
  Simple.product_matches U matches expected_currency = Some r ->
  exists m,
    In m matches /\
    Simple.is_valid_price U (clean_price_of U m) = true /\
    (exists symbol, Simple.price r = symbol ++ clean_price_of U m) /\
    (contains (u "$") m = true ->
     Simple.currency r = u "INR" \/ Simple.currency r = u "USD").
Proof.
  induction matches as [|m rest IH]; cbn [Simple.product_matches]; [discriminate|].
  assert (Hrest : Simple.product_matches U rest expected_currency = Some r ->
                  exists m0, In m0 (m :: rest) /\
                    Simple.is_valid_price U (clean_price_of U m0) = true /\
                    (exists symbol, Simple.price r = symbol ++ clean_price_of U m0) /\
                    (contains (u "$") m0 = true ->
                     Simple.currency r = u "INR" \/ Simple.currency r = u "USD")).
  { intros H. destruct (IH H) as (m0 & Hin & Hrest). exists m0.
    split; [now right | exact Hrest]. }
  destruct (Simple.is_valid_price U (clean_price_of U m)) eqn:Hv; [|exact Hrest].
  destruct (Simple.by_match m expected_currency _) as [r'|] eqn:E; [|exact Hrest].
  intros [= <-]. exists m. split; [now left|]. split; [exact Hv|].
  exact (by_match_dollar _ _ _ _ E).
Qed.

(** X25 (extract_price_from_html, simple_amazon_scraper.py): when the
    loop over the product price spans returns, it returns for a match of
    one of its three patterns whose cleaned text is valid, with that
    text after the sign; and if this match has a dollar sign in it, the
    currency is INR or USD whatever the expected currency is: a span
    price written with C$ or A$ is never reported as CAD or AUD. *)
Theorem span_dollar_price (U : unicode) (html expected_currency : str)
    (r : Simple.price_result) :
  Simple.product_pass U (Simple.product_price_patterns U) html expected_currency
    = Some r ->
  exists pattern m,
    In pattern (Simple.product_price_patterns U) /\
    In m (Re.findall pattern html) /\
    Simple.is_valid_price U (clean_price_of U m) = true /\
    (exists symbol, Simple.price r = symbol ++ clean_price_of U m) /\
    (contains (u "$") m = true ->
     Simple.currency r = u "INR" \/ Simple.currency r = u "USD").
Proof.
  generalize (Simple.product_price_patterns U) as patterns.
  induction patterns as [|p rest IH]; cbn [Simple.product_pass]; [discriminate|].
  destruct (Simple.product_matches U _ expected_currency) as [r'|] eqn:E.
  - intros [= <-]. apply product_matches_dollar in E as (m & Hin & Hrest).
    exists p, m. split; [now left|]. now split.
  - intros H. destruct (IH H) as (q & m & Hq & Hrest).
    exists q, m. split; [now right | exact Hrest].
Qed.

Lemma span_dollar_price_witness :
  exists pattern m,
    In pattern (Simple.product_price_patterns caseless) /\
    In m (Re.findall pattern
            (u "<span class=" ++ [dquote] ++ u "a-offscreen" ++ [dquote]
               ++ u ">C$ 12.50</span>")) /\
    Simple.is_valid_price caseless (clean_price_of caseless m) = true /\
    (exists symbol,
       Simple.price (Simple.mk_result (u "$12.50") (u "USD"))
         = symbol ++ clean_price_of caseless m) /\
    (contains (u "$") m = true ->
     Simple.currency (Simple.mk_result (u "$12.50") (u "USD")) = u "INR" \/
     Simple.currency (Simple.mk_result (u "$12.50") (u "USD")) = u "USD").
Proof.
  apply (span_dollar_price caseless
           (u "<span class=" ++ [dquote] ++ u "a-offscreen" ++ [dquote]
              ++ u ">C$ 12.50</span>")
           (u "CAD") (Simple.mk_result (u "$12.50") (u "USD"))).
  vm_compute. reflexivity.
Defined.

(** ** Names without tags *)

Lemma at_pos_suffix (r : regex) (i : nat) (s : str) (f : Re.found) :
  Re.at_pos r i s = Some f -> exists x, s = x ++ Re.m_rest f.
Proof.
  unfold Re.at_pos. intros H.
  apply run_suffix in H as (i' & s' & g' & x & H & ->).
  injection H as <-. now exists x.
Qed.

(** Substituting the empty text leaves characters of the text only. *)
Lemma sub_from_chars (r : regex) (c : cp) :
  forall fuel i s, In c (Re.sub_from r [] fuel i s) -> In c s.
Proof.
  induction fuel as [|fl IH]; intros i s H; [exact H|].
  cbn [Re.sub_from] in H.
  destruct (Re.at_pos r i s) as [f|] eqn:E.
  - destruct (length (Re.m_rest f) <? length s)%nat.
    + cbn [app] in H. apply IH in H.
      destruct (at_pos_suffix _ _ _ _ E) as [x ->].
      apply in_or_app. now right.
    + destruct s as [|d t]; [exact H|].
      cbn [app] in H. destruct H as [<-|H]; [now left|].
      right. now apply IH in H.
  - destruct s as [|d t]; [exact H|].
    destruct H as [<-|H]; [now left|]. right. now apply IH in H.
Qed.

Lemma tag_at_other (i : nat) (c : cp) (t : str) :
  c <> ch "<" -> Re.at_pos tag_re i (c :: t) = None.
Proof.
  intros Hc. unfold Re.at_pos, tag_re. cbn [Seq Re.run]. unfold is_cp.
  destruct (N.eqb_spec c (ch "<")); [congruence | reflexivity].
Qed.

Lemma tag_at_shorter (i : nat) (s : str) (f : Re.found) :
  Re.at_pos tag_re i s = Some f -> (length (Re.m_rest f) < length s)%nat.
Proof.
  unfold Re.at_pos, tag_re. cbn [Seq]. cbn [Re.run].
  destruct s as [|c t]; [discriminate|].
  destruct (is_cp (ch "<") c); [|discriminate].
  intros H. apply run_suffix in H as (i' & s' & g' & x & H & ->).
  destruct s' as [|d s']; [discriminate|].
  destruct (is_cp (ch ">") d); [|discriminate].
  injection H as <-. cbn [Re.m_rest length]. rewrite length_app.
  cbn [length]. lia.
Qed.

(** No tag starts at an opening bracket that is not followed by a
    closing one. *)
Lemma tag_at_open (i : nat) (t : str) :
  existsb (fun x => (x =? ch ">")%N) t = false ->
  Re.at_pos tag_re i (ch "<" :: t) = None.
Proof.
  intros Hno. destruct (Re.at_pos tag_re i (ch "<" :: t)) as [f|] eqn:E;
    [exfalso | reflexivity].
  unfold Re.at_pos, tag_re in E. cbn [Seq] in E.
  change (Re.run (Cat (Chr (is_cp (ch "<")))
                    (Cat (Plus (Chr (not_cp (ch ">")))) (Chr (is_cp (ch ">")))))
            i (ch "<" :: t) []
            (fun i' s' g =>
               Some {| Re.m_start := i; Re.m_end := i'; Re.m_group := g;
                       Re.m_rest := s' |}) = Some f) in E.
  cbn [Re.run] in E. change (is_cp (ch "<") (ch "<")) with true in E.
  cbv iota in E.
  apply (run_suffix (Plus (Chr (not_cp (ch ">"))))) in E
    as (i' & s' & g' & x & E & ->).
  destruct s' as [|d s']; [discriminate|].
  destruct (is_cp (ch ">") d) eqn:Ed; [|discriminate].
  rewrite existsb_app in Hno. cbn [existsb] in Hno.
  unfold is_cp in Ed. rewrite Ed in Hno.
  now rewrite orb_true_r in Hno.
Qed.

Lemma run_cat_eq {A : Type} (r1 r2 : regex) (i : nat) (s g : str) (k : Re.cont A) :
  Re.run (Cat r1 r2) i s g k =
  Re.run r1 i s g (fun i' s' g' => Re.run r2 i' s' g' k).
Proof. reflexivity. Qed.

Lemma run_chr_eq {A : Type} (p : cp -> bool) (i : nat) (c : cp) (t g : str)
    (k : Re.cont A) :
  Re.run (Chr p) i (c :: t) g k = if p c then k (S i) t g else None.
Proof. reflexivity. Qed.

Lemma run_star_eq {A : Type} (r : regex) (i : nat) (s g : str) (k : Re.cont A) :
  Re.run (Star r) i s g k = Re.star_loop (Re.run r) (length s) i s g k.
Proof. reflexivity. Qed.

Lemma star_class_stop {A : Type} (p : cp -> bool) (d : cp) (z : str)
    (k : Re.cont A) (a : A) :
  p d = false ->
  forall y fuel i g,
  forallb p y = true -> (length y <= fuel)%nat ->
  k (length y + i)%nat (d :: z) g = Some a ->
  Re.star_loop (Re.run (Chr p)) fuel i (y ++ d :: z) g k = Some a.
Proof.
  intros Hd. induction y as [|c y IH]; intros fuel i g Hy Hf Hk.
  - cbn [app length Nat.add] in *.
    destruct fuel; cbn [Re.star_loop Re.run]; [exact Hk|].
    now rewrite Hd.
  - destruct fuel as [|fl]; [cbn in Hf; lia|].
    cbn [forallb] in Hy. apply andb_true_iff in Hy as [Hc Hy].
    assert (IH' : Re.star_loop (Re.run (Chr p)) fl (S i) (y ++ d :: z) g k = Some a).
    { apply IH; [exact Hy | cbn in Hf; lia |].
      cbn [length] in Hk. now rewrite Nat.add_succ_r. }
    cbn [app Re.star_loop].
    change (Re.run (Chr p) i (c :: y ++ d :: z) g
              (fun i' s' g' =>
                 if (length s' <? length (c :: y ++ d :: z))%nat
                 then Re.star_loop (Re.run (Chr p)) fl i' s' g' k
                 else None))
      with (if p c
            then (if (length (y ++ d :: z) <? length (c :: y ++ d :: z))%nat
                  then Re.star_loop (Re.run (Chr p)) fl (S i) (y ++ d :: z) g k
                  else None)
            else None).
    rewrite Hc, IH'.
    replace (length (y ++ d :: z) <? length (c :: y ++ d :: z))%nat with true
      by (symmetry; apply Nat.ltb_lt; cbn [length]; lia).
    reflexivity.
Qed.

Lemma split_at_close (t : str) :
  existsb (fun x => (x =? ch ">")%N) t = true ->
  exists y z, t = y ++ ch ">" :: z /\ forallb (not_cp (ch ">")) y = true.
Proof.
  induction t as [|c t IH]; cbn [existsb]; [discriminate|].
  destruct (N.eqb_spec c (ch ">")) as [->|Hc]; cbn [orb].
  - intros _. now exists [], t.
  - intros H. destruct (IH H) as (y & z & -> & Hy).
    exists (c :: y), z. split; [reflexivity|].
    cbn [forallb]. rewrite Hy. unfold not_cp.
    destruct (N.eqb_spec c (ch ">")); [contradiction | reflexivity].
Qed.

(** A tag starts at an opening bracket that is followed by another
    character and, later, a closing bracket. *)
Lemma tag_at_match (i : nat) (c : cp) (t : str) :
  c <> ch ">" ->
  existsb (fun x => (x =? ch ">")%N) t = true ->
  Re.at_pos tag_re i (ch "<" :: c :: t) <> None.
Proof.
  intros Hc Ht. destruct (split_at_close t Ht) as (y & z & -> & Hy).
  assert (Hnot : not_cp (ch ">") c = true)
    by (unfold not_cp; destruct (N.eqb_spec c (ch ">")); [contradiction | reflexivity]).
  unfold Re.at_pos, tag_re. cbn [Seq]. unfold Plus.
  rewrite run_cat_eq, run_chr_eq. change (is_cp (ch "<") (ch "<")) with true.
  cbv iota beta.
  rewrite run_cat_eq, run_cat_eq, run_chr_eq, Hnot. cbv beta.
  rewrite run_star_eq.
  erewrite (star_class_stop (not_cp (ch ">")) (ch ">") z);
    [discriminate | reflexivity | exact Hy | rewrite length_app; lia | reflexivity].
Qed.

Lemma sub_tag_tagless :
  forall fuel i s, (length s < fuel)%nat ->
  tagless (Re.sub_from tag_re [] fuel i s) = true.
Proof.
  induction fuel as [|fl IH]; intros i s Hf; [lia|].
  cbn [Re.sub_from].
  destruct (Re.at_pos tag_re i s) as [f|] eqn:E.
  - pose proof (tag_at_shorter _ _ _ E) as Hsh.
    replace (length (Re.m_rest f) <? length s)%nat with true
      by (symmetry; now apply Nat.ltb_lt).
    cbn [app]. apply IH. lia.
  - destruct s as [|c t]; [reflexivity|].
    cbn [length] in Hf.
    pose proof (IH (S i) t ltac:(lia)) as Ht.
    cbn [tagless]. rewrite Ht, andb_true_r.
    destruct (N.eqb_spec c (ch "<")) as [->|Hc]; [cbn [negb orb] | reflexivity].
    destruct (Re.sub_from tag_re [] fl (S i) t) as [|d o] eqn:Eo; [reflexivity|].
    destruct t as [|c' t'].
    { destruct fl; discriminate. }
    destruct (N.eqb_spec c' (ch ">")) as [->|Hc'].
    + destruct fl as [|fl']; [cbn in Hf; lia|].
      cbn [Re.sub_from] in Eo.
      rewrite tag_at_other in Eo by discriminate.
      injection Eo as <- _. reflexivity.
    + destruct (existsb (fun x => (x =? ch ">")%N) (d :: o)) eqn:Ex;
        [|apply orb_true_r].
      exfalso. apply existsb_exists in Ex as (x & Hx & Ex).
      apply N.eqb_eq in Ex. subst x. rewrite <- Eo in Hx.
      apply sub_from_chars in Hx.
      destruct Hx as [Hx|Hx]; [congruence|].
      apply (tag_at_match i c' t' Hc'); [|exact E].
      apply existsb_exists. exists (ch ">"). split; [exact Hx | reflexivity].
Qed.

Lemma tagless_search (s : str) :
  tagless s = true -> forall i, Re.search_from tag_re i s = None.
Proof.
  induction s as [|c t IH]; intros H i; [reflexivity|].
  cbn [tagless] in H. apply andb_true_iff in H as [Hc Ht].
  cbn [Re.search_from]. rewrite (IH Ht).
  replace (Re.at_pos tag_re i (c :: t)) with (@None Re.found); [reflexivity|].
  symmetry. destruct (N.eqb_spec c (ch "<")) as [->|Hne];
    [|now apply tag_at_other].
  cbn [negb orb] in Hc. destruct t as [|d t']; [reflexivity|].
  destruct (N.eqb_spec d (ch ">")) as [->|Hd]; [reflexivity|].
  cbn [orb] in Hc. apply negb_true_iff in Hc. now apply tag_at_open.
Qed.

Lemma tagless_suffix (a b : str) : tagless (a ++ b) = true -> tagless b = true.
Proof.
  induction a as [|c a IH]; [trivial|].
  cbn [app tagless]. intros H. apply andb_true_iff in H as [_ H]. now apply IH.
Qed.

Lemma tagless_prefix (a b : str) : tagless (a ++ b) = true -> tagless a = true.
Proof.
  induction a as [|c a IH]; [reflexivity|].
  cbn [app tagless]. intros H. apply andb_true_iff in H as [Hc H].
  rewrite (IH H), andb_true_r.
  destruct (negb (c =? ch "<")%N); [reflexivity|]. cbn [orb] in *.
  destruct a as [|d a']; [reflexivity|]. cbn [app] in Hc.
  destruct (d =? ch ">")%N; [reflexivity|]. cbn [orb] in *.
  apply negb_true_iff in Hc. apply negb_true_iff.
  change (d :: a' ++ b) with ((d :: a') ++ b) in Hc.
  rewrite existsb_app in Hc. now apply orb_false_iff in Hc as [Hc _].
Qed.

Lemma lstrip_suffix (U : unicode) (s : str) : exists x, s = x ++ lstrip U s.
Proof.
  induction s as [|c t [x IH]]; [now exists []|].
  cbn [lstrip]. destruct (py_isspace U c).
  - exists (c :: x). cbn [app]. now rewrite <- IH.
  - now exists [].
Qed.

Lemma rstrip_prefix (U : unicode) (s : str) : exists y, s = rstrip U s ++ y.
Proof.
  induction s as [|c t [y IH]]; [now exists []|].
  cbn [rstrip]. destruct (rstrip U t) as [|d r].
  - destruct (py_isspace U c).
    + now exists (c :: t).
    + exists t. reflexivity.
  - exists y. now rewrite IH at 1.
Qed.

Lemma tagless_strip (U : unicode) (s : str) :
  tagless s = true -> tagless (py_strip U s) = true.
Proof.
  intros H. unfold py_strip.
  destruct (lstrip_suffix U s) as [x Hx]. rewrite Hx in H.
  apply tagless_suffix in H.
  destruct (rstrip_prefix U (lstrip U s)) as [y Hy]. rewrite Hy in H.
  now apply tagless_prefix in H.
Qed.

Lemma replace_go_chars (old new : str) (x : cp) (s : str) :
  forall skip, In x (replace_go old new skip s) -> In x new \/ In x s.
Proof.
  induction s as [|c t IH]; intros skip H; [destruct H|].
  cbn [replace_go] in H. destruct skip as [|k].
  - destruct (startswith old (c :: t)).
    + apply in_app_or in H as [H|H]; [now left|].
      destruct (IH _ H) as [H'|H']; [now left | right; now right].
    + destruct H as [<-|H]; [right; now left|].
      destruct (IH _ H) as [H'|H']; [now left | right; now right].
  - destruct (IH _ H) as [H'|H']; [now left | right; now right].
Qed.

Lemma tagless_app_plain (a b : str) :
  Forall (fun c => c <> ch "<") a -> tagless b = true -> tagless (a ++ b) = true.
Proof.
  induction 1 as [|c a Hc _ IH]; intros Hb; [exact Hb|].
  cbn [app tagless]. rewrite (IH Hb), andb_true_r.
  destruct (N.eqb_spec c (ch "<")); [contradiction | reflexivity].
Qed.

(** Replacing a text that does not start with a closing bracket by one
    without brackets makes no tag. *)
Lemma tagless_replace (old new : str) (h : cp) :
  hd_error old = Some h -> h <> ch ">" ->
  Forall (fun c => c <> ch "<") new -> Forall (fun c => c <> ch ">") new ->
  forall s skip, tagless s = true -> tagless (replace_go old new skip s) = true.
Proof.
  intros Hold Hh Hlt Hgt. induction s as [|c t IH]; intros skip H; [reflexivity|].
  cbn [tagless] in H. apply andb_true_iff in H as [Hc Ht].
  cbn [replace_go]. destruct skip as [|k]; [|now apply IH].
  destruct (startswith old (c :: t)) eqn:Es.
  - apply tagless_app_plain; [exact Hlt | now apply IH].
  - cbn [tagless]. rewrite (IH 0%nat Ht), andb_true_r.
    destruct (N.eqb_spec c (ch "<")) as [->|Hne]; [cbn [negb orb] in * | reflexivity].
    destruct (replace_go old new 0 t) as [|d o] eqn:Eo; [reflexivity|].
    destruct t as [|c' t']; [discriminate|].
    destruct (N.eqb_spec c' (ch ">")) as [->|Hc'].
    + cbn [replace_go] in Eo.
      replace (startswith old (ch ">" :: t')) with false in Eo.
      * injection Eo as <- _. reflexivity.
      * destruct old as [|h' old']; [discriminate|].
        injection Hold as ->. cbn [startswith].
        destruct (N.eqb_spec h (ch ">")); [contradiction | reflexivity].
    + cbn [orb] in Hc. apply negb_true_iff in Hc.
      destruct (existsb (fun x => (x =? ch ">")%N) (d :: o)) eqn:Ex;
        [|apply orb_true_r].
      exfalso. apply existsb_exists in Ex as (x & Hx & Ex).
      apply N.eqb_eq in Ex. subst x. rewrite <- Eo in Hx.
      apply replace_go_chars in Hx as [Hx|Hx].
      * rewrite Forall_forall in Hgt. now apply (Hgt _ Hx).
      * assert (Hex : existsb (fun x => (x =? ch ">")%N) (c' :: t') = true)
          by (apply existsb_exists; exists (ch ">"); split; [exact Hx | reflexivity]).
        congruence.
Qed.

Lemma clean_name_tagless (U : unicode) (group : str) :
  tagless
    (py_replace (u "&amp;") (u "&")
       (py_replace (u "&#39;") (u "'")
          (py_strip U (Re.sub tag_re [] group)))) = true.
Proof.
  unfold py_replace.
  apply (tagless_replace (u "&amp;") (u "&") (ch "&"));
    [reflexivity | discriminate | repeat constructor; discriminate
    | repeat constructor; discriminate |].
  apply (tagless_replace (u "&#39;") (u "'") (ch "&"));
    [reflexivity | discriminate | repeat constructor; discriminate
    | repeat constructor; discriminate |].
  apply tagless_strip. unfold Re.sub. apply sub_tag_tagless. lia.
Qed.

(** X26 (_parse_amazon_html_enhanced, enhanced_amazon_agent.py, and
    extract_product_name, simple_amazon_scraper.py): on every page the
    product name of either scraper has no tag left in it: the tag
    pattern of the source, an opening bracket, one or more characters
    other than the closing bracket and a closing bracket, is found
    nowhere in the name. *)
Theorem product_names_without_tags (U : unicode) (html : str) :
  Re.search tag_re (enhanced_product_name U html) = None /\
  Re.search tag_re (Simple.extract_product_name U html) = None.
Proof.
  assert (He : forall patterns, tagless (title_loop U patterns html) = true).
  { induction patterns as [|p rest IH]; [reflexivity|].
    cbn [title_loop]. destruct (Re.search p html); [|exact IH].
    apply clean_name_tagless. }
  assert (Hs : forall patterns name,
             Simple.first_name U patterns html = Some name -> tagless name = true).
  { induction patterns as [|p rest IH]; intros name; [discriminate|].
    cbn [Simple.first_name]. destruct (Re.search p html) as [f|]; [|apply IH].
    intros [= <-]. unfold Simple.clean_name. cbv zeta.
    pose proof (clean_name_tagless U (Re.m_group f)) as H.
    remember (py_replace (u "&amp;") (u "&") _) as cleaned eqn:Ec in H |- *.
    apply (tagless_prefix (firstn 200 cleaned) (skipn 200 cleaned)).
    now rewrite firstn_skipn. }
  split; unfold Re.search; apply tagless_search.
  - apply He.
  - unfold Simple.extract_product_name.
    destruct (Simple.first_name U _ html) as [name|] eqn:E;
      [exact (Hs _ _ E) | vm_compute; reflexivity].
Qed.

(** ** URL shapes *)

Lemma alnum_not_space (U : unicode) (c : cp) :
  ascii_alnum c = true -> py_isspace U c = false.
Proof.
  unfold ascii_alnum, ascii_upper_letter, ascii_lower_letter, ascii_digit,
    py_isspace, is_ascii.
  intros H. cases_N; simpl in *; try discriminate; try reflexivity; lia.
Qed.

Lemma alnum_AZ09_i (s : str) :
  forallb ascii_alnum s = true -> forallb AZ09_i s = true.
Proof.
  apply forallb_impl. intros c Hc.
  apply to_upper_AZ09_back; [now apply alnum_is_ascii | now apply to_upper_alnum].
Qed.

(** X27 (extract_asin, enhanced_amazon_agent.py): an input that has one
    of the six markers somewhere, followed by ten ASCII letters or
    digits, always yields an identifier: white space around the input
    and whatever else stands before or after do not make the answer
    [None]. *)
Theorem extract_asin_accepts_url_shapes (U : unicode)
    (input_data pre marker id post : str) :
  In marker url_markers ->
  length id = 10%nat -> forallb ascii_alnum id = true ->
  input_data = pre ++ marker ++ id ++ post ->
  exists identifier, extract_asin U input_data = Some identifier.
Proof.
  intros Hin Hlen Hall ->.
  assert (Hm : exists c0 mid, marker = c0 :: mid /\ py_isspace U c0 = false).
  { unfold url_markers in Hin. cbn [In] in Hin.
    destruct Hin as [<-|[<-|[<-|[<-|[<-|[<-|[]]]]]]];
      do 2 eexists; (split; [vm_compute; reflexivity | reflexivity]). }
  destruct Hm as (c0 & mid & Em & Hc0).
  destruct (exists_last (l := id)) as (body & z & Eid); [intros ->; discriminate|].
  assert (Hz : py_isspace U z = false).
  { apply alnum_not_space. rewrite Eid, forallb_app in Hall. cbn in Hall.
    apply andb_true_iff in Hall as [_ Hz]. now rewrite andb_true_r in Hz. }
  destruct (lstrip_keeps U c0 (mid ++ (body ++ [z]) ++ post) Hc0 pre) as [pre' El].
  destruct (rstrip_keeps U z post Hz (pre' ++ c0 :: mid ++ body)) as [post' Er].
  assert (Hs : py_strip U (pre ++ marker ++ id ++ post)
               = pre' ++ marker ++ id ++ post').
  { unfold py_strip. rewrite Em, Eid. cbn [app] in *. rewrite El.
    replace (pre' ++ c0 :: mid ++ (body ++ [z]) ++ post)
      with ((pre' ++ c0 :: mid ++ body) ++ z :: post)
      by (now rewrite <- !app_assoc; cbn [app]; rewrite <- !app_assoc).
    rewrite Er. now rewrite <- !app_assoc; cbn [app]; rewrite <- !app_assoc. }
  unfold extract_asin. rewrite Hs.
  destruct (Re.rmatch asin_exact _) as [f|] eqn:E; [eauto|].
  destruct (at_pos_marker marker id post' (0 + length pre') Hlen
              (alnum_AZ09_i _ Hall)) as (f & Hat & _).
  destruct (search_from_complete _ pre' _ f 0 Hat) as [f' Hf'].
  apply (first_asin_match_some U _ (Cat (Lit_i marker) asin_group) f');
    [|exact Hf'].
  unfold url_markers in Hin. cbn [In] in Hin.
  destruct Hin as [Hin|[Hin|[Hin|[Hin|[Hin|[Hin|[]]]]]]]; rewrite <- Hin;
    unfold asin_patterns; cbn [Seq In]; tauto.
Qed.

Lemma extract_asin_accepts_url_shapes_witness :
  exists identifier,
    extract_asin caseless (u "  www.amazon.de/x?asin=b08n5wrwnw&y=2" ++ [10%N])
      = Some identifier.
Proof.
  apply (extract_asin_accepts_url_shapes caseless
           (u "  www.amazon.de/x?asin=b08n5wrwnw&y=2" ++ [10%N])
           (u "  www.amazon.de/x?") (u "asin=") (u "b08n5wrwnw")
           (u "&y=2" ++ [10%N]));
    [vm_compute; tauto | reflexivity | reflexivity | reflexivity].
Defined.
